(** * lispBM runtime core: constant heap, defragmenting pool, CPS evaluator

    A shallow embedding of three pieces of the lispBM sources and the
    properties the specification states about them.

    Definitions:
    - [ConstHeap]   : [const_heap_write] of [experiment_repl/repl.c];
    - [DefragMem]   : [lbm_defrag_mem_alloc], [lbm_defrag_mem_defrag] and
                      [lbm_defrag_mem_free] of [src/lbm_defrag_mem.c],
                      with the cons heap they talk to;
    - [EvalCps]     : [apply_continuation], [run_eval] and
                      [eval_cps_program] of [src/eval_cps.c], over the
                      signatures of the translation units they call;
    - [SpecRuntime] : an implementation of those signatures after the
                      specification, to run the evaluator on programs;
    - [ConstHeapMore], [DefragMemMore], [EvalCpsMore] :
                      [lbm_defrag_mem_destroy] and
                      [free_defrag_allocation], and the predicates and
                      sample inputs of the further properties.

    Properties: [ConstHeapFacts], [DefragMemFacts], [EvalCpsFacts] for
    the statements of the specification; [ConstHeapMoreFacts],
    [DefragMemMoreFacts], [EvalCpsMoreFacts] for further properties of
    the same functions and of the functions around them.

    Machine words ([lbm_uint], [VALUE]) are integers of [Z]; C arrays are
    lists read and updated by index; a C function with out-parameters
    returns a tuple; a loop is a recursion on fuel. *)

From Stdlib Require Import ZArith Lia Bool.
From stdpp Require Import base option list gmap.

Local Open Scope Z_scope.

(** Arithmetic on a 32-bit word wraps. *)
Definition wrap (x : Z) : Z := x mod 2 ^ 32.

(* ===================================================================== *)
(** ** The constant heap of the REPL ([experiment_repl/repl.c])           *)
(* ===================================================================== *)

Module ConstHeap.

(** [#define CONSTANT_MEMORY_SIZE 32*1024] *)
Definition CONSTANT_MEMORY_SIZE : Z := 32 * 1024.

(** The literal the source compares a slot with.  On the 32-bit word the
    REPL is written for ([printf] prints the slot with [%x]) this is the
    all-ones word left by [memset(constants_memory, 0xFF, ...)]. *)
Definition ERASED : Z := 0xffffffff.

(** [constants_memory[ix]]; the index is an [lbm_uint], hence never
    negative, and every read of the source is guarded by the bound. *)
Definition slot (constants_memory : list Z) (ix : Z) : Z :=
  default 0 (constants_memory !! Z.to_nat ix).

(** [bool const_heap_write(lbm_uint ix, lbm_uint w)]: the result and the
    array after the call.  The two [printf] of the failing path have no
    effect on the array. *)
Definition const_heap_write (constants_memory : list Z) (ix w : Z)
  : bool * list Z :=
  if CONSTANT_MEMORY_SIZE <=? ix then (false, constants_memory)
  else if slot constants_memory ix =? 0xffffffff then
    (true, <[Z.to_nat ix := w]> constants_memory)
  else if slot constants_memory ix =? w then (true, constants_memory)
  else (false, constants_memory).

(** The array after [init_repl]'s [memset]. *)
Definition erased_memory : list Z :=
  replicate (Z.to_nat CONSTANT_MEMORY_SIZE) ERASED.

(** A run of calls of [const_heap_write], as a client of the constant
    heap makes them one after the other: the words [(ix, w)] are
    written in turn, whatever the calls return.  The result tells
    whether every call returned [true], and gives the array after the
    last call. *)
Fixpoint const_heap_writes (constants_memory : list Z) (ws : list (Z * Z))
  : bool * list Z :=
  match ws with
  | [] => (true, constants_memory)
  | (ix, w) :: ws =>
      let '(ok, mem1) := const_heap_write constants_memory ix w in
      let '(oks, mem2) := const_heap_writes mem1 ws in
      (ok && oks, mem2)
  end.

(** The indices of a run are those of an [lbm_uint]: none is
    negative. *)
Definition unsigned_indices (ws : list (Z * Z)) : Prop :=
  Forall (fun iw => 0 <= iw.1) ws.

(** The property P3 of the specification for one slot: once [v] has been
    written to it with success, then after any run of further calls, to
    this or to other indices, accepted or rejected, the slot still
    holds [v], and a write of [v'] to it succeeds exactly when
    [v' = v]. *)
Definition write_once_at (constants_memory : list Z) (ix v : Z) : Prop :=
  forall mem1, const_heap_write constants_memory ix v = (true, mem1) ->
  forall ws, unsigned_indices ws ->
    let mem2 := (const_heap_writes mem1 ws).2 in
    slot mem2 ix = v
    /\ forall v', (const_heap_write mem2 ix v').1 = true <-> v' = v.

End ConstHeap.

(* ===================================================================== *)
(** ** The defragmenting pool ([src/lbm_defrag_mem.c])                    *)
(* ===================================================================== *)

Module DefragMem.

(** The 32-bit build: [lbm_uint] is a 32-bit word of four bytes. *)
Definition sizeof_lbm_uint : Z := 4.

Definition bs2ws (bs : Z) : Z :=
  if bs mod sizeof_lbm_uint =? 0 then bs / sizeof_lbm_uint
  else bs / sizeof_lbm_uint + 1.

Definition DEFRAG_MEM_HEADER_SIZE : Z := 2.

(** *** The cons heap the pool talks to *)

(** Modelled from the spec: [heap.h] and [heap.c] are not among the
    sources.  Section 3 classifies a value by its low four bits:
    [0000] is a cons-cell pointer whose payload is the index of the cell,
    [0100] a byte array, [1xxx] an immediate, the symbols being the last
    of the four immediate kinds listed. *)
Definition LBM_TYPE_CONS : Z := 0.
Definition LBM_TYPE_ARRAY : Z := 4.
Definition LBM_TYPE_DEFRAG_MEM : Z := 7.
Definition LBM_TYPE_SYMBOL : Z := 11.

Definition lbm_type_of (x : Z) : Z := Z.land x 15.
Definition lbm_is_symbol (x : Z) : bool := lbm_type_of x =? LBM_TYPE_SYMBOL.
Definition lbm_enc_sym (id : Z) : Z := wrap (Z.lor (Z.shiftl id 4) LBM_TYPE_SYMBOL).
Definition lbm_enc_cons_ptr (x : Z) : Z := wrap (Z.lor (Z.shiftl x 4) LBM_TYPE_CONS).
Definition lbm_dec_ptr (p : Z) : Z := Z.shiftr p 4.
Definition lbm_set_ptr_type (p t : Z) : Z := Z.lor (Z.shiftl (Z.shiftr p 4) 4) t.

(** Modelled from the spec: the symbol registry is not among the
    sources; section 3 only says that [nil], the error kinds and
    the type-describing symbols are built-in ids.  Any pairwise distinct
    ids serve. *)
Definition ENC_SYM_NIL : Z := lbm_enc_sym 0.
Definition ENC_SYM_TERROR : Z := lbm_enc_sym 33.
Definition ENC_SYM_MERROR : Z := lbm_enc_sym 35.
Definition ENC_SYM_DEFRAG_ARRAY_TYPE : Z := lbm_enc_sym 59.
Definition ENC_SYM_DEFRAG_MEM_TYPE : Z := lbm_enc_sym 60.

Record lbm_cons_t := mk_cons { car : Z; cdr : Z }.

(** Modelled from the spec (sections 3 and 4.1): a fixed array of cells
    and a free list. *)
Record lbm_heap_state_t := mk_heap {
  heap : list lbm_cons_t;
  freelist : list nat
}.

(** Modelled from the spec (section 4.1): allocation pops the head of the
    free list, writes the two words and returns the tagged pointer; on an
    empty free list it returns the out-of-memory symbol. *)
Definition lbm_heap_allocate_cell (hs : lbm_heap_state_t) (type car cdr : Z)
  : lbm_heap_state_t * Z :=
  match freelist hs with
  | [] => (hs, ENC_SYM_MERROR)
  | i :: fl =>
      (mk_heap (<[i := mk_cons car cdr]> (heap hs)) fl,
       lbm_set_ptr_type (lbm_enc_cons_ptr (Z.of_nat i)) type)
  end.

Definition lbm_ref_cell (hs : lbm_heap_state_t) (c : Z) : option lbm_cons_t :=
  heap hs !! Z.to_nat (lbm_dec_ptr c).

(** Modelled from the spec: the setters act on a value that is a
    cons-cell pointer, and leave the heap alone for any other value. *)
Definition lbm_set_car (hs : lbm_heap_state_t) (c v : Z) : lbm_heap_state_t :=
  if lbm_type_of c =? LBM_TYPE_CONS then
    match lbm_ref_cell hs c with
    | Some cell =>
        mk_heap (<[Z.to_nat (lbm_dec_ptr c) := mk_cons v (cdr cell)]> (heap hs))
                (freelist hs)
    | None => hs
    end
  else hs.

Definition lbm_set_car_and_cdr (hs : lbm_heap_state_t) (c a d : Z)
  : lbm_heap_state_t :=
  if lbm_type_of c =? LBM_TYPE_CONS then
    mk_heap (<[Z.to_nat (lbm_dec_ptr c) := mk_cons a d]> (heap hs)) (freelist hs)
  else hs.

(** *** The pool *)

(** The block [lbm_uint *defrag_mem]: the address of its first word and
    its words, [defrag_mem[0]] the size in words, [defrag_mem[1]] the
    flags, the data from [defrag_mem[2]] on. *)
Record defrag_mem_t := mk_pool {
  pool_addr : Z;
  pool_words : list Z
}.

Definition rd (ws : list Z) (k : Z) : Z := default 0 (ws !! Z.to_nat k).

Definition DEFRAG_MEM_SIZE (p : defrag_mem_t) : Z := rd (pool_words p) 0.
Definition DEFRAG_MEM_FLAGS (p : defrag_mem_t) : Z := rd (pool_words p) 1.

(** [mem_data[i]], with [mem_data = &defrag_mem[DEFRAG_MEM_HEADER_SIZE]]. *)
Definition mem_data (p : defrag_mem_t) (i : Z) : Z :=
  rd (pool_words p) (DEFRAG_MEM_HEADER_SIZE + i).

Definition set_mem_data (p : defrag_mem_t) (i v : Z) : defrag_mem_t :=
  mk_pool (pool_addr p)
          (<[Z.to_nat (DEFRAG_MEM_HEADER_SIZE + i) := v]> (pool_words p)).

Definition set_flags (p : defrag_mem_t) (v : Z) : defrag_mem_t :=
  mk_pool (pool_addr p) (<[1%nat := v]> (pool_words p)).

(** [(lbm_uint)&mem_data[i]] *)
Definition addr_of_data (p : defrag_mem_t) (i : Z) : Z :=
  wrap (pool_addr p + sizeof_lbm_uint * (DEFRAG_MEM_HEADER_SIZE + i)).

(** The index [i] with [&mem_data[i]] the given address. *)
Definition data_index (p : defrag_mem_t) (a : Z) : Z :=
  (a - pool_addr p) / sizeof_lbm_uint - DEFRAG_MEM_HEADER_SIZE.

(** [memmove(&mem_data[dst], &mem_data[src], n * sizeof(lbm_uint))]: the
    source words are read before any is written. *)
Definition memmove (p : defrag_mem_t) (dst src n : Z) : defrag_mem_t :=
  let chunk :=
    take (Z.to_nat n)
         (drop (Z.to_nat (DEFRAG_MEM_HEADER_SIZE + src)) (pool_words p)) in
  mk_pool (pool_addr p)
          (list_inserts (Z.to_nat (DEFRAG_MEM_HEADER_SIZE + dst)) chunk
                        (pool_words p)).

(** [memset(&mem_data[ix], 0, n * sizeof(lbm_uint))] *)
Definition memset0 (p : defrag_mem_t) (ix n : Z) : defrag_mem_t :=
  mk_pool (pool_addr p)
          (list_inserts (Z.to_nat (DEFRAG_MEM_HEADER_SIZE + ix))
                        (replicate (Z.to_nat n) 0) (pool_words p)).

(** The block as [lbm_defrag_mem_create] initialises it: all zero, then
    the size and the flags. *)
Definition created_block (addr nwords : Z) : defrag_mem_t :=
  mk_pool addr (nwords :: 0 :: replicate (Z.to_nat nwords) 0).

(** [lbm_defrag_mem_create]; [data] is what [lbm_malloc] returned, [None]
    for the null pointer.  The result is the heap, the value returned and
    the block, if one stays allocated. *)
Definition lbm_defrag_mem_create (hs : lbm_heap_state_t) (data : option Z)
    (nbytes : Z) : lbm_heap_state_t * Z * option defrag_mem_t :=
  let nwords := bs2ws nbytes in
  if 0 <? nwords then
    match data with
    | Some addr =>
        let '(hs, cell) :=
          lbm_heap_allocate_cell hs LBM_TYPE_DEFRAG_MEM addr
                                 ENC_SYM_DEFRAG_MEM_TYPE in
        if lbm_type_of cell =? LBM_TYPE_SYMBOL then (hs, cell, None)
        else (hs, cell, Some (created_block addr nwords))
    | None => (hs, ENC_SYM_MERROR, None)
    end
  else (hs, ENC_SYM_TERROR, None).

(** The loop of [lbm_defrag_mem_defrag]; every round advances [i], so
    [mem_size] rounds of fuel are enough. *)
Fixpoint defrag_loop (fuel : nat) (p : defrag_mem_t) (hs : lbm_heap_state_t)
    (mem_size i hole_start : Z) : option (defrag_mem_t * lbm_heap_state_t) :=
  if i <? mem_size then
    match fuel with
    | O => None
    | S fuel =>
        if negb (mem_data p i =? 0) then
          let alloc_bytes := mem_data p i in
          let alloc_words := bs2ws alloc_bytes in
          if hole_start =? i then
            let i' := wrap (i + (alloc_words + 3)) in
            defrag_loop fuel p hs mem_size i' i'
          else
            let move_dist := wrap (i - hole_start) in
            let clear_ix := wrap (i - move_dist) in
            let p1 := memmove p hole_start i (alloc_words + 3) in
            let p2 := memset0 p1 clear_ix move_dist in
            let cell := mem_data p2 (hole_start + 2) in
            let hs' := lbm_set_car hs cell (addr_of_data p2 hole_start) in
            defrag_loop fuel p2 hs' mem_size
                        (wrap (i + (alloc_words + 3)))
                        (wrap (hole_start + (alloc_words + 3)))
        else defrag_loop fuel p hs mem_size (wrap (i + 1)) hole_start
    end
  else Some (p, hs).

Definition lbm_defrag_mem_defrag (p : defrag_mem_t) (hs : lbm_heap_state_t)
  : option (defrag_mem_t * lbm_heap_state_t) :=
  let mem_size := rd (pool_words p) 0 in
  defrag_loop (Z.to_nat mem_size) p hs mem_size 0 0.

Inductive scan_state := INIT | FREE_LEN.

(** The search loop of [lbm_defrag_mem_alloc]; the result is
    [(alloc_found, free_start)]. *)
Fixpoint alloc_scan (fuel : nat) (p : defrag_mem_t) (mem_size alloc_words : Z)
    (state : scan_state) (i free_words free_start : Z) : option (bool * Z) :=
  if i <? mem_size then
    match fuel with
    | O => None
    | S fuel =>
        match state with
        | INIT =>
            if mem_data p i =? 0 then
              alloc_scan fuel p mem_size alloc_words FREE_LEN (wrap (i + 1)) 1 i
            else
              alloc_scan fuel p mem_size alloc_words INIT
                         (wrap (i + (bs2ws (mem_data p i) + 3)))
                         free_words free_start
        | FREE_LEN =>
            if mem_data p i =? 0 then
              let free_words := wrap (free_words + 1) in
              if alloc_words <=? free_words then Some (true, free_start)
              else alloc_scan fuel p mem_size alloc_words FREE_LEN
                              (wrap (i + 1)) free_words free_start
            else
              alloc_scan fuel p mem_size alloc_words INIT (wrap (i + 1))
                         free_words free_start
        end
    end
  else Some (false, free_start).

(** [lbm_defrag_mem_alloc]: the pool, the heap and the value returned. *)
Definition lbm_defrag_mem_alloc (p : defrag_mem_t) (hs : lbm_heap_state_t)
    (bytes : Z) : option (defrag_mem_t * lbm_heap_state_t * Z) :=
  let '(hs, cell) :=
    lbm_heap_allocate_cell hs LBM_TYPE_CONS ENC_SYM_NIL ENC_SYM_DEFRAG_ARRAY_TYPE in
  if lbm_is_symbol cell then Some (p, hs, cell)
  else
    let mem_size := DEFRAG_MEM_SIZE p in
    '(p, hs) ← (if negb (DEFRAG_MEM_FLAGS p =? 0) then
                  '(p, hs) ← lbm_defrag_mem_defrag p hs;
                  Some (set_flags p 0, hs)
                else Some (p, hs));
    let num_words := bs2ws bytes in
    let alloc_words := wrap (num_words + 3) in
    '(alloc_found, free_start) ←
      alloc_scan (S (Z.to_nat mem_size)) p mem_size alloc_words INIT 0 0 0;
    if alloc_found : bool then
      let p := set_mem_data p free_start bytes in
      let p := set_mem_data p (free_start + 1) (addr_of_data p (free_start + 3)) in
      let p := set_mem_data p (free_start + 2) (lbm_dec_ptr cell) in
      let hs := lbm_set_car hs cell (addr_of_data p free_start) in
      let cell := lbm_set_ptr_type cell LBM_TYPE_ARRAY in
      Some (p, hs, cell)
    else
      let p := set_flags p 1 in
      let hs := lbm_set_car_and_cdr hs cell ENC_SYM_NIL ENC_SYM_NIL in
      Some (p, hs, ENC_SYM_MERROR).

(** [lbm_defrag_mem_free(data)], [data] the address of a record. *)
Definition lbm_defrag_mem_free (p : defrag_mem_t) (data : Z) : defrag_mem_t :=
  let ix := data_index p data in
  let nbytes := mem_data p ix in
  let words_to_wipe := wrap (3 + bs2ws nbytes) in
  memset0 p ix words_to_wipe.

(** *** The back-pointer invariant *)

(** The records of the pool, found the way the source walks it
    ([lbm_defrag_mem_destroy], [lbm_defrag_mem_defrag]): a non-zero word
    met by the walk is the size word of a record of
    [3 + bs2ws size] words; a zero word is skipped. *)
Fixpoint records_from (fuel : nat) (p : defrag_mem_t) (mem_size i : Z) : list Z :=
  if i <? mem_size then
    match fuel with
    | O => []
    | S fuel =>
        if negb (mem_data p i =? 0) then
          i :: records_from fuel p mem_size (i + (3 + bs2ws (mem_data p i)))
        else records_from fuel p mem_size (i + 1)
    end
  else [].

Definition records (p : defrag_mem_t) : list Z :=
  records_from (Z.to_nat (DEFRAG_MEM_SIZE p)) p (DEFRAG_MEM_SIZE p) 0.

(** The cell a record names: the back-pointer word holds
    [lbm_dec_ptr cell], and [free_defrag_allocation] recovers the cell
    from it with [lbm_enc_cons_ptr]. *)
Definition back_ptr_cell (p : defrag_mem_t) (hs : lbm_heap_state_t) (i : Z)
  : option lbm_cons_t :=
  lbm_ref_cell hs (lbm_enc_cons_ptr (mem_data p (i + 2))).

(** The record at [i] is linked back: its cell's [car] is its address. *)
Definition linked_back (p : defrag_mem_t) (hs : lbm_heap_state_t) (i : Z) : bool :=
  match back_ptr_cell p hs i with
  | Some c => car c =? addr_of_data p i
  | None => false
  end.

Definition back_pointers_ok (p : defrag_mem_t) (hs : lbm_heap_state_t) : bool :=
  forallb (linked_back p hs) (records p).

(** *** A session with the pool *)

(** Modelled from the spec (section 4.1, sweep): the collector is not
    among the sources.  An unreachable handle cell is put back
    at the head of the free list and the record its [car] names is
    released through [lbm_defrag_mem_free]. *)
Definition sweep_handle (p : defrag_mem_t) (hs : lbm_heap_state_t) (ix : nat)
  : defrag_mem_t * lbm_heap_state_t :=
  match heap hs !! ix with
  | Some c =>
      (lbm_defrag_mem_free p (car c), mk_heap (heap hs) (ix :: freelist hs))
  | None => (p, hs)
  end.

Inductive pool_op :=
  | Alloc (bytes : Z)
  | Sweep (cell_index : nat).

Definition pool_step (st : defrag_mem_t * lbm_heap_state_t) (op : pool_op)
  : option (defrag_mem_t * lbm_heap_state_t) :=
  match op with
  | Alloc bytes =>
      '(p, hs, _) ← lbm_defrag_mem_alloc st.1 st.2 bytes; Some (p, hs)
  | Sweep ix => Some (sweep_handle st.1 st.2 ix)
  end.

Fixpoint pool_run (ops : list pool_op) (st : defrag_mem_t * lbm_heap_state_t)
  : option (defrag_mem_t * lbm_heap_state_t) :=
  match ops with
  | [] => Some st
  | op :: ops => st ← pool_step st op; pool_run ops st
  end.

(** A heap of eight free cells and a pool of [nbytes] bytes at address
    [0x20001000], as [lbm_defrag_mem_create] makes it. *)
Definition empty_heap : lbm_heap_state_t :=
  mk_heap (replicate 8 (mk_cons 0 0)) (seq 0 8).

Definition fresh_pool (nbytes : Z) : option (defrag_mem_t * lbm_heap_state_t) :=
  match lbm_defrag_mem_create empty_heap (Some 0x20001000) nbytes with
  | (hs, _, Some p) => Some (p, hs)
  | _ => None
  end.

(** In a pool of 96 bytes (24 words), arrays of 16, 8 and 16 bytes are
    allocated; the middle one becomes garbage and is swept; an array of 4
    bytes takes its place and leaves a hole of one word before the third
    array, while five words are free behind it; an allocation of 12
    bytes, six words with the header, finds no room and sets the
    compaction flag. *)
Definition fragmented_pool : option (defrag_mem_t * lbm_heap_state_t) :=
  st ← fresh_pool 96;
  pool_run [Alloc 16; Alloc 8; Alloc 16; Sweep 2; Alloc 4; Alloc 12] st.

(** Scenario S6 of the specification in a pool of 92 bytes (23 words):
    three arrays of 16 bytes, the middle one swept, and a first
    allocation of 24 bytes, nine words with the header, which finds no
    room (seven words are free in the middle, two at the end) and sets
    the compaction flag. *)
Definition three_arrays : option (defrag_mem_t * lbm_heap_state_t) :=
  st ← fresh_pool 92;
  pool_run [Alloc 16; Alloc 16; Alloc 16; Sweep 2; Alloc 24] st.

End DefragMem.

(* ===================================================================== *)
(** ** The CPS evaluator ([src/eval_cps.c])                               *)
(* ===================================================================== *)

Module EvalCps.

(** A [VALUE] (and a [UINT]) is a 32-bit word. *)
Definition VALUE : Type := Z.

(** The continuation tags. *)
Definition DONE : Z := 1.
Definition SET_GLOBAL_ENV : Z := 2.
Definition FUNCTION_APP : Z := 3.
Definition FUNCTION : Z := 4.
Definition BIND_TO_KEY_REST : Z := 5.
Definition IF : Z := 6.
Definition ARG_LIST : Z := 7.
Definition EVAL : Z := 8.
Definition PROGN_REST : Z := 9.

(** The type tags [type_of] tells apart; [typedefs.h] is not among the
    sources, so only the names the evaluator uses are kept, and
    [TYPE_OTHER] stands for every tag it does not name. *)
Inductive value_type :=
  | VAL_TYPE_SYMBOL | VAL_TYPE_I | VAL_TYPE_U | VAL_TYPE_CHAR
  | PTR_TYPE_CONS | PTR_TYPE_BOXED_I | PTR_TYPE_BOXED_U | PTR_TYPE_BOXED_F
  | PTR_TYPE_ARRAY | PTR_TYPE_REF | PTR_TYPE_STREAM | PTR_TYPE_BYTECODE
  | TYPE_OTHER.

#[global] Instance value_type_eq_dec : EqDecision value_type.
Proof. solve_decision. Defined.

(** *** What the evaluator calls *)

(** The heap, the symbol table, the environments, the fundamental
    operations, the byte code and the collector are other translation
    units ([heap.h], [symrepr.h], [env.h], [fundamental.h], [bytecode.h]),
    none of them among the sources.  The evaluator is embedded over
    their signatures, for any representation [Heap] of the cons heap: a
    function that reads the heap takes it, one that may allocate or
    write returns the new heap as well, and a C function that returns a
    success flag and a value through a pointer returns an [option]. *)
Class Runtime (Heap : Type) := {
  type_of : VALUE -> value_type;
  enc_u : Z -> VALUE;
  dec_u : VALUE -> Z;
  enc_sym : Z -> VALUE;
  dec_sym : VALUE -> Z;
  symrepr_nil : Z;
  symrepr_true : Z;
  symrepr_eerror : Z;
  symrepr_merror : Z;
  symrepr_quote : Z;
  symrepr_define : Z;
  symrepr_progn : Z;
  symrepr_lambda : Z;
  symrepr_if : Z;
  symrepr_let : Z;
  symrepr_closure : Z;
  symrepr_is_error : Z -> bool;
  car : Heap -> VALUE -> VALUE;
  cdr : Heap -> VALUE -> VALUE;
  cons : Heap -> VALUE -> VALUE -> Heap * VALUE;
  set_cdr : Heap -> VALUE -> VALUE -> Heap;
  reverse : Heap -> VALUE -> Heap * VALUE;
  length : Heap -> VALUE -> Z;
  env_lookup : Heap -> VALUE -> VALUE -> option VALUE;
  env_copy_shallow : Heap -> VALUE -> Heap * option VALUE;
  env_build_params_args : Heap -> VALUE -> VALUE -> VALUE -> Heap * option VALUE;
  env_modify_binding : Heap -> VALUE -> VALUE -> VALUE -> Heap;
  is_fundamental : VALUE -> bool;
  fundamental_exec : Heap -> list VALUE -> VALUE -> Heap * list VALUE * bool;
  bytecode_eval : Heap -> list VALUE -> VALUE -> Heap * list VALUE * VALUE;
  heap_perform_gc_aux :
    Heap -> VALUE -> VALUE -> VALUE -> VALUE -> VALUE -> list VALUE -> Heap
}.

(** *** The continuation stack *)

(** Modelled from the spec (section 4.4): [stack.h] is not among the
    sources.  The stack is a list with its top first and grows on
    demand; [push_u32_n] pushes its arguments from left to right and
    [pop_u32_n] fills its arguments from the top down, the one reading
    under which the frames the evaluator pushes are the frames it pops.
    Popping an empty stack has no outcome. *)
Definition push_u32 (K : list VALUE) (a : VALUE) : list VALUE := a :: K.
Definition push_u32_2 (K : list VALUE) (a b : VALUE) : list VALUE := b :: a :: K.
Definition push_u32_3 (K : list VALUE) (a b c : VALUE) : list VALUE :=
  c :: b :: a :: K.
Definition push_u32_4 (K : list VALUE) (a b c d : VALUE) : list VALUE :=
  d :: c :: b :: a :: K.
Definition push_u32_5 (K : list VALUE) (a b c d e : VALUE) : list VALUE :=
  e :: d :: c :: b :: a :: K.

Definition pop_u32 (K : list VALUE) : option (VALUE * list VALUE) :=
  match K with
  | a :: K => Some (a, K)
  | [] => None
  end.
Definition pop_u32_2 (K : list VALUE) : option (VALUE * VALUE * list VALUE) :=
  match K with
  | a :: b :: K => Some (a, b, K)
  | _ => None
  end.
Definition pop_u32_3 (K : list VALUE)
  : option (VALUE * VALUE * VALUE * list VALUE) :=
  match K with
  | a :: b :: c :: K => Some (a, b, c, K)
  | _ => None
  end.

(** *** The state *)

(** [eval_context_t], without the link to the next context. *)
Record eval_context_t := mk_ctx {
  program : VALUE;
  curr_exp : VALUE;
  curr_env : VALUE;
  K : list VALUE
}.

Definition with_exp (c : eval_context_t) (e : VALUE) : eval_context_t :=
  mk_ctx (program c) e (curr_env c) (K c).
Definition with_env (c : eval_context_t) (e : VALUE) : eval_context_t :=
  mk_ctx (program c) (curr_exp c) e (K c).
Definition with_K (c : eval_context_t) (k : list VALUE) : eval_context_t :=
  mk_ctx (program c) (curr_exp c) (curr_env c) k.

Section Evaluator.
Context {Heap : Type} `{!Runtime Heap}.

(** The context a call works on, with the two things it shares with the
    rest of the program: the heap and [eval_cps_global_env]. *)
Record world := mk_world {
  ctx : eval_context_t;
  heap : Heap;
  eval_cps_global_env : VALUE
}.

(** The three flags [apply_continuation] receives by pointer. *)
Record flags := mk_flags {
  done : bool;
  perform_gc : bool;
  app_cont : bool
}.

Definition NIL : VALUE := enc_sym symrepr_nil.

Definition is_type (v : VALUE) (t : value_type) : bool :=
  bool_decide (type_of v = t).

(** The search of [cont_set_global_env]: [Some h] when the key is bound
    and its value has been overwritten, [None] when the walk reaches the
    end of the list. *)
Fixpoint set_global_walk (fuel : nat) (h : Heap) (curr key val : VALUE)
  : option (option Heap) :=
  if is_type curr PTR_TYPE_CONS then
    match fuel with
    | O => None
    | S fuel =>
        if car h (car h curr) =? key then Some (Some (set_cdr h (car h curr) val))
        else set_global_walk fuel h (cdr h curr) key val
    end
  else Some None.

(** [cont_set_global_env]: the value returned, the world and
    [*perform_gc]. *)
Definition cont_set_global_env (fuel : nat) (w : world) (val : VALUE)
    (perform_gc : bool) : option (VALUE * world * bool) :=
  '(key, K1) ← pop_u32 (K (ctx w));
  found ← set_global_walk fuel (heap w) (eval_cps_global_env w) key val;
  match found with
  | Some h =>
      Some (enc_sym symrepr_true,
            mk_world (with_K (ctx w) K1) h (eval_cps_global_env w), perform_gc)
  | None =>
      let '(h1, keyval) := cons (heap w) key val in
      if is_type keyval VAL_TYPE_SYMBOL then
        Some (val,
              mk_world (with_K (ctx w) (push_u32_2 K1 key (enc_u SET_GLOBAL_ENV)))
                       h1 (eval_cps_global_env w),
              true)
      else
        let '(h2, tmp) := cons h1 keyval (eval_cps_global_env w) in
        if is_type tmp VAL_TYPE_SYMBOL then
          Some (val,
                mk_world (with_K (ctx w) (push_u32_2 K1 key (enc_u SET_GLOBAL_ENV)))
                         h2 (eval_cps_global_env w),
                true)
        else
          Some (enc_sym symrepr_true, mk_world (with_K (ctx w) K1) h2 tmp,
                perform_gc)
  end.

(** The loop that pushes the arguments of a fundamental operation:
    the stack and [nargs]. *)
Fixpoint push_args (fuel : nat) (h : Heap) (K : list VALUE)
    (curr_arg : VALUE) (nargs : Z) : option (list VALUE * Z) :=
  if is_type curr_arg PTR_TYPE_CONS then
    match fuel with
    | O => None
    | S fuel =>
        push_args fuel h (push_u32 K (car h curr_arg)) (cdr h curr_arg)
                  (wrap (nargs + 1))
    end
  else Some (K, nargs).

(** The start of the [FUNCTION_APP] case: a [cons] argument list is
    reversed, any other value (the empty list) is taken as it is. *)
Definition reversed (h : Heap) (args : VALUE) : Heap * VALUE :=
  if is_type args PTR_TYPE_CONS then reverse h args else (h, args).

(** The reversal had to allocate and failed. *)
Definition reversal_failed (h : Heap) (args : VALUE) : Prop :=
  type_of args = PTR_TYPE_CONS
  /\ type_of (reversed h args).2 = VAL_TYPE_SYMBOL.

Definition set_K (w : world) (k : list VALUE) : world :=
  mk_world (with_K (ctx w) k) (heap w) (eval_cps_global_env w).
Definition set_exp (w : world) (e : VALUE) : world :=
  mk_world (with_exp (ctx w) e) (heap w) (eval_cps_global_env w).
Definition set_env (w : world) (e : VALUE) : world :=
  mk_world (with_env (ctx w) e) (heap w) (eval_cps_global_env w).
Definition set_heap (w : world) (h : Heap) : world :=
  mk_world (ctx w) h (eval_cps_global_env w).

Definition set_done (fl : flags) : flags :=
  mk_flags true (perform_gc fl) (app_cont fl).
Definition set_perform_gc (fl : flags) : flags :=
  mk_flags (done fl) true (app_cont fl).
Definition set_app_cont (fl : flags) (b : bool) : flags :=
  mk_flags (done fl) (perform_gc fl) b.

(** [apply_continuation(ctx, arg, &done, &perform_gc, &app_cont)]: the
    value returned, the world and the flags after the call.  [fuel]
    bounds the walks over lists of the heap.  There is no outcome when
    the stack is popped empty, when a walk outlasts its fuel, and in the
    byte-code case with a non-empty argument list, whose loop
    [while (curr_arg != NIL) push_u32(ctx->K, car(curr_arg));] never
    advances [curr_arg].  The byte-code case reads the context through
    [eval_cps_get_current_context()], taken to be the context at hand. *)
Definition apply_continuation (fuel : nat) (w : world) (arg : VALUE)
    (fl : flags) : option (VALUE * world * flags) :=
  '(k, K1) ← pop_u32 (K (ctx w));
  let w := set_K w K1 in
  let fl := set_app_cont fl false in
  let k := dec_u k in
  if k =? DONE then
    Some (arg, w, set_done fl)
  else if k =? EVAL then
    Some (enc_u 0, set_exp w arg, fl)
  else if k =? SET_GLOBAL_ENV then
    '(res, w, g) ← cont_set_global_env fuel w arg (perform_gc fl);
    Some (res, w, mk_flags (done fl) g true)
  else if k =? PROGN_REST then
    '(rest, K2) ← pop_u32 (K (ctx w));
    let w := set_K w K2 in
    if is_type rest VAL_TYPE_SYMBOL && (rest =? NIL) then
      Some (arg, w, set_app_cont fl true)
    else if symrepr_is_error rest then
      Some (rest, w, set_done fl)
    else
      let w := set_K w (push_u32_2 K2 (cdr (heap w) rest) (enc_u PROGN_REST)) in
      Some (enc_u 0, set_exp w (car (heap w) rest), fl)
  else if k =? FUNCTION_APP then
    let fun_ := arg in
    '(args, K2) ← pop_u32 (K (ctx w));
    let w := set_K w K2 in
    let retry (h : Heap) :=
      Some (fun_,
            set_heap (set_K w (push_u32_2 K2 args (enc_u FUNCTION_APP))) h,
            set_app_cont (set_perform_gc fl) true) in
    let '(h1, args_rev) := reversed (heap w) args in
    if is_type args PTR_TYPE_CONS && is_type args_rev VAL_TYPE_SYMBOL then
      retry h1
    else if is_type fun_ PTR_TYPE_CONS then
      let params := car h1 (cdr h1 fun_) in
      let exp := car h1 (cdr h1 (cdr h1 fun_)) in
      let clo_env := car h1 (cdr h1 (cdr h1 (cdr h1 fun_))) in
      if negb (length h1 params =? length h1 args) then
        Some (enc_sym symrepr_eerror, set_heap w h1, set_done fl)
      else
        match env_build_params_args h1 params args_rev clo_env with
        | (h2, None) => retry h2
        | (h2, Some local_env) =>
            Some (0, set_env (set_exp (set_heap w h2) exp) local_env, fl)
        end
    else if is_type fun_ PTR_TYPE_BYTECODE then
      if negb (args_rev =? NIL) then None
      else
        let '(h2, K3, res) := bytecode_eval h1 K2 (car h1 fun_) in
        Some (res, set_heap (set_K w K3) h2, set_app_cont fl true)
    else if is_type fun_ VAL_TYPE_SYMBOL then
      '(K3, nargs) ← push_args fuel h1 K2 args 0;
      let K4 := push_u32 K3 (enc_u nargs) in
      let '(h2, K5, ok) := fundamental_exec h1 K4 fun_ in
      if negb ok then
        Some (enc_sym symrepr_merror, set_heap (set_K w K5) h2, set_done fl)
      else
        '(res, K6) ← pop_u32 K5;
        if is_type res VAL_TYPE_SYMBOL && (dec_sym res =? symrepr_merror) then
          Some (fun_,
                set_heap (set_K w (push_u32_2 K6 args (enc_u FUNCTION_APP))) h2,
                set_app_cont (set_perform_gc fl) true)
        else
          Some (res, set_heap (set_K w K6) h2, set_app_cont fl true)
    else
      Some (enc_sym symrepr_eerror, set_heap w h1, set_done fl)
  else if k =? ARG_LIST then
    '(rest, acc, env, K2) ← pop_u32_3 (K (ctx w));
    let w := set_K w K2 in
    let '(h1, acc_) := cons (heap w) arg acc in
    let w := set_heap w h1 in
    if is_type acc_ VAL_TYPE_SYMBOL then
      Some (arg, set_K w (push_u32_4 K2 env acc rest (enc_u ARG_LIST)),
            set_app_cont (set_perform_gc fl) true)
    else if is_type rest VAL_TYPE_SYMBOL && (rest =? NIL) then
      Some (acc_, w, set_app_cont fl true)
    else
      let head := car h1 rest in
      let w := set_K w (push_u32_4 K2 env acc_ (cdr h1 rest) (enc_u ARG_LIST)) in
      Some (enc_u 0, set_exp (set_env w env) head, fl)
  else if k =? FUNCTION then
    '(fun_, K2) ← pop_u32 (K (ctx w));
    let w := set_K w (push_u32_2 K2 arg (enc_u FUNCTION_APP)) in
    if is_fundamental fun_ then
      Some (fun_, w, set_app_cont fl true)
    else
      Some (enc_u 0, set_exp w fun_, fl)
  else if k =? BIND_TO_KEY_REST then
    '(key, env, rest, K2) ← pop_u32_3 (K (ctx w));
    let h1 := env_modify_binding (heap w) env key arg in
    let w := set_heap (set_K w K2) h1 in
    if is_type rest PTR_TYPE_CONS then
      let keyn := car h1 (car h1 rest) in
      let valn_exp := car h1 (cdr h1 (car h1 rest)) in
      let w :=
        set_K w (push_u32_4 K2 (cdr h1 rest) env keyn (enc_u BIND_TO_KEY_REST)) in
      Some (enc_u 0, set_env (set_exp w valn_exp) env, fl)
    else
      '(exp, K3) ← pop_u32 K2;
      Some (enc_u 0, set_env (set_exp (set_K w K3) exp) env, fl)
  else if k =? IF then
    '(then_branch, else_branch, K2) ← pop_u32_2 (K (ctx w));
    let w := set_K w K2 in
    if is_type arg VAL_TYPE_SYMBOL && (dec_sym arg =? symrepr_true) then
      Some (0, set_exp w then_branch, fl)
    else
      Some (0, set_exp w else_branch, fl)
  else
    Some (enc_sym symrepr_eerror, w, set_done fl).

(** The loop of the [let] case that allocates a binding to [NIL] for
    every key: the heap, [new_env] and [perform_gc] when the loop is
    left.  The [continue] of its failure branch belongs to this [while],
    so [curr] is not advanced and the round is run again. *)
Fixpoint let_prealloc (fuel : nat) (h : Heap) (curr new_env : VALUE)
    (perform_gc : bool) : option (Heap * VALUE * bool) :=
  if is_type curr PTR_TYPE_CONS then
    match fuel with
    | O => None
    | S fuel =>
        let key := car h (car h curr) in
        let val := NIL in
        let '(h1, binding) := cons h key val in
        let '(h2, new_env) := cons h1 binding new_env in
        if is_type binding VAL_TYPE_SYMBOL || is_type new_env VAL_TYPE_SYMBOL
        then let_prealloc fuel h2 curr new_env true
        else let_prealloc fuel h2 (cdr h2 curr) new_env perform_gc
    end
  else Some (h, new_env, perform_gc).

(** The part of the loop body of [run_eval] that evaluates
    [ctx->curr_exp]: the world, [r] and the flags when the body is left
    by [continue] or [break]. *)
Definition eval_dispatch (fuel : nat) (w : world) (r : VALUE) (fl : flags)
  : option (world * VALUE * flags) :=
  let fl := set_app_cont fl false in
  let e := curr_exp (ctx w) in
  let h := heap w in
  match type_of e with
  | VAL_TYPE_SYMBOL =>
      match env_lookup h e (curr_env (ctx w)) with
      | Some value => Some (w, value, set_app_cont fl true)
      | None =>
          match env_lookup h e (eval_cps_global_env w) with
          | Some value => Some (w, value, set_app_cont fl true)
          | None => Some (w, enc_sym symrepr_eerror, set_done fl)
          end
      end
  | PTR_TYPE_BOXED_F | PTR_TYPE_BOXED_U | PTR_TYPE_BOXED_I
  | VAL_TYPE_I | VAL_TYPE_U | VAL_TYPE_CHAR | PTR_TYPE_ARRAY =>
      Some (w, e, set_app_cont fl true)
  | PTR_TYPE_REF | PTR_TYPE_STREAM =>
      Some (w, enc_sym symrepr_eerror, set_done fl)
  | PTR_TYPE_CONS =>
      let head := car h e in
      let special (s : Z) :=
        is_type head VAL_TYPE_SYMBOL && (dec_sym head =? s) in
      if special symrepr_quote then
        Some (w, car h (cdr h e), set_app_cont fl true)
      else if special symrepr_define then
        let key := car h (cdr h e) in
        let val_exp := car h (cdr h (cdr h e)) in
        if negb (is_type key VAL_TYPE_SYMBOL) || (key =? NIL) then
          Some (w, enc_sym symrepr_eerror, set_done fl)
        else
          let w := set_K w (push_u32_2 (K (ctx w)) key (enc_u SET_GLOBAL_ENV)) in
          Some (set_exp w val_exp, r, fl)
      else if special symrepr_progn then
        let exps := cdr h e in
        if is_type exps VAL_TYPE_SYMBOL && (exps =? NIL) then
          Some (w, enc_sym symrepr_nil, set_app_cont fl true)
        else if symrepr_is_error exps then
          Some (w, exps, set_done fl)
        else
          let w := set_K w (push_u32_2 (K (ctx w)) (cdr h exps) (enc_u PROGN_REST)) in
          Some (set_exp w (car h exps), r, fl)
      else if special symrepr_lambda then
        match env_copy_shallow h (curr_env (ctx w)) with
        | (h0, None) =>
            Some (set_heap w h0, r, set_app_cont (set_perform_gc fl) false)
        | (h0, Some env_cpy) =>
            let '(h1, env_end) := cons h0 env_cpy NIL in
            let '(h2, body) := cons h1 (car h1 (cdr h1 (cdr h1 e))) env_end in
            let '(h3, params) := cons h2 (car h2 (cdr h2 e)) body in
            let '(h4, closure) := cons h3 (enc_sym symrepr_closure) params in
            if is_type env_end VAL_TYPE_SYMBOL || is_type body VAL_TYPE_SYMBOL
               || is_type params VAL_TYPE_SYMBOL || is_type closure VAL_TYPE_SYMBOL
            then Some (set_heap w h4, r, set_app_cont (set_perform_gc fl) false)
            else Some (set_heap w h4, closure, set_app_cont fl true)
        end
      else if special symrepr_if then
        let w' :=
          set_K w (push_u32_3 (K (ctx w))
                              (car h (cdr h (cdr h (cdr h e))))
                              (car h (cdr h (cdr h e)))
                              (enc_u IF)) in
        Some (set_exp w' (car h (cdr h e)), r, fl)
      else if special symrepr_let then
        let orig_env := curr_env (ctx w) in
        let binds := car h (cdr h e) in
        let exp := car h (cdr h (cdr h e)) in
        if negb (is_type binds PTR_TYPE_CONS) then
          Some (set_exp w exp, r, fl)
        else
          '(h1, new_env, g) ← let_prealloc fuel h binds orig_env (perform_gc fl);
          let key0 := car h1 (car h1 binds) in
          let val0_exp := car h1 (cdr h1 (car h1 binds)) in
          let w :=
            set_K (set_heap w h1)
                  (push_u32_5 (K (ctx w)) exp (cdr h1 binds) new_env key0
                              (enc_u BIND_TO_KEY_REST)) in
          Some (set_env (set_exp w val0_exp) new_env, r,
                mk_flags (done fl) g false)
      else
        let w := set_K w (push_u32_2 (K (ctx w)) head (enc_u FUNCTION)) in
        if is_type (cdr h e) VAL_TYPE_SYMBOL && (cdr h e =? NIL) then
          Some (w, NIL, set_app_cont fl true)
        else
          let w :=
            set_K w (push_u32_4 (K (ctx w)) (curr_env (ctx w)) NIL
                                (cdr h (cdr h e)) (enc_u ARG_LIST)) in
          Some (set_exp w (car h (cdr h e)), r, fl)
  | _ => Some (w, enc_sym symrepr_eerror, set_done fl)
  end.

(** The local state of [run_eval]. *)
Record loop_state := mk_loop {
  lw : world;
  r : VALUE;
  lf : flags;
  non_gc : Z
}.

(** The body of the loop after the collection gate: a continuation is
    applied when [app_cont] is set, the expression is evaluated
    otherwise. *)
Definition eval_step (fuel : nat) (s : loop_state) : option loop_state :=
  if app_cont (lf s) then
    '(r', w, fl) ← apply_continuation fuel (lw s) (r s) (lf s);
    Some (mk_loop w r' fl (non_gc s))
  else
    '(w, r', fl) ← eval_dispatch fuel (lw s) (r s) (lf s);
    Some (mk_loop w r' fl (non_gc s)).

(** The world after [heap_perform_gc_aux] has run on the roots
    [run_eval] hands over. *)
Definition collect (s : loop_state) : world :=
  let w := lw s in
  set_heap w
    (heap_perform_gc_aux (heap w) (eval_cps_global_env w) (curr_env (ctx w))
                         (curr_exp (ctx w)) (program (ctx w)) (r s)
                         (K (ctx w))).

(** One round of the [while (!done)] loop of [run_eval]. *)
Definition run_eval_iter (fuel : nat) (s : loop_state) : option loop_state :=
  if perform_gc (lf s) then
    if non_gc s =? 0 then
      Some (mk_loop (lw s) (enc_sym symrepr_merror) (set_done (lf s)) (non_gc s))
    else
      eval_step fuel
        (mk_loop (collect s) (r s)
                 (mk_flags (done (lf s)) false (app_cont (lf s))) 0)
  else
    eval_step fuel (mk_loop (lw s) (r s) (lf s) (wrap (non_gc s + 1))).

(** At most [n] rounds of the loop: the state in which [done] is set. *)
Fixpoint run_eval_loop (n fuel : nat) (s : loop_state) : option loop_state :=
  if done (lf s) then Some s
  else
    match n with
    | O => None
    | S n => s' ← run_eval_iter fuel s; run_eval_loop n fuel s'
    end.

(** The state [run_eval] enters its loop with. *)
Definition run_eval_init (w : world) : loop_state :=
  mk_loop (set_K w (push_u32 (K (ctx w)) (enc_u DONE))) NIL
          (mk_flags false false false) 0.

(** [run_eval(ctx)]: the value returned and the world left behind. *)
Definition run_eval (n fuel : nat) (w : world) : option (VALUE * world) :=
  s ← run_eval_loop n fuel (run_eval_init w); Some (r s, lw s).

(** [dec_u] reads back the continuation tags that [enc_u] encodes. *)
Definition tags_decode : Prop :=
  forall k, DONE <= k <= PROGN_REST -> dec_u (enc_u k) = k.

(** The expression at hand is a [lambda] form, one that the tests for
    [quote], [define] and [progn], which come first, do not take. *)
Definition is_lambda_form (w : world) : Prop :=
  let e := curr_exp (ctx w) in
  type_of e = PTR_TYPE_CONS
  /\ type_of (car (heap w) e) = VAL_TYPE_SYMBOL
  /\ dec_sym (car (heap w) e) = symrepr_lambda
  /\ symrepr_lambda <> symrepr_quote
  /\ symrepr_lambda <> symrepr_define
  /\ symrepr_lambda <> symrepr_progn.

(** An allocation of the [lambda] case fails: the copy of the
    environment, or one of the four cells of the closure. *)
Definition closure_allocation_fails (h : Heap) (e env : VALUE) : Prop :=
  match env_copy_shallow h env with
  | (h0, None) => True
  | (h0, Some env_cpy) =>
      let '(h1, env_end) := cons h0 env_cpy NIL in
      let '(h2, body) := cons h1 (car h1 (cdr h1 (cdr h1 e))) env_end in
      let '(h3, params) := cons h2 (car h2 (cdr h2 e)) body in
      let '(h4, closure) := cons h3 (enc_sym symrepr_closure) params in
      type_of env_end = VAL_TYPE_SYMBOL \/ type_of body = VAL_TYPE_SYMBOL
      \/ type_of params = VAL_TYPE_SYMBOL \/ type_of closure = VAL_TYPE_SYMBOL
  end.

(** The step that is about to run in the world [w], with [arg] in [r]
    and [app] in [app_cont], makes an allocation that fails.  There is
    one case for each place where [apply_continuation] and [run_eval]
    test what an allocation gave and ask for a collection: the binding
    of [define], the reversal of the argument list, the local
    environment of a closure, the result of a fundamental operation,
    the cell of [ARG_LIST] and the closure of [lambda].  The loop of
    [let] is not among them: its [continue] does not leave the step.

    Modelled from the spec (section 4.5, application semantics), for
    the fundamental operation: [fundamental.h] is not among the
    sources; a primitive takes its argument vector off the continuation
    stack and leaves a single result word there, so that the stack
    under the result is the stack under the arguments. *)
Inductive allocation_fails (fuel : nat) (w : world) (arg : VALUE) (app : bool)
  : Prop :=
  | fails_define (key : VALUE) (Krest : list VALUE) :
      app = true ->
      K (ctx w) = enc_u SET_GLOBAL_ENV :: key :: Krest ->
      set_global_walk fuel (heap w) (eval_cps_global_env w) key arg
      = Some None ->
      (let keyval := cons (heap w) key arg in
       type_of keyval.2 = VAL_TYPE_SYMBOL
       \/ type_of (cons keyval.1 keyval.2 (eval_cps_global_env w)).2
          = VAL_TYPE_SYMBOL) ->
      allocation_fails fuel w arg app
  | fails_reversal (args : VALUE) (Krest : list VALUE) :
      app = true ->
      K (ctx w) = enc_u FUNCTION_APP :: args :: Krest ->
      reversal_failed (heap w) args ->
      allocation_fails fuel w arg app
  | fails_local_env (args : VALUE) (Krest : list VALUE) :
      app = true ->
      K (ctx w) = enc_u FUNCTION_APP :: args :: Krest ->
      ~ reversal_failed (heap w) args ->
      type_of arg = PTR_TYPE_CONS ->
      (let h1 := (reversed (heap w) args).1 in
       length h1 (car h1 (cdr h1 arg)) = length h1 args
       /\ (env_build_params_args h1 (car h1 (cdr h1 arg))
                                 (reversed (heap w) args).2
                                 (car h1 (cdr h1 (cdr h1 (cdr h1 arg))))).2
          = None) ->
      allocation_fails fuel w arg app
  | fails_fundamental (args : VALUE) (Krest K3 : list VALUE) (nargs : Z)
      (h2 : Heap) (res : VALUE) :
      app = true ->
      K (ctx w) = enc_u FUNCTION_APP :: args :: Krest ->
      ~ reversal_failed (heap w) args ->
      type_of arg = VAL_TYPE_SYMBOL ->
      (let h1 := (reversed (heap w) args).1 in
       push_args fuel h1 Krest args 0 = Some (K3, nargs)
       /\ fundamental_exec h1 (push_u32 K3 (enc_u nargs)) arg
          = (h2, res :: Krest, true)) ->
      type_of res = VAL_TYPE_SYMBOL -> dec_sym res = symrepr_merror ->
      allocation_fails fuel w arg app
  | fails_arg_list (rest acc env : VALUE) (Krest : list VALUE) :
      app = true ->
      K (ctx w) = enc_u ARG_LIST :: rest :: acc :: env :: Krest ->
      type_of (cons (heap w) arg acc).2 = VAL_TYPE_SYMBOL ->
      allocation_fails fuel w arg app
  | fails_lambda :
      app = false ->
      is_lambda_form w ->
      closure_allocation_fails (heap w) (curr_exp (ctx w)) (curr_env (ctx w)) ->
      allocation_fails fuel w arg app.

(** The state a step is run again from after a collection: the context,
    [r] and [app_cont] of [s], the collected heap of [s1], no request
    pending and the counter at zero. *)
Definition restarted (s s1 : loop_state) : loop_state :=
  mk_loop (set_heap (lw s) (heap (collect s1))) (r s)
          (mk_flags false false (app_cont (lf s))) 0.

(** [run_eval] gives up: [done] is set and [r] is the memory error. *)
Definition gives_up (s : loop_state) : loop_state :=
  mk_loop (lw s) (enc_sym symrepr_merror) (set_done (lf s)) (non_gc s).

(** The state in which the arity check of a closure stops [run_eval]:
    the frame is gone, the heap is the one the reversal left, [r] is the
    evaluation error and [done] is set. *)
Definition arity_stop (s : loop_state) (Krest : list VALUE) (h1 : Heap)
  : loop_state :=
  mk_loop (set_heap (set_K (lw s) Krest) h1) (enc_sym symrepr_eerror)
          (mk_flags true (perform_gc (lf s)) false) (non_gc s).

(** [eval_cps_program(lisp)] on the current context: every form of the
    program is evaluated by [run_eval] in its turn, on a stack that is
    cleared first; the value of the last form is returned. *)
Fixpoint eval_forms (forms n fuel : nat) (w : world) (curr res : VALUE)
  : option (VALUE * world) :=
  if is_type curr PTR_TYPE_CONS then
    match forms with
    | O => None
    | S forms =>
        let w := set_K w [] in
        let w := set_env (set_exp w (car (heap w) curr)) NIL in
        '(res, w) ← run_eval n fuel w;
        eval_forms forms n fuel w (cdr (heap w) curr) res
    end
  else Some (res, w).

Definition eval_cps_program (forms n fuel : nat) (w : world) (lisp : VALUE)
  : option (VALUE * world) :=
  let w :=
    mk_world (mk_ctx lisp (curr_exp (ctx w)) (curr_env (ctx w)) (K (ctx w)))
             (heap w) (eval_cps_global_env w) in
  if symrepr_is_error (dec_sym lisp) then Some (lisp, w)
  else eval_forms forms n fuel w lisp NIL.

(** [eval_cps_init]: the world it sets up on the given heap, and its
    result.  The context comes from [malloc]; its [program], [curr_exp]
    and [curr_env] are written by [eval_cps_program] before they are
    read, and stand at [NIL] here. *)
Definition eval_cps_init (h : Heap) : world * bool :=
  let '(h1, nil_entry) := cons h NIL NIL in
  let '(h2, genv) := cons h1 nil_entry NIL in
  (mk_world (mk_ctx NIL NIL NIL []) h2 genv,
   negb (is_type nil_entry VAL_TYPE_SYMBOL || is_type genv VAL_TYPE_SYMBOL)).

End Evaluator.

End EvalCps.

(* ===================================================================== *)
(** ** A runtime for the evaluator, after the specification               *)
(* ===================================================================== *)

(** Modelled from the spec: the translation units behind [Runtime] are
    not among the sources.  This module implements them the way
    sections 3, 4.1 and 7 of the specification describe the value
    layout, the cons heap with its collector and the error symbols, so
    that the evaluator can be run on concrete programs.  It has no
    fundamental operations and no byte code. *)
Module SpecRuntime.
Import EvalCps.

(** Section 3: the low four bits classify a value; the payload lies
    above them. *)
Definition tag_of (v : VALUE) : Z := Z.land v 15.
Definition payload (v : VALUE) : Z := Z.shiftr v 4.
Definition tagged (t x : Z) : VALUE := wrap (Z.lor (Z.shiftl x 4) t).

Definition type_of (v : VALUE) : value_type :=
  match tag_of v with
  | 0 => PTR_TYPE_CONS
  | 1 => PTR_TYPE_BOXED_I
  | 2 => PTR_TYPE_BOXED_U
  | 3 => PTR_TYPE_BOXED_F
  | 4 => PTR_TYPE_ARRAY
  | 5 => PTR_TYPE_STREAM
  | 8 => VAL_TYPE_I
  | 9 => VAL_TYPE_U
  | 10 => VAL_TYPE_CHAR
  | 11 => VAL_TYPE_SYMBOL
  | _ => TYPE_OTHER
  end.

Definition enc_cons_ptr (i : Z) : VALUE := tagged 0 i.
Definition enc_i (x : Z) : VALUE := tagged 8 x.
Definition enc_u (x : Z) : VALUE := tagged 9 x.
Definition dec_u (v : VALUE) : Z := payload v.
Definition enc_sym (x : Z) : VALUE := tagged 11 x.
Definition dec_sym (v : VALUE) : Z := payload v.

(** Section 3 names the built-in symbols, section 7 the error kinds;
    they get consecutive ids in the order they are listed. *)
Definition symrepr_nil : Z := 0.
Definition symrepr_true : Z := 1.
Definition symrepr_quote : Z := 2.
Definition symrepr_define : Z := 3.
Definition symrepr_progn : Z := 4.
Definition symrepr_lambda : Z := 5.
Definition symrepr_if : Z := 6.
Definition symrepr_let : Z := 7.
Definition symrepr_closure : Z := 8.
Definition ERR_TYPE : Z := 9.
Definition ERR_EVAL : Z := 10.
Definition ERR_ARITY : Z := 11.
Definition ERR_UNBOUND : Z := 12.
Definition ERR_OUT_OF_MEMORY : Z := 13.
Definition ERR_GC_PROGRESS : Z := 14.
Definition ERR_STACK_OVERFLOW : Z := 15.
Definition ERR_TIMEOUT : Z := 16.
Definition ERR_FATAL : Z := 17.

(** The three error symbols the sources ask [symrepr.h] for: the type
    error, the evaluation error and the memory error. *)
Definition symrepr_terror : Z := ERR_TYPE.
Definition symrepr_eerror : Z := ERR_EVAL.
Definition symrepr_merror : Z := ERR_OUT_OF_MEMORY.

Definition symrepr_is_error (id : Z) : bool :=
  (ERR_TYPE <=? id) && (id <=? ERR_FATAL).

Definition NIL : VALUE := enc_sym symrepr_nil.

(** Sections 3 and 4.1: a fixed array of two-word cells and a free
    list. *)
Record cons_t := mk_cell { cell_car : VALUE; cell_cdr : VALUE }.
Record heap_state := mk_heap { cells : list cons_t; freelist : list nat }.

Definition ref_cell (h : heap_state) (c : VALUE) : option cons_t :=
  cells h !! Z.to_nat (payload c).

(** Reading a field of anything but a cons cell is a type error. *)
Definition car (h : heap_state) (c : VALUE) : VALUE :=
  if tag_of c =? 0 then
    match ref_cell h c with
    | Some x => cell_car x
    | None => enc_sym symrepr_terror
    end
  else enc_sym symrepr_terror.

Definition cdr (h : heap_state) (c : VALUE) : VALUE :=
  if tag_of c =? 0 then
    match ref_cell h c with
    | Some x => cell_cdr x
    | None => enc_sym symrepr_terror
    end
  else enc_sym symrepr_terror.

(** Section 4.1: allocation pops the head of the free list, writes the
    two words and returns the tagged pointer; on an empty free list it
    yields the out-of-memory symbol. *)
Definition cons (h : heap_state) (a d : VALUE) : heap_state * VALUE :=
  match freelist h with
  | [] => (h, enc_sym symrepr_merror)
  | i :: fl => (mk_heap (<[i := mk_cell a d]> (cells h)) fl,
                enc_cons_ptr (Z.of_nat i))
  end.

Definition set_cdr (h : heap_state) (c v : VALUE) : heap_state :=
  if tag_of c =? 0 then
    match ref_cell h c with
    | Some x =>
        mk_heap (<[Z.to_nat (payload c) := mk_cell (cell_car x) v]> (cells h))
                (freelist h)
    | None => h
    end
  else h.

(** Walks over a list of the heap visit at most as many cells as there
    are, plus the end. *)
Definition walk_fuel (h : heap_state) : nat := S (List.length (cells h)).

Fixpoint reverse_onto (fuel : nat) (h : heap_state) (l acc : VALUE)
  : heap_state * VALUE :=
  match fuel with
  | O => (h, acc)
  | S fuel =>
      if tag_of l =? 0 then
        let '(h1, acc1) := cons h (car h l) acc in
        if tag_of acc1 =? 11 then (h1, acc1)
        else reverse_onto fuel h1 (cdr h1 l) acc1
      else (h, acc)
  end.

(** Section 4.5: the reversal of the argument list allocates, and
    yields the out-of-memory symbol when an allocation fails. *)
Definition reverse (h : heap_state) (l : VALUE) : heap_state * VALUE :=
  reverse_onto (walk_fuel h) h l NIL.

Fixpoint length_from (fuel : nat) (h : heap_state) (l : VALUE) (n : Z) : Z :=
  match fuel with
  | O => n
  | S fuel =>
      if tag_of l =? 0 then length_from fuel h (cdr h l) (wrap (n + 1)) else n
  end.

Definition length (h : heap_state) (l : VALUE) : Z :=
  length_from (walk_fuel h) h l 0.

(** Section 3: an environment is an association list of
    [(symbol . value)] pairs. *)
Fixpoint lookup_from (fuel : nat) (h : heap_state) (sym env : VALUE)
  : option VALUE :=
  match fuel with
  | O => None
  | S fuel =>
      if tag_of env =? 0 then
        if car h (car h env) =? sym then Some (cdr h (car h env))
        else lookup_from fuel h sym (cdr h env)
      else None
  end.

Definition env_lookup (h : heap_state) (sym env : VALUE) : option VALUE :=
  lookup_from (walk_fuel h) h sym env.

Fixpoint copy_spine (fuel : nat) (h : heap_state) (env : VALUE)
  : heap_state * option VALUE :=
  match fuel with
  | O => (h, Some env)
  | S fuel =>
      if tag_of env =? 0 then
        match copy_spine fuel h (cdr h env) with
        | (h1, Some rest) =>
            let '(h2, c) := cons h1 (car h1 env) rest in
            if tag_of c =? 11 then (h2, None) else (h2, Some c)
        | (h1, None) => (h1, None)
        end
      else (h, Some env)
  end.

Definition env_copy_shallow (h : heap_state) (env : VALUE)
  : heap_state * option VALUE :=
  copy_spine (walk_fuel h) h env.

Fixpoint build_from (fuel : nat) (h : heap_state) (params args env : VALUE)
  : heap_state * option VALUE :=
  match fuel with
  | O => (h, Some env)
  | S fuel =>
      if tag_of params =? 0 then
        let '(h1, entry) := cons h (car h params) (car h args) in
        if tag_of entry =? 11 then (h1, None)
        else
          let '(h2, env1) := cons h1 entry env in
          if tag_of env1 =? 11 then (h2, None)
          else build_from fuel h2 (cdr h2 params) (cdr h2 args) env1
      else (h, Some env)
  end.

Definition env_build_params_args (h : heap_state) (params args env : VALUE)
  : heap_state * option VALUE :=
  build_from (walk_fuel h) h params args env.

Fixpoint modify_from (fuel : nat) (h : heap_state) (env key val : VALUE)
  : heap_state :=
  match fuel with
  | O => h
  | S fuel =>
      if tag_of env =? 0 then
        if car h (car h env) =? key then set_cdr h (car h env) val
        else modify_from fuel h (cdr h env) key val
      else h
  end.

Definition env_modify_binding (h : heap_state) (env key val : VALUE)
  : heap_state :=
  modify_from (walk_fuel h) h env key val.

(** Section 4.1, [Collect()]: the cells reachable from the roots are
    marked, every other cell is put on the free list. *)
Fixpoint mark (fuel : nat) (h : heap_state) (work : list VALUE)
    (marks : list bool) : list bool :=
  match fuel, work with
  | S fuel, v :: work =>
      if tag_of v <? 8 then
        match marks !! Z.to_nat (payload v), ref_cell h v with
        | Some false, Some c =>
            let marks := <[Z.to_nat (payload v) := true]> marks in
            if tag_of v =? 0 then
              mark fuel h (cell_car c :: cell_cdr c :: work) marks
            else mark fuel h work marks
        | _, _ => mark fuel h work marks
        end
      else mark fuel h work marks
  | _, _ => marks
  end.

Definition sweep (marks : list bool) : list nat :=
  omap (fun '(i, m) => if m : bool then None else Some i) (imap pair marks).

Definition heap_perform_gc_aux (h : heap_state)
    (global_env curr_env curr_exp program r : VALUE) (stack : list VALUE)
  : heap_state :=
  let n := List.length (cells h) in
  let roots := global_env :: curr_env :: curr_exp :: program :: r :: stack in
  let marks :=
    mark (List.length roots + 3 * n) h roots (replicate n false) in
  mk_heap (cells h) (sweep marks).

#[export] Instance runtime : Runtime heap_state := {|
  EvalCps.type_of := type_of;
  EvalCps.enc_u := enc_u;
  EvalCps.dec_u := dec_u;
  EvalCps.enc_sym := enc_sym;
  EvalCps.dec_sym := dec_sym;
  EvalCps.symrepr_nil := symrepr_nil;
  EvalCps.symrepr_true := symrepr_true;
  EvalCps.symrepr_eerror := symrepr_eerror;
  EvalCps.symrepr_merror := symrepr_merror;
  EvalCps.symrepr_quote := symrepr_quote;
  EvalCps.symrepr_define := symrepr_define;
  EvalCps.symrepr_progn := symrepr_progn;
  EvalCps.symrepr_lambda := symrepr_lambda;
  EvalCps.symrepr_if := symrepr_if;
  EvalCps.symrepr_let := symrepr_let;
  EvalCps.symrepr_closure := symrepr_closure;
  EvalCps.symrepr_is_error := symrepr_is_error;
  EvalCps.car := car;
  EvalCps.cdr := cdr;
  EvalCps.cons := cons;
  EvalCps.set_cdr := set_cdr;
  EvalCps.reverse := reverse;
  EvalCps.length := length;
  EvalCps.env_lookup := env_lookup;
  EvalCps.env_copy_shallow := env_copy_shallow;
  EvalCps.env_build_params_args := env_build_params_args;
  EvalCps.env_modify_binding := env_modify_binding;
  EvalCps.is_fundamental := fun _ => false;
  EvalCps.fundamental_exec := fun h K _ => (h, K, false);
  EvalCps.bytecode_eval := fun h K _ => (h, K, enc_sym symrepr_eerror);
  EvalCps.heap_perform_gc_aux := heap_perform_gc_aux
|}.

(** *** Programs *)

(** What the reader hands to the evaluator: symbols, small integers and
    lists of them, built in the heap with [cons]. *)
#[warnings="-register-all"]
Inductive sexp :=
  | Sym (id : Z)
  | Int (n : Z)
  | Lst (items : list sexp).

Fixpoint load (h : heap_state) (e : sexp) : heap_state * VALUE :=
  match e with
  | Sym id => (h, enc_sym id)
  | Int n => (h, enc_i n)
  | Lst items =>
      (fix load_items (h : heap_state) (items : list sexp) :=
         match items with
         | [] => (h, NIL)
         | e :: items =>
             let '(h1, v) := load h e in
             let '(h2, rest) := load_items h1 items in
             cons h2 v rest
         end) h items
  end.

Definition fresh_heap (n : nat) : heap_state :=
  mk_heap (replicate n (mk_cell 0 0)) (seq 0 n).

(** A session: a heap of [n] cells, [eval_cps_init], the program read
    into the heap, [eval_cps_program]. *)
Definition session (n : nat) (prog : list sexp) : option (VALUE * world) :=
  let '(w, _) := eval_cps_init (fresh_heap n) in
  let '(h, lisp) := load (heap w) (Lst prog) in
  eval_cps_program 100 1000 100 (set_heap w h) lisp.

(** A user symbol. *)
Definition x : sexp := Sym 100.

(** [((lambda (x) x))]: a closure of one parameter applied to no
    argument. *)
Definition no_argument : list sexp :=
  [Lst [Lst [Sym symrepr_lambda; Lst [x]; x]]].

(** [(1 2)]: an application of one operand. *)
Definition one_operand : list sexp := [Lst [Int 1; Int 2]].

(** The state [run_eval] enters its loop with for the first form of the
    program, in the world [session] sets up. *)
Definition first_form (n : nat) (prog : list sexp) : loop_state :=
  let '(w, _) := eval_cps_init (fresh_heap n) in
  let '(h, lisp) := load (heap w) (Lst prog) in
  run_eval_init
    (mk_world (mk_ctx lisp (car h lisp) NIL []) h (eval_cps_global_env w)).

(** The state after [k] rounds of the loop (or the last state that has
    a successor). *)
Fixpoint rounds (k : nat) (s : loop_state) : loop_state :=
  match k with
  | O => s
  | S k =>
      match run_eval_iter 1000 s with
      | Some s' => rounds k s'
      | None => s
      end
  end.

(** [(1 2)] on a heap of six cells, of which one is free once the
    program is read.  After five rounds the operand has been evaluated
    and consed to the argument list, which took the last cell, and the
    [FUNCTION_APP] frame is about to be applied to the value of [1]. *)
Definition before_reversal : loop_state := rounds 5 (first_form 6 one_operand).
Definition after_reversal : loop_state := rounds 6 (first_form 6 one_operand).
Definition after_retry : loop_state := rounds 7 (first_form 6 one_operand).

(** [((lambda (x) x))] on a heap of sixteen cells, after three rounds:
    the closure has been built and the [FUNCTION_APP] frame is about to
    be applied to it. *)
Definition before_application : loop_state :=
  rounds 3 (first_form 16 no_argument).

End SpecRuntime.

(* ===================================================================== *)
(** ** Runs of writes to the constant heap                                *)
(* ===================================================================== *)

Module ConstHeapMore.
Import ConstHeap.

(** The indices of a run are those of an [lbm_uint], and no word of the
    run is the erased word. *)
Definition plain_writes (ws : list (Z * Z)) : Prop :=
  Forall (fun iw => 0 <= iw.1 /\ iw.2 <> ERASED) ws.

End ConstHeapMore.

(* ===================================================================== *)
(** ** The rest of the pool: its destruction, and well-formed blocks      *)
(* ===================================================================== *)

Module DefragMemMore.
Import DefragMem.

(** The search of [lbm_defrag_mem_alloc] on a pool: whether a place was
    found, and [free_start]. *)
Definition alloc_place (p : defrag_mem_t) (bytes : Z) : option (bool * Z) :=
  alloc_scan (S (Z.to_nat (DEFRAG_MEM_SIZE p))) p (DEFRAG_MEM_SIZE p)
             (wrap (bs2ws bytes + 3)) INIT 0 0 0.

(** The block is laid out as [lbm_defrag_mem_create] allocates it: the
    size word counts the data words that follow the header, and the
    block lies within the 32-bit address space. *)
Definition block_ok (p : defrag_mem_t) : Prop :=
  0 <= DEFRAG_MEM_SIZE p
  /\ length (pool_words p) = Z.to_nat (DEFRAG_MEM_HEADER_SIZE + DEFRAG_MEM_SIZE p)
  /\ 0 <= pool_addr p
  /\ pool_addr p
     + sizeof_lbm_uint * (DEFRAG_MEM_HEADER_SIZE + DEFRAG_MEM_SIZE p) <= 2 ^ 32.

(** The free list names cells of the heap, and their indices fit the
    28 payload bits of a pointer. *)
Definition heap_ok (hs : lbm_heap_state_t) : Prop :=
  Forall (fun i => (i < length (heap hs))%nat /\ Z.of_nat i < 2 ^ 28) (freelist hs).

(** Every word of the block is a 32-bit word. *)
Definition words_ok (p : defrag_mem_t) : Prop :=
  Forall (fun w => 0 <= w < 2 ^ 32) (pool_words p).




(** The cell [free_defrag_allocation] leaves behind. *)
Definition nil_cell : lbm_cons_t := mk_cons ENC_SYM_NIL ENC_SYM_NIL.

(** Records laid end to end from index [i] up to index [k]. *)
Inductive chain (p : defrag_mem_t) : Z -> Z -> Prop :=
  | chain_end i : chain p i i
  | chain_step i k :
      mem_data p i <> 0 ->
      chain p (i + (bs2ws (mem_data p i) + 3)) k ->
      chain p i k.

(** The pool has no hole before a record: its records lie end to end
    from the start, and every word behind them is zero. *)
Definition packed (p : defrag_mem_t) (k : Z) : Prop :=
  chain p 0 k /\ forall j, k <= j -> mem_data p j = 0.

#[global] Instance block_ok_dec (p : defrag_mem_t) : Decision (block_ok p).
Proof. unfold block_ok. apply _. Defined.

#[global] Instance words_ok_dec (p : defrag_mem_t) : Decision (words_ok p).
Proof. unfold words_ok. apply _. Defined.

#[global] Instance heap_ok_dec (hs : lbm_heap_state_t) : Decision (heap_ok hs).
Proof. unfold heap_ok. apply _. Defined.

(** *** Pools to run the operations on *)

(** A pool of 24 words at address [0x20001000], as
    [lbm_defrag_mem_create] initialises it. *)
Definition sample_pool : defrag_mem_t := created_block 0x20001000 24.

(** The outcome of an allocation. *)
Definition alloc_out (p : defrag_mem_t) (hs : lbm_heap_state_t) (bytes : Z)
  : defrag_mem_t * lbm_heap_state_t * Z :=
  default (p, hs, ENC_SYM_MERROR) (lbm_defrag_mem_alloc p hs bytes).

(** One array of 16 bytes in the sample pool. *)
Definition one_array : defrag_mem_t * lbm_heap_state_t * Z :=
  alloc_out sample_pool empty_heap 16.

(** A request the sample pool has no room for. *)
Definition too_large : defrag_mem_t * lbm_heap_state_t * Z :=
  alloc_out sample_pool empty_heap 200.



End DefragMemMore.

(* ===================================================================== *)
(** ** Forms and programs the evaluator is run on                         *)
(* ===================================================================== *)

Module EvalCpsMore.
Import EvalCps.

Section More.
Context {Heap : Type} `{!Runtime Heap}.

(** The expressions [run_eval] returns as they are: the cases
    [PTR_TYPE_BOXED_F] to [PTR_TYPE_ARRAY] of its [switch]. *)
Definition self_evaluating (e : VALUE) : bool :=
  match type_of e with
  | PTR_TYPE_BOXED_F | PTR_TYPE_BOXED_U | PTR_TYPE_BOXED_I
  | VAL_TYPE_I | VAL_TYPE_U | VAL_TYPE_CHAR | PTR_TYPE_ARRAY => true
  | _ => false
  end.

(** The expression is a list whose head is the symbol [s]. *)
Definition special_form (h : Heap) (e : VALUE) (s : Z) : Prop :=
  type_of e = PTR_TYPE_CONS
  /\ type_of (car h e) = VAL_TYPE_SYMBOL
  /\ dec_sym (car h e) = s.

(** [dec_u] reads back the continuation tags that [enc_u] encodes. *)
Definition tag_decodes (k : Z) : Prop := dec_u (enc_u k) = k.

(** The symbols of the special forms are pairwise distinct. *)
Definition special_ids_distinct : Prop :=
  NoDup [symrepr_quote; symrepr_define; symrepr_progn; symrepr_lambda;
         symrepr_if; symrepr_let].

(** The test that ends the walk over the forms of a [progn]. *)
Definition is_nil (v : VALUE) : bool :=
  is_type v VAL_TYPE_SYMBOL && (v =? NIL).

(** The forms [xs] that [progn] evaluates in turn from the list [v]: the
    walk goes on until [v] is [NIL], and stops with an error at a [v]
    that [symrepr_is_error] accepts. *)
Inductive progn_forms (h : Heap) : VALUE -> list VALUE -> Prop :=
  | progn_forms_nil v : is_nil v = true -> progn_forms h v []
  | progn_forms_cons v xs :
      is_nil v = false -> symrepr_is_error v = false ->
      progn_forms h (cdr h v) xs ->
      progn_forms h v (car h v :: xs).

(** The forms [xs] of a program [v], as [eval_cps_program] walks it:
    until [v] is no [cons] cell. *)
Inductive program_forms (h : Heap) : VALUE -> list VALUE -> Prop :=
  | program_forms_nil v : type_of v <> PTR_TYPE_CONS -> program_forms h v []
  | program_forms_cons v xs :
      type_of v = PTR_TYPE_CONS ->
      program_forms h (cdr h v) xs ->
      program_forms h v (car h v :: xs).

(** The heap has no cell left: [cons] fails and leaves it as it is. *)
Definition exhausted (h : Heap) : Prop :=
  forall a d, (cons h a d).1 = h /\ type_of (cons h a d).2 = VAL_TYPE_SYMBOL.

End More.
End EvalCpsMore.

(** Worlds of the runtime of [SpecRuntime] for a few programs. *)
Module SpecSamples.
Import EvalCps.

#[local] Existing Instance SpecRuntime.runtime.

(** The world in which [eval_cps_program] hands the first form of a
    program to [run_eval], on a heap of [n] cells. *)
Definition form_world (n : nat) (prog : list SpecRuntime.sexp) : world :=
  let '(w, _) := eval_cps_init (SpecRuntime.fresh_heap n) in
  let '(h, lisp) := SpecRuntime.load (heap w) (SpecRuntime.Lst prog) in
  mk_world (mk_ctx lisp (car h lisp) (NIL (Heap := SpecRuntime.heap_state)) [])
           h (eval_cps_global_env w).

(** The world in which it hands over the second form, once the first
    has been evaluated. *)
Definition second_form_world (n : nat) (prog : list SpecRuntime.sexp) : world :=
  let w := form_world n prog in
  match run_eval 100 1000 w with
  | Some (_, w1) =>
      let w2 := set_K w1 [] in
      set_env (set_exp w2 (car (heap w2) (cdr (heap w2) (program (ctx w2)))))
              (NIL (Heap := SpecRuntime.heap_state))
  | None => w
  end.

Definition number : list SpecRuntime.sexp := [SpecRuntime.Int 7].

Definition quoted : list SpecRuntime.sexp :=
  [SpecRuntime.Lst [SpecRuntime.Sym SpecRuntime.symrepr_quote; SpecRuntime.x]].

Definition unbound : list SpecRuntime.sexp := [SpecRuntime.x].

(** [(if 0 1 2)] *)
Definition if_number : list SpecRuntime.sexp :=
  [SpecRuntime.Lst [SpecRuntime.Sym SpecRuntime.symrepr_if;
                    SpecRuntime.Int 0; SpecRuntime.Int 1; SpecRuntime.Int 2]].

(** [(progn 1 2)] *)
Definition progn_two : list SpecRuntime.sexp :=
  [SpecRuntime.Lst [SpecRuntime.Sym SpecRuntime.symrepr_progn;
                    SpecRuntime.Int 1; SpecRuntime.Int 2]].

(** [(define x 5) (define x 6)] *)
Definition define_twice : list SpecRuntime.sexp :=
  [SpecRuntime.Lst [SpecRuntime.Sym SpecRuntime.symrepr_define;
                    SpecRuntime.x; SpecRuntime.Int 5];
   SpecRuntime.Lst [SpecRuntime.Sym SpecRuntime.symrepr_define;
                    SpecRuntime.x; SpecRuntime.Int 6]].

(** The worlds of the first and of the second [define], on a heap of
    sixteen cells. *)
Definition define_world : world := form_world 16 define_twice.
Definition redefine_world : world := second_form_world 16 define_twice.

(** The heap in which the second [define] has overwritten the value. *)
Definition rebound_heap : SpecRuntime.heap_state :=
  let w := redefine_world in
  let h := heap w in
  let e := curr_exp (ctx w) in
  match set_global_walk 1000 h (eval_cps_global_env w) (car h (cdr h e))
                        (car h (cdr h (cdr h e))) with
  | Some (Some h') => h'
  | _ => h
  end.

(** [(let ((x 1)) x)], read into a heap of nine cells, which it fills. *)
Definition let_one : list SpecRuntime.sexp :=
  [SpecRuntime.Lst [SpecRuntime.Sym SpecRuntime.symrepr_let;
                    SpecRuntime.Lst [SpecRuntime.Lst [SpecRuntime.x;
                                                      SpecRuntime.Int 1]];
                    SpecRuntime.x]].

(** The world of that [let]. *)
Definition let_world : world := form_world 9 let_one.

Definition two_numbers : list SpecRuntime.sexp :=
  [SpecRuntime.Int 1; SpecRuntime.Int 2].

(** The loop of [run_eval] on [(define x 5)] after two rounds, when the
    value has been evaluated and the [SET_GLOBAL_ENV] frame is on top,
    and after three. *)
Definition before_binding : loop_state :=
  SpecRuntime.rounds 2 (run_eval_init define_world).
Definition after_binding : loop_state :=
  SpecRuntime.rounds 3 (run_eval_init define_world).

End SpecSamples.

(* ===================================================================== *)
(** * Properties                                                          *)
(* ===================================================================== *)

(** ** Constant heap: write-once slots *)

Module ConstHeapFacts.
Import ConstHeap.

Lemma slot_insert_eq (mem : list Z) (ix w : Z) :
  (Z.to_nat ix < length mem)%nat -> slot (<[Z.to_nat ix := w]> mem) ix = w.
Proof.
  intros Hlt. unfold slot. by rewrite list_lookup_insert_eq.
Qed.

Lemma const_heap_write_fresh (mem : list Z) (ix w : Z) :
  ix < CONSTANT_MEMORY_SIZE -> slot mem ix = ERASED ->
  const_heap_write mem ix w = (true, <[Z.to_nat ix := w]> mem).
Proof.
  intros Hix Hs. unfold const_heap_write.
  destruct (Z.leb_spec CONSTANT_MEMORY_SIZE ix) as [Hle|_]; [lia|].
  rewrite Hs. reflexivity.
Qed.

(** A successful write of [w] leaves [w] in the slot. *)
Lemma const_heap_write_stores (mem mem1 : list Z) (ix w : Z) :
  0 <= ix -> length mem = Z.to_nat CONSTANT_MEMORY_SIZE ->
  const_heap_write mem ix w = (true, mem1) ->
  slot mem1 ix = w /\ length mem1 = length mem.
Proof.
  intros Hnn Hlen. unfold const_heap_write.
  destruct (Z.leb_spec CONSTANT_MEMORY_SIZE ix) as [Hle|Hlt]; [discriminate|].
  destruct (Z.eqb_spec (slot mem ix) 0xffffffff) as [He|Hne].
  - intros [= <-]. split; [|apply length_insert].
    apply slot_insert_eq. rewrite Hlen. lia.
  - destruct (Z.eqb_spec (slot mem ix) w) as [Hw|Hw]; [|discriminate].
    intros [= <-]. done.
Qed.

(** A write succeeds exactly when the slot is erased or already holds the
    word. *)
Lemma const_heap_write_true_iff (mem : list Z) (ix w : Z) :
  ix < CONSTANT_MEMORY_SIZE ->
  fst (const_heap_write mem ix w) = true <->
  slot mem ix = ERASED \/ slot mem ix = w.
Proof.
  intros Hix. unfold const_heap_write, ERASED.
  destruct (Z.leb_spec CONSTANT_MEMORY_SIZE ix) as [Hle|_]; [lia|].
  destruct (Z.eqb_spec (slot mem ix) 0xffffffff) as [He|Hne]; simpl.
  - split; auto.
  - destruct (Z.eqb_spec (slot mem ix) w) as [Hw|Hw]; simpl.
    + split; auto.
    + split; [discriminate|]. intros [?|?]; contradiction.
Qed.

(** A call that returns [false] has left the array as it was. *)
Lemma const_heap_write_rejected (mem mem1 : list Z) (ix w : Z) :
  const_heap_write mem ix w = (false, mem1) -> mem1 = mem.
Proof.
  unfold const_heap_write. repeat case_match; congruence.
Qed.

(** One call, accepted or rejected, to this index or to another, leaves
    alone a slot that holds a word other than the erased word. *)
Lemma const_heap_write_keeps (mem : list Z) (ix ix' w : Z) :
  0 <= ix -> 0 <= ix' -> slot mem ix <> ERASED ->
  slot (const_heap_write mem ix' w).2 ix = slot mem ix.
Proof.
  intros H1 H2 Hs. unfold const_heap_write.
  destruct (CONSTANT_MEMORY_SIZE <=? ix'); [done|].
  destruct (Z.eqb_spec (slot mem ix') 0xffffffff) as [He|Hne]; simpl.
  - destruct (Z.eq_dec ix ix') as [->|Hd]; [done|].
    unfold slot. rewrite list_lookup_insert_ne; [done|lia].
  - by destruct (slot mem ix' =? w).
Qed.

(** So does a run of calls. *)
Lemma const_heap_writes_keeps (ws : list (Z * Z)) (mem : list Z) (ix : Z) :
  0 <= ix -> unsigned_indices ws ->
  slot mem ix <> ERASED ->
  slot (const_heap_writes mem ws).2 ix = slot mem ix.
Proof.
  intros Hix Hws. revert mem. induction Hws as [|[ix' w] ws Hw Hws IH];
    intros mem Hs; [done|].
  cbn [const_heap_writes].
  pose proof (const_heap_write_keeps mem ix ix' w Hix Hw Hs) as Hk.
  destruct (const_heap_write mem ix' w) as [ok mem1]. cbn [snd] in Hk.
  specialize (IH mem1 ltac:(congruence)).
  destruct (const_heap_writes mem1 ws) as [oks mem2]. cbn [snd] in *.
  congruence.
Qed.

(** C1 (as amended).  For every index below [CONSTANT_MEMORY_SIZE]: a
    write to a slot holding the erased word [0xffffffff] succeeds and
    stores the word; and once a word [v] other than [0xffffffff] has been
    written successfully, the slot holds [v] after any run of further
    calls of [const_heap_write], to this or to other indices, accepted
    or rejected, and a write of [v'] to the slot after that run succeeds
    if and only if [v' = v]. *)
Theorem const_heap_write_once (mem : list Z) (ix v : Z) :
  0 <= ix < CONSTANT_MEMORY_SIZE ->
  length mem = Z.to_nat CONSTANT_MEMORY_SIZE ->
  (slot mem ix = ERASED ->
   const_heap_write mem ix v = (true, <[Z.to_nat ix := v]> mem))
  /\ (v <> ERASED -> write_once_at mem ix v).
Proof.
  intros [Hnn Hlt] Hlen. split.
  - intros Hs. by apply const_heap_write_fresh.
  - intros Hv mem1 Hw ws Hws mem2.
    destruct (const_heap_write_stores mem mem1 ix v Hnn Hlen Hw) as [Hs _].
    assert (Hs2 : slot mem2 ix = v).
    { unfold mem2. rewrite const_heap_writes_keeps; [done|done|done|].
      by rewrite Hs. }
    split; [done|]. intros v'.
    rewrite const_heap_write_true_iff by done. rewrite Hs2.
    split; [intros [?|?]; congruence | auto].
Qed.

Lemma const_heap_write_once_witness :
  (slot erased_memory 5 = ERASED ->
   const_heap_write erased_memory 5 42
   = (true, <[Z.to_nat 5 := 42]> erased_memory))
  /\ (42 <> ERASED -> write_once_at erased_memory 5 42).
Proof.
  apply (const_heap_write_once erased_memory 5 42).
  - unfold CONSTANT_MEMORY_SIZE. lia.
  - unfold erased_memory. apply length_replicate.
Defined.

(** C1 as stated fails when the word written is the erased word itself:
    the slot still reads as never written, so a different word is
    accepted afterwards. *)
Lemma const_heap_write_erased_word_not_once :
  ~ write_once_at erased_memory 0 ERASED.
Proof.
  intros H.
  assert (Hlen : (Z.to_nat 0 < length erased_memory)%nat).
  { unfold erased_memory. rewrite length_replicate.
    unfold CONSTANT_MEMORY_SIZE. lia. }
  assert (Hs : slot erased_memory 0 = ERASED).
  { unfold slot, erased_memory. rewrite lookup_replicate_2; [done|].
    unfold CONSTANT_MEMORY_SIZE. lia. }
  assert (Hix : 0 < CONSTANT_MEMORY_SIZE) by (unfold CONSTANT_MEMORY_SIZE; lia).
  destruct (H _ (const_heap_write_fresh erased_memory 0 ERASED Hix Hs) []
              ltac:(constructor)) as [_ Hiff].
  cbn [const_heap_writes snd] in Hiff.
  assert (Hs1 : slot (<[Z.to_nat 0 := ERASED]> erased_memory) 0 = ERASED)
    by (by apply slot_insert_eq).
  pose proof (const_heap_write_fresh _ 0 0 Hix Hs1) as Hw.
  specialize (Hiff 0). rewrite Hw in Hiff. cbn [fst] in Hiff.
  destruct Hiff as [Hiff _]. specialize (Hiff eq_refl).
  unfold ERASED in Hiff. discriminate Hiff.
Qed.

End ConstHeapFacts.

(** ** Defragmenting pool: the back-pointer link *)

Module DefragMemFacts.
Import DefragMem.

Lemma rd_inserts_replicate0 (ws : list Z) (k n j : nat) :
  (k <= j < k + n)%nat -> (j < length ws)%nat ->
  rd (list_inserts k (replicate n 0) ws) (Z.of_nat j) = 0.
Proof.
  intros Hj Hlen. unfold rd. rewrite Nat2Z.id.
  rewrite list_lookup_inserts by (rewrite ?length_replicate; lia).
  rewrite lookup_replicate_2 by lia. reflexivity.
Qed.

(** The relocating branch of [lbm_defrag_mem_defrag] clears
    [move_dist] words from [clear_ix = i - move_dist], which is
    [hole_start], the place the record has just been moved to: whenever a
    record is moved, the size word of its copy is zero afterwards. *)
Lemma relocation_clears_size_word (p : defrag_mem_t) (i hole_start n : Z) :
  0 <= hole_start < i -> i < 2 ^ 32 ->
  (Z.to_nat (DEFRAG_MEM_HEADER_SIZE + hole_start) < length (pool_words p))%nat ->
  let move_dist := wrap (i - hole_start) in
  let clear_ix := wrap (i - move_dist) in
  mem_data (memset0 (memmove p hole_start i n) clear_ix move_dist) hole_start = 0.
Proof.
  intros Hh Hi Hlen move_dist clear_ix.
  assert (Hmd : move_dist = i - hole_start).
  { unfold move_dist, wrap. apply Z.mod_small. lia. }
  assert (Hci : clear_ix = hole_start).
  { unfold clear_ix, wrap. rewrite Hmd. replace (i - (i - hole_start)) with hole_start by lia.
    apply Z.mod_small. lia. }
  rewrite Hci, Hmd. unfold mem_data, memset0, memmove. simpl.
  rewrite <- (Z2Nat.id (DEFRAG_MEM_HEADER_SIZE + hole_start))
    by (unfold DEFRAG_MEM_HEADER_SIZE; lia).
  rewrite Nat2Z.id.
  apply rd_inserts_replicate0; [lia|].
  by rewrite length_inserts.
Qed.

(** What compaction does to the words of the pool does not depend on
    the cons heap. *)
Lemma defrag_loop_words (fuel : nat) (p : defrag_mem_t)
    (hs1 hs2 : lbm_heap_state_t) (mem_size i hole_start : Z) :
  fst <$> defrag_loop fuel p hs1 mem_size i hole_start
  = fst <$> defrag_loop fuel p hs2 mem_size i hole_start.
Proof.
  revert p hs1 hs2 i hole_start.
  induction fuel as [|fuel IH]; intros p hs1 hs2 i hole_start; simpl.
  - by destruct (i <? mem_size).
  - destruct (i <? mem_size); [|done].
    destruct (negb (mem_data p i =? 0)); [|apply IH].
    destruct (hole_start =? i); apply IH.
Qed.

(** C2, the code at a failing input.  In [fragmented_pool] the records
    lie at the data indices 0, 7 and 12, every one of them linked back
    from its cell, and the compaction flag is set.  Compaction moves the
    third record (16 bytes, cell 3) down by one word and then zeroes the
    word it was moved to: the size word at index 11 is 0, the walk of the
    pool takes the stale data pointer at index 12 for a record, and the
    back-pointer link no longer holds.  The allocation of 12 bytes that
    triggers this compaction succeeds, with its record at index 17,
    which is one of the data words 14 to 17 of the third array; the link
    does not hold after it. *)
Theorem defrag_breaks_back_pointers :
  exists p hs p' hs' p2 hs2 res,
    fragmented_pool = Some (p, hs)
    /\ DEFRAG_MEM_FLAGS p = 1
    /\ records p = [0; 7; 12]
    /\ (mem_data p 12 = 16 /\ mem_data p 14 = 3)
    /\ back_pointers_ok p hs = true
    /\ lbm_defrag_mem_defrag p hs = Some (p', hs')
    /\ (mem_data p' 11 = 0 /\ mem_data p' 13 = 3)
    /\ records p' = [0; 7; 12]
    /\ linked_back p' hs' 12 = false
    /\ back_pointers_ok p' hs' = false
    /\ lbm_defrag_mem_alloc p hs 12 = Some (p2, hs2, res)
    /\ (lbm_is_symbol res = false /\ lbm_type_of res = LBM_TYPE_ARRAY)
    /\ mem_data p2 17 = 12
    /\ back_pointers_ok p2 hs2 = false.
Proof.
  eexists _, _, _, _, _, _, _.
  split; [vm_compute; reflexivity|].
  split; [vm_compute; reflexivity|].
  split; [vm_compute; reflexivity|].
  split; [split; vm_compute; reflexivity|].
  split; [vm_compute; reflexivity|].
  split; [vm_compute; reflexivity|].
  split; [split; vm_compute; reflexivity|].
  split; [vm_compute; reflexivity|].
  split; [vm_compute; reflexivity|].
  split; [vm_compute; reflexivity|].
  split; [vm_compute; reflexivity|].
  split; [split; vm_compute; reflexivity|].
  split; vm_compute; reflexivity.
Qed.

(** Scenario S6 of the specification.  The second allocation of 24
    bytes runs the compaction, which would free nine words behind the
    third array; the copy of the third array is zeroed as soon as it is
    made, the array stays at index 14, and the allocation fails again. *)
Lemma three_arrays_not_compacted :
  exists p hs p2 hs2,
    three_arrays = Some (p, hs)
    /\ DEFRAG_MEM_FLAGS p = 1
    /\ records p = [0; 14]
    /\ lbm_defrag_mem_alloc p hs 24 = Some (p2, hs2, ENC_SYM_MERROR)
    /\ records p2 = [0; 14].
Proof.
  eexists _, _, _, _.
  split; [vm_compute; reflexivity|].
  split; [vm_compute; reflexivity|].
  split; [vm_compute; reflexivity|].
  split; vm_compute; reflexivity.
Qed.

End DefragMemFacts.

(** ** Evaluator: running out of memory, and the arity of closures *)

Module EvalCpsFacts.
Import EvalCps.

Section Facts.
Context {Heap : Type} `{!Runtime Heap}.

Lemma is_type_true v t : is_type v t = true <-> type_of v = t.
Proof. unfold is_type. apply bool_decide_eq_true. Qed.

Ltac inv_pop :=
  repeat match goal with
  | Hp : pop_u32 ?l = Some _ |- _ =>
      destruct l; simpl in Hp; simplify_eq
  | Hp : pop_u32_2 ?l = Some _ |- _ =>
      destruct l as [|? [|? ?]]; simpl in Hp; simplify_eq
  | Hp : pop_u32_3 ?l = Some _ |- _ =>
      destruct l as [|? [|? [|? ?]]]; simpl in Hp; simplify_eq
  | Hz : (_ =? _) = true |- _ => apply Z.eqb_eq in Hz
  end.

Ltac split_cases :=
  repeat (case_match; simplify_option_eq; simpl in *; try congruence).

(** The first lines of the [FUNCTION_APP] case: when the reversal of
    the argument list fails, the frame is pushed back, so that the stack
    is the one the step started with, a collection is asked for, and the
    function is handed back for the step to be applied again. *)
Lemma function_app_reversal_failure fuel w fun_ fl args Krest :
  K (ctx w) = enc_u FUNCTION_APP :: args :: Krest ->
  dec_u (enc_u FUNCTION_APP) = FUNCTION_APP ->
  reversal_failed (heap w) args ->
  apply_continuation fuel w fun_ fl
  = Some (fun_, set_heap w (reversed (heap w) args).1,
          mk_flags (done fl) true true).
Proof.
  intros HK Hk [Hc Hs].
  destruct w as [[p e env Kw] h genv]. simpl in *. subst Kw.
  unfold apply_continuation. simpl. rewrite Hk. simpl.
  destruct (reversed h args) as [h1 args_rev]. simpl in *.
  apply is_type_true in Hc, Hs. rewrite Hc, Hs. reflexivity.
Qed.

(** The end of the closure case: when the local environment cannot be
    built, the frame is pushed back in the same way. *)
Lemma function_app_env_failure fuel w fun_ fl args Krest :
  K (ctx w) = enc_u FUNCTION_APP :: args :: Krest ->
  dec_u (enc_u FUNCTION_APP) = FUNCTION_APP ->
  ~ reversal_failed (heap w) args ->
  type_of fun_ = PTR_TYPE_CONS ->
  let h1 := (reversed (heap w) args).1 in
  let built :=
    env_build_params_args h1 (car h1 (cdr h1 fun_)) (reversed (heap w) args).2
                          (car h1 (cdr h1 (cdr h1 (cdr h1 fun_)))) in
  length h1 (car h1 (cdr h1 fun_)) = length h1 args ->
  built.2 = None ->
  apply_continuation fuel w fun_ fl
  = Some (fun_, set_heap w built.1, mk_flags (done fl) true true).
Proof.
  intros HK Hk Hrev Ht h1 built Hlen Hb.
  destruct w as [[p e env Kw] h genv]. simpl in *. subst Kw.
  unfold apply_continuation. simpl. rewrite Hk. simpl.
  subst built h1. unfold reversal_failed in Hrev.
  destruct (reversed h args) as [h1 args_rev]. simpl in *.
  destruct (is_type args PTR_TYPE_CONS && is_type args_rev VAL_TYPE_SYMBOL) eqn:Ef.
  { exfalso. apply Hrev. apply andb_true_iff in Ef as [E1 E2].
    by rewrite !is_type_true in *. }
  apply is_type_true in Ht. rewrite Ht.
  apply Z.eqb_eq in Hlen. rewrite Hlen. simpl.
  destruct (env_build_params_args _ _ _ _) as [h2 [local_env|]];
    simpl in *; [discriminate|reflexivity].
Qed.

Lemma eval_step_non_gc fuel s s' :
  eval_step fuel s = Some s' -> non_gc s' = non_gc s.
Proof.
  unfold eval_step. intros Hs. split_cases.
Qed.


Lemma run_eval_loop_done n fuel s :
  done (lf s) = true -> run_eval_loop n fuel s = Some s.
Proof. intros Hd. destruct n; simpl; by rewrite Hd. Qed.

Lemma run_eval_loop_step n fuel s s' :
  done (lf s) = false -> run_eval_iter fuel s = Some s' ->
  run_eval_loop (S n) fuel s = run_eval_loop n fuel s'.
Proof. intros Hd Hi. simpl. by rewrite Hd, Hi. Qed.

Lemma tag_decoded (k : Z) :
  tags_decode -> DONE <= k <= PROGN_REST -> dec_u (enc_u k) = k.
Proof. intros Ht Hk. by apply Ht. Qed.

Lemma is_type_false v t : type_of v <> t -> is_type v t = false.
Proof. intros Hne. unfold is_type. by apply bool_decide_eq_false. Qed.

Lemma not_reversal_failed h args :
  ~ reversal_failed h args ->
  is_type args PTR_TYPE_CONS && is_type (reversed h args).2 VAL_TYPE_SYMBOL
  = false.
Proof.
  intros Hn. apply not_true_is_false. intros Ht.
  apply andb_true_iff in Ht as [H1 H2]. apply Hn.
  split; by apply is_type_true.
Qed.

(** A continuation whose allocation fails hands back the value it was
    given, with the frame it popped back on the stack and a collection
    asked for; nothing but the heap has changed. *)
Lemma apply_continuation_allocation_fails fuel w arg d :
  tags_decode ->
  allocation_fails fuel w arg true ->
  exists h',
    apply_continuation fuel w arg (mk_flags d false true)
    = Some (arg, set_heap w h', mk_flags d true true).
Proof.
  intros Ht Hf.
  destruct w as [[p e env Kw] h genv].
  destruct Hf as [key Krest _ HK Hwalk Hc
                 |args Krest _ HK Hrev
                 |args Krest _ HK Hrev Hty Hb
                 |args Krest K3 nargs h2 res _ HK Hrev Hty Hb Hres Hm
                 |rest acc env0 Krest _ HK Hc
                 |Hfalse _ _]; [..|discriminate Hfalse];
    simpl in HK; subst Kw.
  - unfold apply_continuation. simpl.
    rewrite (tag_decoded SET_GLOBAL_ENV Ht) by (unfold DONE, SET_GLOBAL_ENV, PROGN_REST; lia).
    simpl. unfold cont_set_global_env. simpl in *. rewrite Hwalk. simpl.
    destruct (cons h key arg) as [h1 keyval]. simpl in Hc.
    destruct (decide (type_of keyval = VAL_TYPE_SYMBOL)) as [Hk|Hk].
    + rewrite (proj2 (is_type_true _ _) Hk). simpl. by exists h1.
    + rewrite (is_type_false _ _ Hk).
      destruct Hc as [Hc|Hc]; [done|].
      destruct (cons h1 keyval genv) as [h2 tmp]. simpl in Hc.
      rewrite (proj2 (is_type_true _ _) Hc). simpl. by exists h2.
  - rewrite (function_app_reversal_failure fuel _ arg _ args Krest);
      [|done|by apply tag_decoded; [|unfold DONE, FUNCTION_APP, PROGN_REST; lia]|done].
    by eexists.
  - destruct Hb as [Hlen Hnone].
    rewrite (function_app_env_failure fuel _ arg _ args Krest);
      [|done|by apply tag_decoded; [|unfold DONE, FUNCTION_APP, PROGN_REST; lia]
       |done|done|done|done].
    by eexists.
  - destruct Hb as [Hpush Hexec]. simpl in Hrev, Hpush, Hexec.
    unfold apply_continuation. simpl.
    rewrite (tag_decoded FUNCTION_APP Ht) by (unfold DONE, FUNCTION_APP, PROGN_REST; lia).
    simpl. pose proof (not_reversal_failed _ _ Hrev) as Hnr.
    destruct (reversed h args) as [h1 args_rev]. simpl in *. rewrite Hnr.
    rewrite (is_type_false arg PTR_TYPE_CONS) by congruence.
    rewrite (is_type_false arg PTR_TYPE_BYTECODE) by congruence.
    rewrite (proj2 (is_type_true _ _) Hty).
    rewrite Hpush. simpl. rewrite Hexec. simpl.
    rewrite (proj2 (is_type_true _ _) Hres), Hm, Z.eqb_refl. simpl.
    by exists h2.
  - unfold apply_continuation. simpl.
    rewrite (tag_decoded ARG_LIST Ht) by (unfold DONE, ARG_LIST, PROGN_REST; lia).
    simpl in *. destruct (cons h arg acc) as [h1 acc_]. simpl in Hc.
    rewrite (proj2 (is_type_true _ _) Hc). simpl. by exists h1.
Qed.

(** The evaluation of a [lambda] whose allocation fails asks for a
    collection and leaves everything but the heap as it was. *)
Lemma eval_dispatch_allocation_fails fuel w arg d :
  allocation_fails fuel w arg false ->
  exists h',
    eval_dispatch fuel w arg (mk_flags d false false)
    = Some (set_heap w h', arg, mk_flags d true false).
Proof.
  intros Hf.
  destruct Hf as [? ? Hfalse|? ? Hfalse|? ? Hfalse|? ? ? ? ? ? Hfalse
                 |? ? ? ? Hfalse|_ Hl Hc]; try discriminate Hfalse.
  destruct w as [[p e env Kw] h genv].
  destruct Hl as (Hty & Hh & Hd & Hq & Hdf & Hp). simpl in *.
  unfold eval_dispatch. simpl. rewrite Hty.
  rewrite (proj2 (is_type_true _ _) Hh), Hd. simpl.
  rewrite (proj2 (Z.eqb_neq _ _) Hq), (proj2 (Z.eqb_neq _ _) Hdf),
    (proj2 (Z.eqb_neq _ _) Hp), Z.eqb_refl.
  unfold closure_allocation_fails in Hc.
  destruct (env_copy_shallow h env) as [h0 [env_cpy|]]; [|by exists h0].
  destruct (cons h0 env_cpy NIL) as [h1 env_end].
  destruct (cons h1 _ env_end) as [h2 body].
  destruct (cons h2 _ body) as [h3 params].
  destruct (cons h3 _ params) as [h4 closure].
  assert (Hany : is_type env_end VAL_TYPE_SYMBOL || is_type body VAL_TYPE_SYMBOL
                 || is_type params VAL_TYPE_SYMBOL
                 || is_type closure VAL_TYPE_SYMBOL = true).
  { rewrite !orb_true_iff.
    destruct Hc as [Hc|[Hc|[Hc|Hc]]]; apply is_type_true in Hc; tauto. }
  rewrite Hany. by exists h4.
Qed.

(** A step whose allocation fails gives the state it started from, with
    the heap the failed attempt left and a collection asked for. *)
Lemma eval_step_allocation_fails fuel w arg d a c :
  tags_decode ->
  allocation_fails fuel w arg a ->
  exists h',
    eval_step fuel (mk_loop w arg (mk_flags d false a) c)
    = Some (mk_loop (set_heap w h') arg (mk_flags d true a) c).
Proof.
  intros Ht Hf. unfold eval_step. simpl. destruct a.
  - destruct (apply_continuation_allocation_fails fuel w arg d Ht Hf)
      as [h' ->]. by exists h'.
  - destruct (eval_dispatch_allocation_fails fuel w arg d Hf) as [h' ->].
    by exists h'.
Qed.

(** C3 (as amended).  When the allocation of a step fails -- the binding
    of [define], the reversal of the argument list, the local
    environment of a closure, the result of a fundamental operation, the
    cell of [ARG_LIST] or the closure of [lambda], but not the bindings
    of [let] -- the step asks for a collection and leaves the context
    with its continuation stack, the global environment, [r] and
    [app_cont] as they were before it, without setting [done].  The
    next round, the counter [non_gc] not being zero, runs the collector
    once and then runs that same step again on the collected heap.  If
    the allocation fails in this second run as well, the round after it
    collects nothing and sets [done] with [r] the memory error
    [enc_sym symrepr_merror], which is what [run_eval] returns. *)
Theorem oom_recovery (fuel n : nat) (s : loop_state) :
  tags_decode ->
  done (lf s) = false -> perform_gc (lf s) = false ->
  wrap (non_gc s + 1) <> 0 ->
  allocation_fails fuel (lw s) (r s) (app_cont (lf s)) ->
  exists s1,
    run_eval_iter fuel s = Some s1
    /\ (perform_gc (lf s1) = true /\ done (lf s1) = false
        /\ ctx (lw s1) = ctx (lw s)
        /\ eval_cps_global_env (lw s1) = eval_cps_global_env (lw s)
        /\ r s1 = r s /\ app_cont (lf s1) = app_cont (lf s))
    /\ run_eval_iter fuel s1 = eval_step fuel (restarted s s1)
    /\ (allocation_fails fuel (lw (restarted s s1)) (r s) (app_cont (lf s)) ->
        exists s2,
          run_eval_iter fuel s1 = Some s2
          /\ perform_gc (lf s2) = true
          /\ run_eval_iter fuel s2 = Some (gives_up s2)
          /\ r (gives_up s2) = enc_sym symrepr_merror
          /\ run_eval_loop (S (S (S n))) fuel s = Some (gives_up s2)).
Proof.
  intros Ht Hd Hg Hn Hf.
  destruct s as [w r0 [d g a] c]. simpl in Hd, Hg, Hn, Hf. subst d g.
  destruct (eval_step_allocation_fails fuel w r0 false a (wrap (c + 1)) Ht Hf)
    as [h1 Hs1].
  set (s := mk_loop w r0 (mk_flags false false a) c).
  set (s1 := mk_loop (set_heap w h1) r0 (mk_flags false true a) (wrap (c + 1))).
  assert (Hi : run_eval_iter fuel s = Some s1) by exact Hs1.
  assert (Hre : run_eval_iter fuel s1 = eval_step fuel (restarted s s1)).
  { unfold run_eval_iter, s1. cbn [lf perform_gc non_gc].
    destruct (Z.eqb_spec (wrap (c + 1)) 0) as [?|_]; [done|].
    destruct w as [[p e env Kw] h genv]. reflexivity. }
  exists s1. split; [exact Hi|]. split.
  { destruct w as [[p e env Kw] h genv]. by cbn. }
  split; [exact Hre|].
  intros Hf2.
  destruct (eval_step_allocation_fails fuel (lw (restarted s s1)) r0 false a 0
              Ht Hf2) as [h2 Hs2].
  set (s2 := mk_loop (set_heap (lw (restarted s s1)) h2) r0
                     (mk_flags false true a) 0).
  assert (Hi2 : run_eval_iter fuel s1 = Some s2) by (rewrite Hre; exact Hs2).
  assert (Hi3 : run_eval_iter fuel s2 = Some (gives_up s2)) by reflexivity.
  exists s2. split; [exact Hi2|]. split; [reflexivity|].
  split; [exact Hi3|]. split; [reflexivity|].
  rewrite (run_eval_loop_step _ _ _ _ (eq_refl : done (lf s) = false) Hi).
  rewrite (run_eval_loop_step _ _ _ _ (eq_refl : done (lf s1) = false) Hi2).
  rewrite (run_eval_loop_step _ _ _ _ (eq_refl : done (lf s2) = false) Hi3).
  by apply run_eval_loop_done.
Qed.

(** C4 (as amended).  When a [FUNCTION_APP] frame is applied to a
    closure (a value of type [PTR_TYPE_CONS]) and the reversal of the
    argument list has not failed, the length of the parameter list
    [car (cdr fun)] is compared with the length of the argument list: if
    they differ the step drops the frame, sets [done] and yields the
    evaluation error [enc_sym symrepr_eerror], which [run_eval] returns;
    if they are equal the step does not set [done]. *)
Theorem closure_arity_check (fuel n : nat) (s : loop_state)
    (k args : VALUE) (Krest : list VALUE) :
  done (lf s) = false -> app_cont (lf s) = true ->
  K (ctx (lw s)) = k :: args :: Krest -> dec_u k = FUNCTION_APP ->
  type_of (r s) = PTR_TYPE_CONS ->
  ~ reversal_failed (heap (lw s)) args ->
  let h1 := (reversed (heap (lw s)) args).1 in
  let params := car h1 (cdr h1 (r s)) in
  (length h1 params <> length h1 args ->
   eval_step fuel s = Some (arity_stop s Krest h1)
   /\ (perform_gc (lf s) = false ->
       exists t, run_eval_loop (S n) fuel s = Some t
                 /\ r t = enc_sym symrepr_eerror /\ done (lf t) = true))
  /\ (length h1 params = length h1 args ->
      forall s', eval_step fuel s = Some s' -> done (lf s') = false).
Proof.
  intros Hd Ha HK Hk Ht Hrev h1 params.
  destruct s as [[[p e env Kw] h genv] r0 [d g a] n0].
  simpl in Hd, Ha, HK, Ht, Hrev, h1, params. subst d a Kw.
  assert (Hstep : forall nn : Z, eval_step fuel
     (mk_loop (mk_world (mk_ctx p e env (k :: args :: Krest)) h genv) r0
              (mk_flags false g true) nn) =
     '(r', w, fl) ← (if negb (length h1 params =? length h1 args) then
        Some (enc_sym symrepr_eerror,
              set_heap (set_K (mk_world (mk_ctx p e env (k :: args :: Krest)) h genv) Krest) h1,
              mk_flags true g false)
      else
        match env_build_params_args h1 params (reversed h args).2
                (car h1 (cdr h1 (cdr h1 (cdr h1 r0)))) with
        | (h2, None) =>
            Some (r0, set_heap (set_K (mk_world (mk_ctx p e env (k :: args :: Krest)) h genv)
                        (push_u32_2 Krest args (enc_u FUNCTION_APP))) h2,
                  mk_flags false true true)
        | (h2, Some local_env) =>
            Some (0, set_env (set_exp (set_heap (set_K (mk_world (mk_ctx p e env (k :: args :: Krest)) h genv) Krest) h2)
                       (car h1 (cdr h1 (cdr h1 r0)))) local_env,
                  mk_flags false g false)
        end); Some (mk_loop w r' fl nn)).
  { intros nn. unfold eval_step, apply_continuation. simpl.
    rewrite Hk. simpl.
    subst h1 params. unfold reversal_failed in Hrev.
    destruct (reversed h args) as [h1 args_rev] eqn:Er. simpl in *.
    apply is_type_true in Ht. rewrite Ht.
    destruct (is_type args PTR_TYPE_CONS && is_type args_rev VAL_TYPE_SYMBOL) eqn:Ef.
    { exfalso. apply Hrev. apply andb_true_iff in Ef as [E1 E2].
      by rewrite !is_type_true in *. }
    reflexivity. }
  split.
  - intros Hne.
    assert (Hc : negb (length h1 params =? length h1 args) = true).
    { apply negb_true_iff. by apply Z.eqb_neq. }
    split.
    + rewrite Hstep, Hc. reflexivity.
    + intros Hg. simpl in Hg. subst g.
      set (s0 := mk_loop _ r0 _ n0).
      assert (Hi : run_eval_iter fuel s0
                   = Some (arity_stop (mk_loop (lw s0) r0 (lf s0) (wrap (n0 + 1)))
                                      Krest h1)).
      { unfold run_eval_iter, s0. simpl. rewrite Hstep, Hc. reflexivity. }
      eexists. split; [|split].
      * rewrite (run_eval_loop_step n fuel s0 _ (eq_refl false) Hi).
        by apply run_eval_loop_done.
      * reflexivity.
      * reflexivity.
  - intros Heq s' Hs. rewrite Hstep in Hs.
    assert (Hc : negb (length h1 params =? length h1 args) = false).
    { apply negb_false_iff. by apply Z.eqb_eq. }
    rewrite Hc in Hs. split_cases.
Qed.

(** The loop of the [let] case on an exhausted heap: the round that
    fails is run again on the same binding, and fails again, whatever
    the fuel. *)
Lemma let_prealloc_exhausted fuel h curr new_env g :
  type_of curr = PTR_TYPE_CONS ->
  (forall a d, (cons h a d).1 = h /\ type_of (cons h a d).2 = VAL_TYPE_SYMBOL) ->
  let_prealloc fuel h curr new_env g = None.
Proof.
  intros Hc Hfull. revert new_env g.
  induction fuel as [|fuel IH]; intros new_env g; simpl.
  - apply is_type_true in Hc. by rewrite Hc.
  - apply is_type_true in Hc. rewrite Hc.
    destruct (Hfull (car h (car h curr)) NIL) as [Hh Hb].
    destruct (cons h (car h (car h curr)) NIL) as [h1 binding].
    simpl in Hh, Hb. subst h1.
    destruct (Hfull binding new_env) as [Hh2 _].
    destruct (cons h binding new_env) as [h2 new_env'].
    simpl in Hh2. subst h2.
    apply is_type_true in Hb. rewrite Hb. simpl. apply IH.
Qed.

End Facts.

Import SpecRuntime.

Lemma spec_tags_decode : tags_decode.
Proof.
  intros k Hk. unfold DONE, PROGN_REST in Hk.
  assert (k = 1 \/ k = 2 \/ k = 3 \/ k = 4 \/ k = 5 \/ k = 6 \/ k = 7
          \/ k = 8 \/ k = 9) as Hc by lia.
  repeat (destruct Hc as [->|Hc]; [vm_compute; reflexivity|]).
  subst. vm_compute. reflexivity.
Qed.

(** In the two states of [(1 2)] in which the [FUNCTION_APP] frame is
    applied, before and after the collection, the reversal of the
    argument list fails. *)
Lemma reversal_fails_twice :
  allocation_fails 1000 (lw before_reversal) (r before_reversal)
                   (app_cont (lf before_reversal))
  /\ allocation_fails 1000 (lw (restarted before_reversal after_reversal))
                      (r before_reversal) (app_cont (lf before_reversal)).
Proof.
  split.
  - apply (fails_reversal _ _ _ _ (enc_cons_ptr 5) [EvalCps.enc_u DONE]).
    + vm_compute; reflexivity.
    + vm_compute; reflexivity.
    + unfold reversal_failed. split; vm_compute; reflexivity.
  - apply (fails_reversal _ _ _ _ (enc_cons_ptr 5) [EvalCps.enc_u DONE]).
    + vm_compute; reflexivity.
    + vm_compute; reflexivity.
    + unfold reversal_failed. split; vm_compute; reflexivity.
Qed.

Lemma oom_recovery_witness :
  exists s2,
    run_eval_loop 3 1000 before_reversal = Some (gives_up s2)
    /\ r (gives_up s2) = EvalCps.enc_sym EvalCps.symrepr_merror.
Proof.
  assert (Hd : done (lf before_reversal) = false) by (vm_compute; reflexivity).
  assert (Hg : perform_gc (lf before_reversal) = false)
    by (vm_compute; reflexivity).
  assert (Hn : wrap (non_gc before_reversal + 1) <> 0)
    by (vm_compute; discriminate).
  assert (Hi : run_eval_iter 1000 before_reversal = Some after_reversal)
    by (vm_compute; reflexivity).
  destruct reversal_fails_twice as [Hf1 Hf2].
  destruct (oom_recovery 1000 0 before_reversal spec_tags_decode Hd Hg Hn Hf1)
    as (s1 & Hi1 & _ & _ & Hstall).
  assert (Hs1 : s1 = after_reversal) by congruence.
  rewrite Hs1 in Hstall.
  destruct (Hstall Hf2) as (s2 & _ & _ & _ & Hr & Hloop).
  exists s2. split; [exact Hloop|exact Hr].
Defined.

(** C3 as stated fails on [(1 2)] with one free cell: the reversal of
    the argument list fails in round 6, round 7 collects nothing and
    fails again, and [run_eval] returns the memory error, the symbol
    every failed allocation yields, and not a symbol of its own for the
    lack of progress. *)
Lemma stalled_collection_result :
  perform_gc (lf after_reversal) = true
  /\ (perform_gc (lf after_retry) = true /\ non_gc after_retry = 0)
  /\ fst <$> session 6 one_operand = Some (enc_sym ERR_OUT_OF_MEMORY)
  /\ fst <$> session 6 one_operand <> Some (enc_sym ERR_GC_PROGRESS).
Proof.
  split; [vm_compute; reflexivity|].
  split; [split; vm_compute; reflexivity|].
  split; [vm_compute; reflexivity | vm_compute; discriminate].
Qed.

Lemma closure_arity_check_witness :
  exists t, run_eval_loop 1 1000 before_application = Some t
            /\ r t = EvalCps.enc_sym EvalCps.symrepr_eerror
            /\ done (lf t) = true.
Proof.
  assert (Hd : done (lf before_application) = false)
    by (vm_compute; reflexivity).
  assert (Ha : app_cont (lf before_application) = true)
    by (vm_compute; reflexivity).
  assert (HK : K (ctx (lw before_application))
               = [EvalCps.enc_u FUNCTION_APP; SpecRuntime.NIL; EvalCps.enc_u DONE])
    by (vm_compute; reflexivity).
  assert (Hk : EvalCps.dec_u (EvalCps.enc_u FUNCTION_APP) = FUNCTION_APP)
    by (vm_compute; reflexivity).
  assert (Ht : EvalCps.type_of (r before_application) = PTR_TYPE_CONS)
    by (vm_compute; reflexivity).
  assert (Hrev : ~ reversal_failed (heap (lw before_application)) SpecRuntime.NIL).
  { intros [Hc _]. vm_compute in Hc. discriminate Hc. }
  assert (Hg : perform_gc (lf before_application) = false)
    by (vm_compute; reflexivity).
  destruct (closure_arity_check 1000 0 before_application
              (EvalCps.enc_u FUNCTION_APP) SpecRuntime.NIL [EvalCps.enc_u DONE]
              Hd Ha HK Hk Ht Hrev) as [Hdiff _].
  destruct Hdiff as [_ Hloop].
  - vm_compute. discriminate.
  - exact (Hloop Hg).
Defined.

(** C4 as stated fails on [((lambda (x) x))]: a closure of one
    parameter is applied to no argument, and [run_eval] returns the
    evaluation error, the symbol it returns for a form it cannot
    evaluate, and not a symbol of its own for the arity. *)
Lemma arity_mismatch_result :
  fst <$> session 16 no_argument = Some (enc_sym ERR_EVAL)
  /\ fst <$> session 16 no_argument <> Some (enc_sym ERR_ARITY).
Proof.
  split; [vm_compute; reflexivity | vm_compute; discriminate].
Qed.

(** An unbound symbol evaluates to the same symbol as the application
    with the wrong number of arguments. *)
Lemma unbound_symbol_result :
  fst <$> session 16 [x] = fst <$> session 16 no_argument.
Proof. vm_compute; reflexivity. Qed.

End EvalCpsFacts.

(** ** Constant heap: writing an image again *)

Module ConstHeapMoreFacts.
Import ConstHeap ConstHeapMore.

Lemma slot_kept_by_write (mem : list Z) (ix ix' w : Z) :
  0 <= ix -> 0 <= ix' -> slot mem ix <> ERASED ->
  slot (const_heap_write mem ix' w).2 ix = slot mem ix.
Proof.
  intros H1 H2 Hs. unfold const_heap_write.
  destruct (CONSTANT_MEMORY_SIZE <=? ix'); [done|].
  destruct (Z.eqb_spec (slot mem ix') 0xffffffff) as [He|Hne]; cbn.
  - destruct (Z.eq_dec ix ix') as [->|Hd]; [done|].
    unfold slot. rewrite list_lookup_insert_ne; [done|lia].
  - by destruct (slot mem ix' =? w).
Qed.

Lemma slot_kept_by_writes (ws : list (Z * Z)) (mem : list Z) (ix : Z) :
  0 <= ix -> Forall (fun iw => 0 <= iw.1) ws ->
  slot mem ix <> ERASED ->
  slot (const_heap_writes mem ws).2 ix = slot mem ix.
Proof.
  intros Hix Hws. revert mem. induction Hws as [|[ix' w] ws Hw Hws IH];
    intros mem Hs; [done|].
  cbn [const_heap_writes].
  pose proof (slot_kept_by_write mem ix ix' w Hix Hw Hs) as Hk.
  destruct (const_heap_write mem ix' w) as [ok mem1]. cbn [snd] in Hk.
  specialize (IH mem1 ltac:(congruence)).
  destruct (const_heap_writes mem1 ws) as [oks mem2]. cbn [snd] in *.
  congruence.
Qed.

Lemma const_heap_write_ok_slot (mem : list Z) (ix w : Z) :
  0 <= ix -> length mem = Z.to_nat CONSTANT_MEMORY_SIZE ->
  (const_heap_write mem ix w).1 = true ->
  slot (const_heap_write mem ix w).2 ix = w.
Proof.
  intros Hix Hlen. unfold const_heap_write.
  destruct (Z.leb_spec CONSTANT_MEMORY_SIZE ix) as [|Hlt]; [done|].
  destruct (Z.eqb_spec (slot mem ix) 0xffffffff) as [He|Hne]; cbn.
  - intros _. unfold slot. rewrite list_lookup_insert_eq; [done|lia].
  - destruct (Z.eqb_spec (slot mem ix) w); cbn; done.
Qed.

Lemma const_heap_write_length (mem : list Z) (ix w : Z) :
  length (const_heap_write mem ix w).2 = length mem.
Proof.
  unfold const_heap_write. repeat case_match; cbn; try done.
  apply length_insert.
Qed.

(** After a run in which every write succeeded, every word of the run
    is in its slot. *)
Lemma const_heap_writes_stored (ws : list (Z * Z)) (mem : list Z) :
  plain_writes ws -> length mem = Z.to_nat CONSTANT_MEMORY_SIZE ->
  (const_heap_writes mem ws).1 = true ->
  Forall (fun iw => slot (const_heap_writes mem ws).2 iw.1 = iw.2) ws.
Proof.
  intros Hws. revert mem. induction Hws as [|[ix w] ws [Hix Hw] Hws IH];
    intros mem Hlen Hok; [done|].
  cbn [const_heap_writes] in *. cbn [fst snd] in Hix, Hw.
  pose proof (const_heap_write_ok_slot mem ix w Hix Hlen) as Hs.
  pose proof (const_heap_write_length mem ix w) as Hl.
  destruct (const_heap_write mem ix w) as [ok mem1]. cbn [fst snd] in *.
  specialize (IH mem1 ltac:(congruence)).
  pose proof (slot_kept_by_writes ws mem1 ix Hix) as Hk.
  destruct (const_heap_writes mem1 ws) as [oks mem2]. cbn [fst snd] in *.
  apply andb_true_iff in Hok as [-> Hoks].
  constructor; cbn [fst snd].
  - rewrite Hk; [by apply Hs| |rewrite Hs by done; done].
    eapply Forall_impl; [exact Hws|]. by intros ? [? _].
  - by apply IH.
Qed.

Lemma const_heap_writes_in_range (ws : list (Z * Z)) (mem : list Z) :
  (const_heap_writes mem ws).1 = true ->
  Forall (fun iw => iw.1 < CONSTANT_MEMORY_SIZE) ws.
Proof.
  revert mem. induction ws as [|[ix w] ws IH]; intros mem Hok; [done|].
  cbn [const_heap_writes] in Hok.
  assert (Hr : (const_heap_write mem ix w).1 = true -> ix < CONSTANT_MEMORY_SIZE).
  { unfold const_heap_write.
    destruct (Z.leb_spec CONSTANT_MEMORY_SIZE ix); [done|lia]. }
  destruct (const_heap_write mem ix w) as [ok mem1]. specialize (IH mem1).
  destruct (const_heap_writes mem1 ws) as [oks mem2]. cbn [fst snd] in *.
  apply andb_true_iff in Hok as [-> ->]. constructor; auto.
Qed.

Lemma const_heap_writes_again (ws : list (Z * Z)) (mem : list Z) :
  plain_writes ws ->
  Forall (fun iw => iw.1 < CONSTANT_MEMORY_SIZE) ws ->
  Forall (fun iw => slot mem iw.1 = iw.2) ws ->
  const_heap_writes mem ws = (true, mem).
Proof.
  intros Hws. induction Hws as [|[ix w] ws [Hix Hw] Hws IH];
    intros Hr Hall; [done|].
  apply Forall_cons in Hall as [Hs Hall]. apply Forall_cons in Hr as [Hlt Hr].
  cbn [fst snd] in *. cbn [const_heap_writes].
  assert (const_heap_write mem ix w = (true, mem)) as ->.
  { unfold const_heap_write.
    destruct (Z.leb_spec CONSTANT_MEMORY_SIZE ix) as [Hge|_]; [lia|].
    rewrite Hs. destruct (Z.eqb_spec w 0xffffffff) as [He|_]; [done|].
    by rewrite Z.eqb_refl. }
  by rewrite IH.
Qed.

(** X1.  A run of calls of [const_heap_write] in which every call
    returned [true] can be made again: when no word of the run is the
    erased word, every call of the second run returns [true] and none
    changes the array. *)
Theorem const_heap_rewrite_accepted (ws : list (Z * Z)) (mem mem' : list Z) :
  plain_writes ws -> length mem = Z.to_nat CONSTANT_MEMORY_SIZE ->
  const_heap_writes mem ws = (true, mem') ->
  const_heap_writes mem' ws = (true, mem').
Proof.
  intros Hws Hlen Hrun.
  pose proof (const_heap_writes_stored ws mem Hws Hlen) as Hst.
  pose proof (const_heap_writes_in_range ws mem) as Hr.
  rewrite Hrun in Hst, Hr. cbn [fst snd] in *.
  apply const_heap_writes_again; auto.
Qed.

Lemma erased_slot (ix : Z) :
  0 <= ix < CONSTANT_MEMORY_SIZE -> slot erased_memory ix = ERASED.
Proof.
  intros Hix. unfold slot, erased_memory.
  rewrite lookup_replicate_2; [done|lia].
Qed.

Lemma const_heap_rewrite_accepted_witness :
  const_heap_writes (<[Z.to_nat 5 := 42]> erased_memory) [(5, 42)]
  = (true, <[Z.to_nat 5 := 42]> erased_memory).
Proof.
  apply (const_heap_rewrite_accepted [(5, 42)] erased_memory).
  - repeat constructor; cbn; unfold ERASED; lia.
  - unfold erased_memory. apply length_replicate.
  - cbn [const_heap_writes]. unfold const_heap_write.
    rewrite erased_slot by (unfold CONSTANT_MEMORY_SIZE; lia).
    reflexivity.
Defined.

End ConstHeapMoreFacts.

(** ** Defragmenting pool: allocation, release, compaction, destruction *)

Module DefragMemMoreFacts.
Import DefragMem DefragMemMore.

Lemma bs2ws_bounds (bs : Z) :
  0 <= bs ->
  bs <= sizeof_lbm_uint * bs2ws bs < bs + sizeof_lbm_uint.
Proof.
  intros Hbs. unfold bs2ws, sizeof_lbm_uint.
  pose proof (Z.div_mod bs 4 ltac:(lia)) as Hdm.
  pose proof (Z.mod_pos_bound bs 4 ltac:(lia)) as Hm.
  destruct (Z.eqb_spec (bs mod 4) 0) as [E|E]; lia.
Qed.

Lemma wrap_small (x : Z) : 0 <= x < 2 ^ 32 -> wrap x = x.
Proof. intros. unfold wrap. by apply Z.mod_small. Qed.

Lemma wrap_nonneg (x : Z) : 0 <= wrap x.
Proof. unfold wrap. apply Z.mod_pos_bound. lia. Qed.

Lemma alloc_scan_inv fuel p ms aw st i fw fs res :
  0 <= ms < 2 ^ 32 -> 2 <= aw -> 0 <= i ->
  (st = FREE_LEN ->
   0 <= fs /\ 1 <= fw < aw /\ i = fs + fw
   /\ forall j, fs <= j < i -> mem_data p j = 0) ->
  alloc_scan fuel p ms aw st i fw fs = Some (true, res) ->
  0 <= res /\ res + aw <= ms
  /\ forall j, res <= j < res + aw -> mem_data p j = 0.
Proof.
  intros Hms Haw. revert st i fw fs.
  induction fuel as [|fuel IH]; intros st i fw fs Hi Hinv Hs; simpl in Hs.
  - destruct (i <? ms); discriminate.
  - destruct (Z.ltb_spec i ms) as [Hlt|Hge]; [|discriminate].
    assert (Hw1 : wrap (i + 1) = i + 1) by (apply wrap_small; lia).
    destruct st.
    + destruct (Z.eqb_spec (mem_data p i) 0) as [Hz|Hnz].
      * eapply IH; [| |exact Hs]; [lia|].
        intros _. rewrite Hw1. repeat split; try lia.
        intros j Hj. assert (j = i) by lia. by subst.
      * eapply IH; [| |exact Hs]; [apply wrap_nonneg|discriminate].
    + destruct (Hinv eq_refl) as (Hfs & Hfw & Hif & Hzero).
      destruct (Z.eqb_spec (mem_data p i) 0) as [Hz|Hnz].
      * assert (Hw2 : wrap (fw + 1) = fw + 1) by (apply wrap_small; lia).
        rewrite Hw2 in Hs.
        destruct (Z.leb_spec aw (fw + 1)) as [Hfound|Hmore].
        -- injection Hs as <-. repeat split; try lia.
           intros j Hj. destruct (Z.eq_dec j i) as [->|Hne]; [done|].
           apply Hzero. lia.
        -- eapply IH; [| |exact Hs]; [lia|].
           intros _. rewrite Hw1. repeat split; try lia.
           intros j Hj. destruct (Z.eq_dec j i) as [->|Hne]; [done|].
           apply Hzero. lia.
      * eapply IH; [| |exact Hs]; [apply wrap_nonneg|discriminate].
Qed.

(** A search that succeeds has found [bs2ws bytes + 3] zero words
    inside the pool. *)
Lemma alloc_scan_sound (p : defrag_mem_t) (bytes fs : Z) :
  0 <= DEFRAG_MEM_SIZE p < 2 ^ 32 -> 0 <= bytes < 2 ^ 32 ->
  alloc_place p bytes = Some (true, fs) ->
  0 <= fs /\ fs + (bs2ws bytes + 3) <= DEFRAG_MEM_SIZE p
  /\ forall j, fs <= j < fs + (bs2ws bytes + 3) -> mem_data p j = 0.
Proof.
  intros Hms Hb Hs. unfold alloc_place in Hs.
  pose proof (bs2ws_bounds bytes ltac:(lia)) as Hr. unfold sizeof_lbm_uint in Hr.
  assert (Hw : wrap (bs2ws bytes + 3) = bs2ws bytes + 3) by (apply wrap_small; lia).
  rewrite Hw in Hs.
  eapply alloc_scan_inv in Hs; [done|done|lia|lia|discriminate].
Qed.

Lemma rd_insert_ne (ws : list Z) (i j : nat) (v : Z) :
  i <> j -> rd (<[i := v]> ws) (Z.of_nat j) = rd ws (Z.of_nat j).
Proof.
  intros Hne. unfold rd. rewrite !Nat2Z.id.
  by rewrite list_lookup_insert_ne.
Qed.

Lemma mem_data_set_ne (p : defrag_mem_t) (i j v : Z) :
  0 <= i -> 0 <= j -> i <> j ->
  mem_data (set_mem_data p i v) j = mem_data p j.
Proof.
  intros Hi Hj Hne. unfold mem_data, set_mem_data, DEFRAG_MEM_HEADER_SIZE, rd.
  simpl. rewrite list_lookup_insert_ne; [done|lia].
Qed.

Lemma mem_data_set_eq (p : defrag_mem_t) (i v : Z) :
  0 <= i ->
  (Z.to_nat (DEFRAG_MEM_HEADER_SIZE + i) < length (pool_words p))%nat ->
  mem_data (set_mem_data p i v) i = v.
Proof.
  intros Hi Hlen. unfold mem_data, set_mem_data, rd. simpl.
  by rewrite list_lookup_insert_eq.
Qed.

Lemma length_set_mem_data (p : defrag_mem_t) (i v : Z) :
  length (pool_words (set_mem_data p i v)) = length (pool_words p).
Proof. unfold set_mem_data. simpl. apply length_insert. Qed.

Lemma header_set_mem_data (p : defrag_mem_t) (i v : Z) :
  0 <= i ->
  DEFRAG_MEM_SIZE (set_mem_data p i v) = DEFRAG_MEM_SIZE p
  /\ DEFRAG_MEM_FLAGS (set_mem_data p i v) = DEFRAG_MEM_FLAGS p.
Proof.
  intros Hi. unfold DEFRAG_MEM_SIZE, DEFRAG_MEM_FLAGS, set_mem_data, rd.
  unfold DEFRAG_MEM_HEADER_SIZE. simpl.
  rewrite !list_lookup_insert_ne; [done|lia|lia].
Qed.

Lemma mem_data_set_flags (p : defrag_mem_t) (v j : Z) :
  0 <= j -> mem_data (set_flags p v) j = mem_data p j.
Proof.
  intros Hj. unfold mem_data, set_flags, rd, DEFRAG_MEM_HEADER_SIZE. simpl.
  rewrite list_lookup_insert_ne; [done|lia].
Qed.

Lemma size_set_flags (p : defrag_mem_t) (v : Z) :
  DEFRAG_MEM_SIZE (set_flags p v) = DEFRAG_MEM_SIZE p.
Proof.
  unfold DEFRAG_MEM_SIZE, set_flags, rd. simpl.
  by rewrite list_lookup_insert_ne.
Qed.

Lemma flags_set_flags (p : defrag_mem_t) (v : Z) :
  (2 <= length (pool_words p))%nat -> DEFRAG_MEM_FLAGS (set_flags p v) = v.
Proof.
  intros Hlen. unfold DEFRAG_MEM_FLAGS, set_flags, rd. simpl.
  rewrite list_lookup_insert_eq; [done|lia].
Qed.

Lemma dec_ptr_set_ptr_type (c t : Z) :
  0 <= t < 16 -> lbm_dec_ptr (lbm_set_ptr_type c t) = lbm_dec_ptr c.
Proof.
  intros Ht. unfold lbm_dec_ptr, lbm_set_ptr_type.
  rewrite Z.shiftr_lor.
  rewrite (Z.shiftr_shiftl_l _ 4 4) by lia.
  rewrite (Z.shiftr_div_pow2 t 4) by lia.
  rewrite (Z.div_small t (2 ^ 4)) by lia.
  rewrite Z.lor_0_r. apply Z.shiftl_0_r.
Qed.

(** The three things an allocation that runs no compaction can do. *)
Lemma alloc_cases (p : defrag_mem_t) (hs : lbm_heap_state_t) (bytes : Z)
    (p' : defrag_mem_t) (hs' : lbm_heap_state_t) (res : Z) :
  DEFRAG_MEM_FLAGS p = 0 ->
  lbm_defrag_mem_alloc p hs bytes = Some (p', hs', res) ->
  (lbm_is_symbol res = true /\ p' = p)
  \/ (exists fs, alloc_place p bytes = Some (false, fs)
      /\ res = ENC_SYM_MERROR /\ p' = set_flags p 1)
  \/ (exists fs cell,
        alloc_place p bytes = Some (true, fs)
        /\ lbm_is_symbol cell = false
        /\ res = lbm_set_ptr_type cell LBM_TYPE_ARRAY
        /\ p' = set_mem_data
                  (set_mem_data (set_mem_data p fs bytes) (fs + 1)
                                (addr_of_data p (fs + 3)))
                  (fs + 2) (lbm_dec_ptr cell)).
Proof.
  intros Hf Ha. unfold lbm_defrag_mem_alloc in Ha.
  destruct (lbm_heap_allocate_cell _ _ _ _) as [hs1 cell].
  destruct (lbm_is_symbol cell) eqn:Hc.
  { left. by simplify_eq. }
  rewrite Hf in Ha. cbn -[alloc_scan] in Ha.
  fold (alloc_place p bytes) in Ha.
  destruct (alloc_place p bytes) as [[found fs]|] eqn:Hp;
    cbn -[alloc_scan] in Ha; [|done].
  destruct found; simplify_eq.
  - right. right. exists fs, cell. done.
  - right. left. exists fs. done.
Qed.

Lemma block_ok_length (p : defrag_mem_t) (j : Z) :
  block_ok p -> 0 <= j < DEFRAG_MEM_SIZE p ->
  (Z.to_nat (DEFRAG_MEM_HEADER_SIZE + j) < length (pool_words p))%nat.
Proof.
  intros (Hs & Hl & _) Hj. rewrite Hl. unfold DEFRAG_MEM_HEADER_SIZE. lia.
Qed.

Lemma block_ok_size (p : defrag_mem_t) :
  block_ok p -> 0 <= DEFRAG_MEM_SIZE p < 2 ^ 32.
Proof.
  intros (Hs & _ & Ha & Hb).
  unfold sizeof_lbm_uint, DEFRAG_MEM_HEADER_SIZE in Hb. lia.
Qed.

(** What a successful allocation leaves in the pool. *)
Lemma alloc_success_pool (p : defrag_mem_t) (hs : lbm_heap_state_t)
    (bytes : Z) (p' : defrag_mem_t) (hs' : lbm_heap_state_t) (res : Z) :
  block_ok p -> DEFRAG_MEM_FLAGS p = 0 -> 0 <= bytes < 2 ^ 32 ->
  lbm_defrag_mem_alloc p hs bytes = Some (p', hs', res) ->
  lbm_is_symbol res = false ->
  exists fs,
    alloc_place p bytes = Some (true, fs)
    /\ (0 <= fs /\ fs + (bs2ws bytes + 3) <= DEFRAG_MEM_SIZE p)
    /\ (forall j, fs <= j < fs + (bs2ws bytes + 3) -> mem_data p j = 0)
    /\ (mem_data p' fs = bytes
        /\ mem_data p' (fs + 1) = addr_of_data p (fs + 3)
        /\ mem_data p' (fs + 2) = lbm_dec_ptr res)
    /\ (forall j, 0 <= j -> ~ (fs <= j < fs + 3) -> mem_data p' j = mem_data p j)
    /\ (DEFRAG_MEM_SIZE p' = DEFRAG_MEM_SIZE p /\ DEFRAG_MEM_FLAGS p' = 0).
Proof.
  intros Hok Hf Hb Ha Hres.
  destruct (alloc_cases _ _ _ _ _ _ Hf Ha)
    as [[Hsym _]|[(fs & _ & -> & _)|(fs & cell & Hp & Hc & -> & ->)]].
  - congruence.
  - vm_compute in Hres. discriminate.
  - exists fs. split; [done|].
    destruct (alloc_scan_sound p bytes fs (block_ok_size p Hok) Hb Hp)
      as (Hfs & Hend & Hzero).
    pose proof (bs2ws_bounds bytes ltac:(lia)) as Hr.
    unfold sizeof_lbm_uint in Hr.
    split; [done|]. split; [done|]. split; [|split].
    + split; [|split].
      * rewrite !mem_data_set_ne by lia.
        apply mem_data_set_eq; [lia|]. apply block_ok_length; [done|lia].
      * rewrite mem_data_set_ne by lia.
        apply mem_data_set_eq; [lia|]. rewrite length_set_mem_data.
        apply block_ok_length; [done|lia].
      * rewrite dec_ptr_set_ptr_type by (unfold LBM_TYPE_ARRAY; lia).
        apply mem_data_set_eq; [lia|]. rewrite !length_set_mem_data.
        apply block_ok_length; [done|lia].
    + intros j Hj Hout. rewrite !mem_data_set_ne by lia. done.
    + pose proof (header_set_mem_data p fs bytes ltac:(lia)) as [A1 A2].
      pose proof (header_set_mem_data (set_mem_data p fs bytes) (fs + 1)
                    (addr_of_data p (fs + 3)) ltac:(lia)) as [B1 B2].
      pose proof (header_set_mem_data
                    (set_mem_data (set_mem_data p fs bytes) (fs + 1)
                                  (addr_of_data p (fs + 3)))
                    (fs + 2) (lbm_dec_ptr cell) ltac:(lia)) as [C1 C2].
      split; congruence.
Qed.

(** X5.  An allocation that returns a symbol, for want of a cell or of
    room in the pool, changes no data word of the pool and not its
    size: the pool is as it was, but for the compaction flag that a
    failed search sets. *)
Theorem alloc_failure_keeps_data (p : defrag_mem_t) (hs : lbm_heap_state_t)
    (bytes : Z) (p' : defrag_mem_t) (hs' : lbm_heap_state_t) (res : Z) :
  DEFRAG_MEM_FLAGS p = 0 ->
  lbm_defrag_mem_alloc p hs bytes = Some (p', hs', res) ->
  lbm_is_symbol res = true ->
  (forall j, 0 <= j -> mem_data p' j = mem_data p j)
  /\ DEFRAG_MEM_SIZE p' = DEFRAG_MEM_SIZE p
  /\ (p' = p \/ p' = set_flags p 1).
Proof.
  intros Hf Ha Hres.
  destruct (alloc_cases _ _ _ _ _ _ Hf Ha)
    as [[_ ->]|[(fs & _ & _ & ->)|(fs & cell & _ & _ & -> & _)]].
  - auto.
  - split; [|split]; [|apply size_set_flags|by right].
    intros j Hj. by apply mem_data_set_flags.
  - exfalso. revert Hres. unfold lbm_is_symbol, lbm_type_of, lbm_set_ptr_type.
    rewrite Z.land_lor_distr_l.
    change 15 with (Z.ones 4). rewrite Z.land_ones by lia.
    rewrite Z.shiftl_mul_pow2 by lia. rewrite Z.mod_mul by lia.
    vm_compute. discriminate.
Qed.

Lemma mem_data_memset0_in (p : defrag_mem_t) (ix n j : Z) :
  0 <= ix -> ix <= j < ix + n ->
  (Z.to_nat (DEFRAG_MEM_HEADER_SIZE + j) < length (pool_words p))%nat ->
  mem_data (memset0 p ix n) j = 0.
Proof.
  intros Hix Hj Hlen. unfold mem_data, memset0, rd, DEFRAG_MEM_HEADER_SIZE in *.
  simpl. rewrite list_lookup_inserts by (rewrite ?length_replicate; lia).
  rewrite lookup_replicate_2 by lia. done.
Qed.

Lemma mem_data_memset0_out (p : defrag_mem_t) (ix n j : Z) :
  0 <= ix -> 0 <= j -> ~ (ix <= j < ix + n) ->
  mem_data (memset0 p ix n) j = mem_data p j.
Proof.
  intros Hix Hj Hout. unfold mem_data, memset0, rd, DEFRAG_MEM_HEADER_SIZE in *.
  simpl. destruct (Z.lt_ge_cases j ix).
  - rewrite list_lookup_inserts_lt by lia. done.
  - rewrite list_lookup_inserts_ge by (rewrite length_replicate; lia). done.
Qed.

Lemma header_memset0 (p : defrag_mem_t) (ix n : Z) :
  0 <= ix ->
  DEFRAG_MEM_SIZE (memset0 p ix n) = DEFRAG_MEM_SIZE p
  /\ DEFRAG_MEM_FLAGS (memset0 p ix n) = DEFRAG_MEM_FLAGS p
  /\ length (pool_words (memset0 p ix n)) = length (pool_words p).
Proof.
  intros Hix. unfold DEFRAG_MEM_SIZE, DEFRAG_MEM_FLAGS, memset0, rd.
  unfold DEFRAG_MEM_HEADER_SIZE. simpl.
  rewrite !list_lookup_inserts_lt by lia. by rewrite length_inserts.
Qed.

(** Address and index of a data word correspond. *)
Lemma data_index_addr (p : defrag_mem_t) (i : Z) :
  block_ok p -> 0 <= i < DEFRAG_MEM_SIZE p ->
  data_index p (addr_of_data p i) = i.
Proof.
  intros (Hs & _ & Ha & Hb) Hi. unfold data_index, addr_of_data.
  unfold sizeof_lbm_uint, DEFRAG_MEM_HEADER_SIZE in *.
  rewrite wrap_small by lia.
  replace (pool_addr p + 4 * (2 + i) - pool_addr p) with ((2 + i) * 4) by lia.
  rewrite Z.div_mul by lia. lia.
Qed.

Lemma bs2ws_nonneg (bs : Z) : 0 <= bs -> 0 <= bs2ws bs.
Proof.
  intros H. unfold bs2ws, sizeof_lbm_uint.
  pose proof (Z.div_pos bs 4 H ltac:(lia)). case_match; lia.
Qed.

(** The words [lbm_defrag_mem_free] wipes. *)
Lemma free_record_words (p : defrag_mem_t) (i : Z) :
  block_ok p ->
  0 <= i -> 0 <= mem_data p i ->
  i + (3 + bs2ws (mem_data p i)) <= DEFRAG_MEM_SIZE p ->
  let p' := lbm_defrag_mem_free p (addr_of_data p i) in
  (forall j, i <= j < i + (3 + bs2ws (mem_data p i)) -> mem_data p' j = 0)
  /\ (forall j, 0 <= j -> ~ (i <= j < i + (3 + bs2ws (mem_data p i))) ->
        mem_data p' j = mem_data p j)
  /\ DEFRAG_MEM_SIZE p' = DEFRAG_MEM_SIZE p
  /\ DEFRAG_MEM_FLAGS p' = DEFRAG_MEM_FLAGS p.
Proof.
  intros Hok Hi Hsz Hfit p'. subst p'. unfold lbm_defrag_mem_free.
  pose proof (bs2ws_nonneg _ Hsz) as Hn.
  pose proof Hok as (Hs & Hlen & Ha & Hb).
  unfold sizeof_lbm_uint, DEFRAG_MEM_HEADER_SIZE in *.
  rewrite data_index_addr by (done || lia).
  rewrite wrap_small by lia.
  split; [|split].
  - intros j Hj. apply mem_data_memset0_in; unfold DEFRAG_MEM_HEADER_SIZE; lia.
  - intros j Hj Hout. by apply mem_data_memset0_out.
  - pose proof (header_memset0 p i (3 + bs2ws (mem_data p i)) Hi) as (A & B & _).
    done.
Qed.

Lemma cons_ptr_bits (i : Z) :
  0 <= i < 2 ^ 28 ->
  lbm_set_ptr_type (lbm_enc_cons_ptr i) LBM_TYPE_CONS = 16 * i
  /\ lbm_enc_cons_ptr i = 16 * i
  /\ lbm_type_of (16 * i) = LBM_TYPE_CONS
  /\ lbm_dec_ptr (16 * i) = i.
Proof.
  intros Hi.
  assert (E : lbm_enc_cons_ptr i = 16 * i).
  { unfold lbm_enc_cons_ptr, LBM_TYPE_CONS. rewrite Z.lor_0_r.
    rewrite Z.shiftl_mul_pow2 by lia. rewrite wrap_small; lia. }
  assert (D : lbm_dec_ptr (16 * i) = i).
  { unfold lbm_dec_ptr. rewrite Z.shiftr_div_pow2 by lia.
    replace (16 * i) with (i * 2 ^ 4) by lia. apply Z.div_mul. lia. }
  split; [|split; [done|split; [|done]]].
  - unfold lbm_set_ptr_type, LBM_TYPE_CONS. rewrite E. fold (lbm_dec_ptr (16 * i)).
    rewrite D, Z.lor_0_r, Z.shiftl_mul_pow2 by lia. lia.
  - unfold lbm_type_of, LBM_TYPE_CONS. change 15 with (Z.ones 4).
    rewrite Z.land_ones by lia. replace (16 * i) with (i * 2 ^ 4) by lia.
    apply Z.mod_mul. lia.
Qed.

(** What a successful allocation leaves in the heap: the cell taken from
    the head of the free list holds the address of the record and the
    type symbol of pool arrays. *)
Lemma alloc_success_heap (p : defrag_mem_t) (hs : lbm_heap_state_t) (bytes : Z)
    (p' : defrag_mem_t) (hs' : lbm_heap_state_t) (res : Z) :
  heap_ok hs -> DEFRAG_MEM_FLAGS p = 0 ->
  lbm_defrag_mem_alloc p hs bytes = Some (p', hs', res) ->
  lbm_is_symbol res = false ->
  exists fs i fl,
    alloc_place p bytes = Some (true, fs)
    /\ freelist hs = i :: fl
    /\ res = lbm_set_ptr_type (16 * Z.of_nat i) LBM_TYPE_ARRAY
    /\ p' = set_mem_data
              (set_mem_data (set_mem_data p fs bytes) (fs + 1)
                            (addr_of_data p (fs + 3)))
              (fs + 2) (Z.of_nat i)
    /\ hs' = mk_heap (<[i := mk_cons (addr_of_data p fs) ENC_SYM_DEFRAG_ARRAY_TYPE]>
                        (heap hs)) fl.
Proof.
  intros Hh Hf Ha Hres. unfold lbm_defrag_mem_alloc in Ha.
  unfold lbm_heap_allocate_cell in Ha.
  destruct (freelist hs) as [|i fl] eqn:Hfl.
  { exfalso. change (lbm_is_symbol ENC_SYM_MERROR) with true in Ha.
    cbn in Ha. simplify_eq. }
  unfold heap_ok in Hh. rewrite Hfl in Hh. apply Forall_cons in Hh as [[Hi Hi28] _].
  destruct (cons_ptr_bits (Z.of_nat i) ltac:(lia)) as (E1 & E2 & E3 & E4).
  rewrite E1 in Ha.
  assert (Hsym : lbm_is_symbol (16 * Z.of_nat i) = false).
  { unfold lbm_is_symbol. rewrite E3. done. }
  rewrite Hsym, Hf in Ha. cbn -[alloc_scan] in Ha.
  fold (alloc_place p bytes) in Ha.
  destruct (alloc_place p bytes) as [[found fs]|] eqn:Hp;
    cbn -[alloc_scan] in Ha; [|done].
  destruct found; simplify_eq.
  exists fs, i, fl. split; [done|]. split; [done|]. split; [done|].
  rewrite E4. split; [done|].
  unfold lbm_set_car. rewrite E3, Z.eqb_refl. unfold lbm_ref_cell. rewrite E4.
  cbn [heap freelist]. rewrite Nat2Z.id.
  rewrite list_lookup_insert_eq by done. cbn [cdr].
  rewrite list_insert_insert_eq. done.
Qed.

(** The cell of a new record. *)
Lemma alloc_success_cell (p : defrag_mem_t) (hs : lbm_heap_state_t)
    (bytes : Z) (p' : defrag_mem_t) (hs' : lbm_heap_state_t) (res : Z) :
  block_ok p -> heap_ok hs ->
  DEFRAG_MEM_FLAGS p = 0 -> 0 <= bytes < 2 ^ 32 ->
  lbm_defrag_mem_alloc p hs bytes = Some (p', hs', res) ->
  lbm_is_symbol res = false ->
  exists fs,
    alloc_place p bytes = Some (true, fs)
    /\ linked_back p' hs' fs = true
    /\ lbm_type_of res = LBM_TYPE_ARRAY
    /\ lbm_ref_cell hs' res
       = Some (mk_cons (addr_of_data p' fs) ENC_SYM_DEFRAG_ARRAY_TYPE).
Proof.
  intros Hok Hh Hf Hb Ha Hres.
  destruct (alloc_success_heap _ _ _ _ _ _ Hh Hf Ha Hres)
    as (fs & i & fl & Hp & Hfl & -> & -> & ->).
  exists fs. split; [done|].
  unfold heap_ok in Hh. rewrite Hfl in Hh. apply Forall_cons in Hh as [[Hi Hi28] _].
  destruct (cons_ptr_bits (Z.of_nat i) ltac:(lia)) as (E1 & E2 & E3 & E4).
  destruct (alloc_scan_sound p bytes fs (block_ok_size p Hok) Hb Hp)
    as (Hfs & Hend & Hzero).
  pose proof (bs2ws_bounds bytes ltac:(lia)) as Hr.
  unfold sizeof_lbm_uint in Hr.
  assert (Hcell : forall q, pool_addr q = pool_addr p ->
            lbm_ref_cell
              (mk_heap (<[i := mk_cons (addr_of_data p fs) ENC_SYM_DEFRAG_ARRAY_TYPE]>
                          (heap hs)) fl) (16 * Z.of_nat i)
            = Some (mk_cons (addr_of_data q fs) ENC_SYM_DEFRAG_ARRAY_TYPE)).
  { intros q Hq. unfold lbm_ref_cell. rewrite E4, Nat2Z.id. cbn [heap].
    rewrite list_lookup_insert_eq by done. unfold addr_of_data. by rewrite Hq. }
  split; [|split].
  - unfold linked_back, back_ptr_cell.
    rewrite mem_data_set_eq;
      [|lia|rewrite !length_set_mem_data; apply block_ok_length; [done|lia]].
    rewrite E2, (Hcell _ eq_refl). cbn [car]. apply Z.eqb_refl.
  - unfold lbm_type_of, lbm_set_ptr_type, LBM_TYPE_ARRAY.
    rewrite Z.land_lor_distr_l. change 15 with (Z.ones 4).
    rewrite !Z.land_ones by lia. rewrite Z.shiftl_mul_pow2 by lia.
    rewrite Z.mod_mul by lia. done.
  - unfold lbm_ref_cell at 1.
    rewrite dec_ptr_set_ptr_type by (unfold LBM_TYPE_ARRAY; lia).
    fold (lbm_ref_cell
            (mk_heap (<[i := mk_cons (addr_of_data p fs) ENC_SYM_DEFRAG_ARRAY_TYPE]>
                        (heap hs)) fl) (16 * Z.of_nat i)).
    by apply Hcell.
Qed.

Lemma pool_ext (p q : defrag_mem_t) :
  pool_addr p = pool_addr q ->
  length (pool_words p) = length (pool_words q) ->
  DEFRAG_MEM_SIZE p = DEFRAG_MEM_SIZE q ->
  DEFRAG_MEM_FLAGS p = DEFRAG_MEM_FLAGS q ->
  (forall j, 0 <= j -> mem_data p j = mem_data q j) ->
  p = q.
Proof.
  destruct p as [a ws], q as [b vs]. cbn. intros -> Hl Hs Hf Hd. f_equal.
  apply list_eq_same_length with (length ws); [done..|].
  intros k x y Hk Hx Hy.
  assert (rd ws (Z.of_nat k) = rd vs (Z.of_nat k)) as Hrd.
  { destruct k as [|[|k]]; [done..|].
    specialize (Hd (Z.of_nat k) ltac:(lia)). unfold mem_data in Hd. cbn in Hd.
    unfold DEFRAG_MEM_HEADER_SIZE in Hd.
    by replace (2 + Z.of_nat k) with (Z.of_nat (S (S k))) in Hd by lia. }
  unfold rd in Hrd. rewrite Nat2Z.id, Hx, Hy in Hrd. done.
Qed.

(** X10.  Allocating an array and releasing it with
    [lbm_defrag_mem_free], through the address kept in the [car] of its
    cell, gives back the pool as it was before the allocation. *)
Theorem alloc_then_free (p : defrag_mem_t) (hs : lbm_heap_state_t)
    (bytes : Z) (p' : defrag_mem_t) (hs' : lbm_heap_state_t) (res : Z)
    (c : lbm_cons_t) :
  block_ok p -> heap_ok hs ->
  DEFRAG_MEM_FLAGS p = 0 -> 0 <= bytes < 2 ^ 32 ->
  lbm_defrag_mem_alloc p hs bytes = Some (p', hs', res) ->
  lbm_is_symbol res = false ->
  lbm_ref_cell hs' res = Some c ->
  lbm_defrag_mem_free p' (car c) = p.
Proof.
  intros Hok Hh Hf Hb Ha Hres Hc.
  destruct (alloc_success_cell _ _ _ _ _ _ Hok Hh Hf Hb Ha Hres)
    as (fs & Hp & _ & _ & Hcell).
  rewrite Hcell in Hc. injection Hc as <-. cbn [car].
  destruct (alloc_success_pool _ _ _ _ _ _ Hok Hf Hb Ha Hres)
    as (fs' & Hp' & (Hfs & Hend) & Hzero & (W0 & W1 & W2) & Hout & Hsz & Hfl).
  assert (fs' = fs) as -> by congruence.
  pose proof (bs2ws_bounds bytes ltac:(lia)) as Hr.
  unfold sizeof_lbm_uint in Hr.
  destruct (alloc_success_heap _ _ _ _ _ _ Hh Hf Ha Hres)
    as (fs' & i & fl & Hp'' & _ & _ & Ep & _).
  assert (fs' = fs) as -> by congruence.
  assert (Haddr : pool_addr p' = pool_addr p) by (by rewrite Ep).
  assert (Hlen : length (pool_words p') = length (pool_words p)).
  { rewrite Ep. by rewrite !length_set_mem_data. }
  assert (Hok' : block_ok p').
  { destruct Hok as (A & B & C & D). unfold block_ok.
    rewrite Hsz, Hlen, Haddr. done. }
  pose proof (free_record_words p' fs Hok' Hfs) as Hfree.
  rewrite W0 in Hfree. cbv zeta in Hfree.
  destruct (Hfree ltac:(lia) ltac:(lia)) as (Z0 & Zout & Zsz & Zfl).
  apply pool_ext.
  - unfold lbm_defrag_mem_free, memset0. cbn. done.
  - unfold lbm_defrag_mem_free.
    rewrite data_index_addr by (done || lia).
    pose proof (header_memset0 p' fs (wrap (3 + bs2ws (mem_data p' fs))) Hfs)
      as (_ & _ & L).
    congruence.
  - congruence.
  - congruence.
  - intros j Hj.
    destruct (Z_lt_dec j fs) as [H1|H1];
      [rewrite Zout by lia; apply Hout; lia|].
    destruct (Z_lt_dec j (fs + (3 + bs2ws bytes))) as [H2|H2].
    + rewrite Z0 by lia. symmetry. apply Hzero. lia.
    + rewrite Zout by lia. apply Hout; lia.
Qed.


Lemma mem_data_range (p : defrag_mem_t) (i : Z) :
  words_ok p -> 0 <= mem_data p i < 2 ^ 32.
Proof.
  intros Hw. unfold mem_data, rd.
  destruct (pool_words p !! _) as [w|] eqn:E; cbn; [|lia].
  eapply (Forall_lookup_1 _ _ _ _ Hw E).
Qed.

Lemma bs2ws_bound (w : Z) : 0 <= w < 2 ^ 32 -> 0 <= bs2ws w <= 2 ^ 30.
Proof.
  intros Hw. unfold bs2ws, sizeof_lbm_uint.
  pose proof (Z.div_mod w 4 ltac:(lia)). pose proof (Z.mod_pos_bound w 4 ltac:(lia)).
  case_match; [lia|].
  apply Z.eqb_neq in H1. lia.
Qed.




















Lemma defrag_loop_zeros (fuel : nat) (p : defrag_mem_t) (hs : lbm_heap_state_t)
    (ms i hole : Z) :
  ms <= 2 ^ 30 -> 0 <= i ->
  (forall j, i <= j -> mem_data p j = 0) ->
  (Z.to_nat (ms - i) <= fuel)%nat ->
  defrag_loop fuel p hs ms i hole = Some (p, hs).
Proof.
  intros Hms. revert i. induction fuel as [|fuel IH]; intros i Hi Hz Hfuel.
  - cbn. destruct (Z.ltb_spec i ms); [lia|done].
  - cbn [defrag_loop]. destruct (Z.ltb_spec i ms); [|done].
    rewrite (Hz i) by lia. cbn. rewrite wrap_small by lia.
    apply IH; [lia| |lia]. intros j Hj. apply Hz. lia.
Qed.

Lemma defrag_loop_chain (p : defrag_mem_t) (hs : lbm_heap_state_t) (i k : Z) :
  chain p i k ->
  forall fuel, DEFRAG_MEM_SIZE p <= 2 ^ 30 -> words_ok p -> 0 <= i ->
  (forall j, k <= j -> mem_data p j = 0) ->
  (Z.to_nat (DEFRAG_MEM_SIZE p - i) <= fuel)%nat ->
  defrag_loop fuel p hs (DEFRAG_MEM_SIZE p) i i = Some (p, hs).
Proof.
  induction 1 as [i|i k Hnz Hch IH]; intros fuel Hms Hw Hi Hz Hfuel.
  - by apply defrag_loop_zeros.
  - destruct fuel as [|fuel].
    + cbn. destruct (Z.ltb_spec i (DEFRAG_MEM_SIZE p)); [lia|done].
    + cbn [defrag_loop]. destruct (Z.ltb_spec i (DEFRAG_MEM_SIZE p)); [|done].
      pose proof (mem_data_range p i Hw) as Hr.
      pose proof (bs2ws_bound _ Hr) as Hbw.
      destruct (Z.eqb_spec (mem_data p i) 0) as [|_]; [done|]. cbn [negb].
      rewrite Z.eqb_refl. rewrite wrap_small by lia.
      apply IH; [done|done|lia|done|lia].
Qed.

(** X12.  [lbm_defrag_mem_defrag] changes nothing, in the pool or in
    the heap, when no record has a hole before it. *)
Theorem defrag_packed_unchanged (p : defrag_mem_t) (hs : lbm_heap_state_t)
    (k : Z) :
  block_ok p -> words_ok p -> packed p k ->
  lbm_defrag_mem_defrag p hs = Some (p, hs).
Proof.
  intros Hok Hw [Hch Hz]. pose proof Hok as (_ & _ & Ha & Hb).
  unfold sizeof_lbm_uint, DEFRAG_MEM_HEADER_SIZE in Hb.
  unfold lbm_defrag_mem_defrag. fold (DEFRAG_MEM_SIZE p).
  apply (defrag_loop_chain p hs 0 k Hch); [lia|done|lia|done|lia].
Qed.

Lemma alloc_scan_zeros (fuel : nat) (p : defrag_mem_t) (ms aw i fs : Z) :
  ms <= 2 ^ 30 -> 0 <= fs -> fs < i ->
  i - fs < aw -> fs + aw <= ms ->
  (forall j, fs <= j < fs + aw -> mem_data p j = 0) ->
  (Z.to_nat (fs + aw - i) <= fuel)%nat ->
  alloc_scan fuel p ms aw FREE_LEN i (i - fs) fs = Some (true, fs).
Proof.
  intros Hms Hfs. revert i. induction fuel as [|fuel IH]; intros i Hi Hlt Hfit Hz Hfuel.
  - lia.
  - cbn [alloc_scan]. destruct (Z.ltb_spec i ms); [|lia].
    rewrite (Hz i) by lia. cbn. rewrite wrap_small by lia.
    destruct (Z.leb_spec aw (i - fs + 1)); [done|].
    rewrite wrap_small by lia.
    replace (i - fs + 1) with (i + 1 - fs) by lia.
    apply IH; [lia|lia|done|done|lia].
Qed.

(** X7.  First fit: when the first [bs2ws bytes + 3] words of the pool
    are zero, the search of [lbm_defrag_mem_alloc] places the record at
    index 0. *)
Theorem alloc_first_fit_at_start (p : defrag_mem_t) (bytes : Z) :
  block_ok p -> 0 <= bytes < 2 ^ 32 ->
  bs2ws bytes + 3 <= DEFRAG_MEM_SIZE p ->
  (forall j, 0 <= j < bs2ws bytes + 3 -> mem_data p j = 0) ->
  alloc_place p bytes = Some (true, 0).
Proof.
  intros Hok Hb Hfit Hz. pose proof Hok as (_ & _ & Ha & Hbd).
  unfold sizeof_lbm_uint, DEFRAG_MEM_HEADER_SIZE in Hbd.
  pose proof (bs2ws_bound bytes Hb) as Hbw.
  unfold alloc_place. rewrite wrap_small by lia.
  cbn [alloc_scan]. destruct (Z.ltb_spec 0 (DEFRAG_MEM_SIZE p)); [|lia].
  rewrite (Hz 0) by lia. cbn. rewrite wrap_small by lia.
  change 1 with (1 - 0) at 2.
  apply alloc_scan_zeros; [lia|lia|lia|lia|lia| |lia].
  intros j Hj. apply Hz. lia.
Qed.


(** X2.  [bs2ws] rounds a byte count up to whole words: the words hold
    the bytes, with less than one word to spare. *)
Theorem bs2ws_rounds_up (bs : Z) :
  0 <= bs ->
  bs <= sizeof_lbm_uint * bs2ws bs < bs + sizeof_lbm_uint.
Proof.
  intros Hbs. unfold bs2ws, sizeof_lbm_uint.
  pose proof (Z.div_mod bs 4 ltac:(lia)) as Hdm.
  pose proof (Z.mod_pos_bound bs 4 ltac:(lia)) as Hm.
  destruct (Z.eqb_spec (bs mod 4) 0) as [E|E]; lia.
Qed.

Lemma bs2ws_rounds_up_witness :
  5 <= sizeof_lbm_uint * bs2ws 5 < 5 + sizeof_lbm_uint.
Proof. apply (bs2ws_rounds_up 5). lia. Defined.

(** X4.  A successful [lbm_defrag_mem_alloc] on a pool whose compaction
    flag is clear places the record on [bs2ws bytes + 3] words inside
    the pool that were all zero, writes the three header words (the
    size in bytes, the address of the data, the index of the cell) and
    changes no other data word, nor the size and flags of the pool. *)
Theorem alloc_writes_header_only (p : defrag_mem_t) (hs : lbm_heap_state_t)
    (bytes : Z) (p' : defrag_mem_t) (hs' : lbm_heap_state_t) (res : Z) :
  block_ok p -> DEFRAG_MEM_FLAGS p = 0 -> 0 <= bytes < 2 ^ 32 ->
  lbm_defrag_mem_alloc p hs bytes = Some (p', hs', res) ->
  lbm_is_symbol res = false ->
  exists fs,
    alloc_place p bytes = Some (true, fs)
    /\ (0 <= fs /\ fs + (bs2ws bytes + 3) <= DEFRAG_MEM_SIZE p)
    /\ (forall j, fs <= j < fs + (bs2ws bytes + 3) -> mem_data p j = 0)
    /\ (mem_data p' fs = bytes
        /\ mem_data p' (fs + 1) = addr_of_data p (fs + 3)
        /\ mem_data p' (fs + 2) = lbm_dec_ptr res)
    /\ (forall j, 0 <= j -> ~ (fs <= j < fs + 3) -> mem_data p' j = mem_data p j)
    /\ (DEFRAG_MEM_SIZE p' = DEFRAG_MEM_SIZE p /\ DEFRAG_MEM_FLAGS p' = 0).
Proof.
  intros Hok Hf Hb Ha Hres.
  destruct (alloc_cases _ _ _ _ _ _ Hf Ha)
    as [[Hsym _]|[(fs & _ & -> & _)|(fs & cell & Hp & Hc & -> & ->)]].
  - congruence.
  - vm_compute in Hres. discriminate.
  - exists fs. split; [done|].
    destruct (alloc_scan_sound p bytes fs (block_ok_size p Hok) Hb Hp)
      as (Hfs & Hend & Hzero).
    pose proof (bs2ws_bounds bytes ltac:(lia)) as Hr.
    unfold sizeof_lbm_uint in Hr.
    split; [done|]. split; [done|]. split; [|split].
    + split; [|split].
      * rewrite !mem_data_set_ne by lia.
        apply mem_data_set_eq; [lia|]. apply block_ok_length; [done|lia].
      * rewrite mem_data_set_ne by lia.
        apply mem_data_set_eq; [lia|]. rewrite length_set_mem_data.
        apply block_ok_length; [done|lia].
      * rewrite dec_ptr_set_ptr_type by (unfold LBM_TYPE_ARRAY; lia).
        apply mem_data_set_eq; [lia|]. rewrite !length_set_mem_data.
        apply block_ok_length; [done|lia].
    + intros j Hj Hout. rewrite !mem_data_set_ne by lia. done.
    + pose proof (header_set_mem_data p fs bytes ltac:(lia)) as [A1 A2].
      pose proof (header_set_mem_data (set_mem_data p fs bytes) (fs + 1)
                    (addr_of_data p (fs + 3)) ltac:(lia)) as [B1 B2].
      pose proof (header_set_mem_data
                    (set_mem_data (set_mem_data p fs bytes) (fs + 1)
                                  (addr_of_data p (fs + 3)))
                    (fs + 2) (lbm_dec_ptr cell) ltac:(lia)) as [C1 C2].
      split; congruence.
Qed.

Ltac decided := apply (bool_decide_unpack _); vm_compute; reflexivity.

Lemma sample_alloc :
  lbm_defrag_mem_alloc sample_pool empty_heap 16
  = Some (one_array.1.1, one_array.1.2, one_array.2).
Proof. vm_compute. reflexivity. Qed.

Lemma alloc_writes_header_only_witness :
  exists fs,
    alloc_place sample_pool 16 = Some (true, fs)
    /\ mem_data one_array.1.1 fs = 16
    /\ mem_data one_array.1.1 (fs + 1) = addr_of_data sample_pool (fs + 3).
Proof.
  assert (Hok : block_ok sample_pool) by decided.
  assert (Hf : DEFRAG_MEM_FLAGS sample_pool = 0) by (vm_compute; reflexivity).
  assert (Hb : 0 <= 16 < 2 ^ 32) by lia.
  assert (Hr : lbm_is_symbol one_array.2 = false) by (vm_compute; reflexivity).
  destruct (alloc_writes_header_only _ _ _ _ _ _ Hok Hf Hb sample_alloc Hr)
    as (fs & Hp & _ & _ & (W0 & W1 & _) & _).
  exists fs. split; [exact Hp|]. split; [exact W0|exact W1].
Defined.

Lemma alloc_failure_keeps_data_witness :
  (forall j, 0 <= j -> mem_data too_large.1.1 j = mem_data sample_pool j)
  /\ DEFRAG_MEM_SIZE too_large.1.1 = DEFRAG_MEM_SIZE sample_pool.
Proof.
  assert (Hf : DEFRAG_MEM_FLAGS sample_pool = 0) by (vm_compute; reflexivity).
  assert (Ha : lbm_defrag_mem_alloc sample_pool empty_heap 200
               = Some (too_large.1.1, too_large.1.2, too_large.2))
    by (vm_compute; reflexivity).
  assert (Hr : lbm_is_symbol too_large.2 = true) by (vm_compute; reflexivity).
  destruct (alloc_failure_keeps_data _ _ _ _ _ _ Hf Ha Hr) as (Hd & Hs & _).
  split; [exact Hd|exact Hs].
Defined.

(** X6.  The record a successful [lbm_defrag_mem_alloc] creates is
    linked back: the cell its third header word names holds the address
    of the record in its [car] and the type symbol of pool arrays in
    its [cdr], and the value returned is an array pointer to that
    cell. *)
Theorem alloc_links_record (p : defrag_mem_t) (hs : lbm_heap_state_t)
    (bytes : Z) (p' : defrag_mem_t) (hs' : lbm_heap_state_t) (res : Z) :
  block_ok p -> heap_ok hs ->
  DEFRAG_MEM_FLAGS p = 0 -> 0 <= bytes < 2 ^ 32 ->
  lbm_defrag_mem_alloc p hs bytes = Some (p', hs', res) ->
  lbm_is_symbol res = false ->
  exists fs,
    alloc_place p bytes = Some (true, fs)
    /\ linked_back p' hs' fs = true
    /\ lbm_type_of res = LBM_TYPE_ARRAY
    /\ lbm_ref_cell hs' res
       = Some (mk_cons (addr_of_data p' fs) ENC_SYM_DEFRAG_ARRAY_TYPE).
Proof.
  intros Hok Hh Hf Hb Ha Hres.
  destruct (alloc_success_heap _ _ _ _ _ _ Hh Hf Ha Hres)
    as (fs & i & fl & Hp & Hfl & -> & -> & ->).
  exists fs. split; [done|].
  unfold heap_ok in Hh. rewrite Hfl in Hh. apply Forall_cons in Hh as [[Hi Hi28] _].
  destruct (cons_ptr_bits (Z.of_nat i) ltac:(lia)) as (E1 & E2 & E3 & E4).
  destruct (alloc_scan_sound p bytes fs (block_ok_size p Hok) Hb Hp)
    as (Hfs & Hend & Hzero).
  pose proof (bs2ws_bounds bytes ltac:(lia)) as Hr.
  unfold sizeof_lbm_uint in Hr.
  assert (Hcell : forall q, pool_addr q = pool_addr p ->
            lbm_ref_cell
              (mk_heap (<[i := mk_cons (addr_of_data p fs) ENC_SYM_DEFRAG_ARRAY_TYPE]>
                          (heap hs)) fl) (16 * Z.of_nat i)
            = Some (mk_cons (addr_of_data q fs) ENC_SYM_DEFRAG_ARRAY_TYPE)).
  { intros q Hq. unfold lbm_ref_cell. rewrite E4, Nat2Z.id. cbn [heap].
    rewrite list_lookup_insert_eq by done. unfold addr_of_data. by rewrite Hq. }
  split; [|split].
  - unfold linked_back, back_ptr_cell.
    rewrite mem_data_set_eq;
      [|lia|rewrite !length_set_mem_data; apply block_ok_length; [done|lia]].
    rewrite E2, (Hcell _ eq_refl). cbn [car]. apply Z.eqb_refl.
  - unfold lbm_type_of, lbm_set_ptr_type, LBM_TYPE_ARRAY.
    rewrite Z.land_lor_distr_l. change 15 with (Z.ones 4).
    rewrite !Z.land_ones by lia. rewrite Z.shiftl_mul_pow2 by lia.
    rewrite Z.mod_mul by lia. done.
  - unfold lbm_ref_cell at 1.
    rewrite dec_ptr_set_ptr_type by (unfold LBM_TYPE_ARRAY; lia).
    fold (lbm_ref_cell
            (mk_heap (<[i := mk_cons (addr_of_data p fs) ENC_SYM_DEFRAG_ARRAY_TYPE]>
                        (heap hs)) fl) (16 * Z.of_nat i)).
    by apply Hcell.
Qed.

Lemma alloc_links_record_witness :
  exists fs,
    alloc_place sample_pool 16 = Some (true, fs)
    /\ linked_back one_array.1.1 one_array.1.2 fs = true.
Proof.
  assert (Hok : block_ok sample_pool) by decided.
  assert (Hh : heap_ok empty_heap) by decided.
  assert (Hf : DEFRAG_MEM_FLAGS sample_pool = 0) by (vm_compute; reflexivity).
  assert (Hb : 0 <= 16 < 2 ^ 32) by lia.
  assert (Hr : lbm_is_symbol one_array.2 = false) by (vm_compute; reflexivity).
  destruct (alloc_links_record _ _ _ _ _ _ Hok Hh Hf Hb sample_alloc Hr)
    as (fs & Hp & Hl & _).
  exists fs. split; [exact Hp|exact Hl].
Defined.

Lemma mem_data_zero_tail (p : defrag_mem_t) (k : Z) :
  forallb (Z.eqb 0) (drop (Z.to_nat (DEFRAG_MEM_HEADER_SIZE + k)) (pool_words p))
  = true ->
  0 <= k -> forall j, k <= j -> mem_data p j = 0.
Proof.
  intros Hall Hk j Hj. unfold mem_data, rd.
  destruct (pool_words p !! Z.to_nat (DEFRAG_MEM_HEADER_SIZE + j)) as [w|] eqn:E;
    [|done].
  cbn. rewrite forallb_forall in Hall. symmetry. apply Z.eqb_eq, Hall.
  apply list_elem_of_In.
  apply (list_elem_of_lookup_2 _ (Z.to_nat (j - k))).
  rewrite lookup_drop. rewrite <- E. f_equal.
  unfold DEFRAG_MEM_HEADER_SIZE. lia.
Qed.

Lemma alloc_first_fit_at_start_witness :
  alloc_place sample_pool 16 = Some (true, 0).
Proof.
  apply (alloc_first_fit_at_start sample_pool 16).
  - decided.
  - lia.
  - vm_compute. discriminate.
  - intros j Hj. apply (mem_data_zero_tail sample_pool 0); [|lia|lia].
    vm_compute. reflexivity.
Defined.


(** X9.  [lbm_defrag_mem_free] on the address of a record wipes the
    [3 + bs2ws size] words of that record, header included, and no
    other word of the block. *)
Theorem free_wipes_record (p : defrag_mem_t) (i : Z) :
  block_ok p ->
  0 <= i -> 0 <= mem_data p i ->
  i + (3 + bs2ws (mem_data p i)) <= DEFRAG_MEM_SIZE p ->
  let p' := lbm_defrag_mem_free p (addr_of_data p i) in
  (forall j, i <= j < i + (3 + bs2ws (mem_data p i)) -> mem_data p' j = 0)
  /\ (forall j, 0 <= j -> ~ (i <= j < i + (3 + bs2ws (mem_data p i))) ->
        mem_data p' j = mem_data p j)
  /\ DEFRAG_MEM_SIZE p' = DEFRAG_MEM_SIZE p
  /\ DEFRAG_MEM_FLAGS p' = DEFRAG_MEM_FLAGS p.
Proof.
  intros Hok Hi Hsz Hfit p'. subst p'. unfold lbm_defrag_mem_free.
  pose proof (bs2ws_nonneg _ Hsz) as Hn.
  pose proof Hok as (Hs & Hlen & Ha & Hb).
  unfold sizeof_lbm_uint, DEFRAG_MEM_HEADER_SIZE in *.
  rewrite data_index_addr by (done || lia).
  rewrite wrap_small by lia.
  split; [|split].
  - intros j Hj. apply mem_data_memset0_in; unfold DEFRAG_MEM_HEADER_SIZE; lia.
  - intros j Hj Hout. by apply mem_data_memset0_out.
  - pose proof (header_memset0 p i (3 + bs2ws (mem_data p i)) Hi) as (A & B & _).
    done.
Qed.

Lemma free_wipes_record_witness :
  mem_data (lbm_defrag_mem_free one_array.1.1 (addr_of_data one_array.1.1 0)) 0
  = 0
  /\ DEFRAG_MEM_SIZE
       (lbm_defrag_mem_free one_array.1.1 (addr_of_data one_array.1.1 0))
     = DEFRAG_MEM_SIZE one_array.1.1.
Proof.
  assert (Hok : block_ok one_array.1.1) by decided.
  assert (H0 : 0 <= 0) by lia.
  assert (Hs : 0 <= mem_data one_array.1.1 0) by (vm_compute; discriminate).
  assert (Hfit : 0 + (3 + bs2ws (mem_data one_array.1.1 0))
                 <= DEFRAG_MEM_SIZE one_array.1.1)
    by (vm_compute; discriminate).
  assert (Hr : 0 <= 0 < 0 + (3 + bs2ws (mem_data one_array.1.1 0)))
    by (split; vm_compute; [discriminate|reflexivity]).
  destruct (free_wipes_record one_array.1.1 0 Hok H0 Hs Hfit)
    as (Hz & _ & Hsz & _).
  split; [exact (Hz 0 Hr)|exact Hsz].
Defined.

Lemma alloc_then_free_witness :
  lbm_defrag_mem_free one_array.1.1
    (car (default nil_cell (lbm_ref_cell one_array.1.2 one_array.2)))
  = sample_pool.
Proof.
  assert (Hok : block_ok sample_pool) by decided.
  assert (Hh : heap_ok empty_heap) by decided.
  assert (Hf : DEFRAG_MEM_FLAGS sample_pool = 0) by (vm_compute; reflexivity).
  assert (Hb : 0 <= 16 < 2 ^ 32) by lia.
  assert (Hr : lbm_is_symbol one_array.2 = false) by (vm_compute; reflexivity).
  assert (Hc : lbm_ref_cell one_array.1.2 one_array.2
               = Some (default nil_cell (lbm_ref_cell one_array.1.2 one_array.2)))
    by (vm_compute; reflexivity).
  exact (alloc_then_free _ _ _ _ _ _ _ Hok Hh Hf Hb sample_alloc Hr Hc).
Defined.



Lemma defrag_packed_unchanged_witness :
  lbm_defrag_mem_defrag one_array.1.1 one_array.1.2
  = Some (one_array.1.1, one_array.1.2).
Proof.
  assert (Hok : block_ok one_array.1.1) by decided.
  assert (Hw : words_ok one_array.1.1) by decided.
  assert (Hn : mem_data one_array.1.1 0 <> 0) by (vm_compute; discriminate).
  assert (Hk : 0 + (bs2ws (mem_data one_array.1.1 0) + 3) = 7)
    by (vm_compute; reflexivity).
  assert (Hp : packed one_array.1.1 7).
  { split.
    - apply chain_step; [exact Hn|]. rewrite Hk. apply chain_end.
    - apply mem_data_zero_tail; [vm_compute; reflexivity|lia]. }
  exact (defrag_packed_unchanged one_array.1.1 one_array.1.2 7 Hok Hw Hp).
Defined.



End DefragMemMoreFacts.

(** ** Evaluator: values of forms and programs, invariants of the loop *)

Module EvalCpsMoreFacts.
Import EvalCps EvalCpsMore.

Section Facts.
Context {Heap : Type} `{!Runtime Heap}.

Lemma is_type_eq v t : type_of v = t -> is_type v t = true.
Proof. intros. unfold is_type. by apply bool_decide_eq_true. Qed.

Lemma is_type_ne v t : type_of v <> t -> is_type v t = false.
Proof. intros. unfold is_type. by apply bool_decide_eq_false. Qed.

Lemma world_eta (w : @world Heap) :
  mk_world (mk_ctx (program (ctx w)) (curr_exp (ctx w)) (curr_env (ctx w))
                   (K (ctx w)))
           (heap w) (eval_cps_global_env w) = w.
Proof. by destruct w as [[] ? ?]. Qed.

Lemma loop_more n fuel (s t : loop_state) :
  done (lf s) = false ->
  run_eval_iter fuel s = Some t ->
  run_eval_loop (S n) fuel s = run_eval_loop n fuel t.
Proof. intros Hd Hi. cbn. by rewrite Hd, Hi. Qed.

Lemma loop_end n fuel (s : loop_state) :
  done (lf s) = true -> run_eval_loop n fuel s = Some s.
Proof. intros Hd. destruct n; cbn; by rewrite Hd. Qed.

(** A round that finds no collection request evaluates or continues. *)
Lemma iter_plain fuel (s : loop_state) :
  perform_gc (lf s) = false ->
  run_eval_iter fuel s
  = eval_step fuel (mk_loop (lw s) (r s) (lf s) (wrap (non_gc s + 1))).
Proof. intros Hg. unfold run_eval_iter. by rewrite Hg. Qed.

Lemma dispatch_self_evaluating fuel (w : world) (r0 : VALUE) (fl : flags) :
  self_evaluating (curr_exp (ctx w)) = true ->
  eval_dispatch fuel w r0 fl
  = Some (w, curr_exp (ctx w), mk_flags (done fl) (perform_gc fl) true).
Proof.
  unfold self_evaluating, eval_dispatch. intros Hs.
  destruct (type_of (curr_exp (ctx w))); done.
Qed.

Lemma continue_done fuel (w : world) (arg k : VALUE) (K1 : list VALUE) (fl : flags) :
  K (ctx w) = k :: K1 -> dec_u k = DONE ->
  apply_continuation fuel w arg fl
  = Some (arg, set_K w K1, mk_flags true (perform_gc fl) false).
Proof.
  intros HK Hk. unfold apply_continuation. rewrite HK. cbn. rewrite Hk. done.
Qed.

(** A state that holds a value and has the [DONE] frame on top ends the
    loop with that value. *)
Lemma loop_return n fuel (w : world) (v k : VALUE) (K1 : list VALUE) (c : Z) :
  K (ctx w) = k :: K1 -> dec_u k = DONE ->
  run_eval_loop (S n) fuel (mk_loop w v (mk_flags false false true) c)
  = Some (mk_loop (set_K w K1) v (mk_flags true false false) (wrap (c + 1))).
Proof.
  intros HK Hk. erewrite loop_more; [|done|].
  2: { rewrite iter_plain by done. unfold eval_step. cbn.
       rewrite (continue_done fuel w v k K1 _ HK Hk). cbn. reflexivity. }
  by apply loop_end.
Qed.

Lemma loop_mono n m fuel (s t : loop_state) :
  run_eval_loop n fuel s = Some t -> run_eval_loop (n + m) fuel s = Some t.
Proof.
  revert s. induction n as [|n IH]; intros s; cbn [run_eval_loop].
  - destruct (done (lf s)) eqn:Hd; [|done]. intros [= <-]. by apply loop_end.
  - destruct (done (lf s)) eqn:Hd.
    + intros [= <-]. change (S n + m)%nat with (S (n + m)). cbn. by rewrite Hd.
    + change (S n + m)%nat with (S (n + m)). cbn [run_eval_loop]. rewrite Hd.
      destruct (run_eval_iter fuel s) as [s'|]; cbn; [apply IH|done].
Qed.

Ltac ids H :=
  unfold special_ids_distinct in H;
  repeat match goal with
  | Hn : NoDup (_ :: _) |- _ => apply NoDup_cons in Hn as [? Hn]
  end;
  repeat match goal with
  | Hn : _ ∉ _ :: _ |- _ => apply not_elem_of_cons in Hn as [? Hn]
  end.

Ltac head_is s :=
  match goal with
  | Ht : type_of ?hd = VAL_TYPE_SYMBOL, Hd : dec_sym ?hd = s |- _ =>
      rewrite !(is_type_eq _ _ Ht), !Hd
  end;
  repeat match goal with
  | |- context [?a =? ?a] => rewrite (Z.eqb_refl a)
  | Hne : ?a <> ?b |- context [?a =? ?b] =>
      rewrite (proj2 (Z.eqb_neq a b) Hne)
  | Hne : ?b <> ?a |- context [?a =? ?b] =>
      rewrite (proj2 (Z.eqb_neq a b) (not_eq_sym Hne))
  end;
  cbn [andb].

Lemma dispatch_quote fuel (w : world) (r0 : VALUE) (fl : flags) :
  special_form (heap w) (curr_exp (ctx w)) symrepr_quote ->
  eval_dispatch fuel w r0 fl
  = Some (w, car (heap w) (cdr (heap w) (curr_exp (ctx w))),
          mk_flags (done fl) (perform_gc fl) true).
Proof.
  intros (Hc & Ht & Hd). unfold eval_dispatch. rewrite Hc.
  head_is symrepr_quote. done.
Qed.

(** X15.  [(quote x)] evaluates to [x], unevaluated, and leaves the
    context, the heap and the global environment as they were. *)
Theorem quote_value (n fuel : nat) (w : world) :
  tag_decodes DONE ->
  special_form (heap w) (curr_exp (ctx w)) symrepr_quote ->
  run_eval (S (S n)) fuel w
  = Some (car (heap w) (cdr (heap w) (curr_exp (ctx w))), w).
Proof.
  intros Hk Hs. unfold run_eval, run_eval_init.
  erewrite loop_more; [|done|].
  2: { rewrite iter_plain by done. unfold eval_step. cbn.
       rewrite dispatch_quote by done. cbn. reflexivity. }
  erewrite loop_return; [|cbn; reflexivity|exact Hk].
  by destruct w as [[] ? ?].
Qed.

(** X16.  A symbol is looked up in the local environment first and in
    the global environment next, so that a local binding shadows a
    global one; a symbol bound in neither is the evaluation error, and
    [run_eval] then returns with its [DONE] frame still on the
    stack. *)
Theorem symbol_lookup_order (n fuel : nat) (w : world) :
  tag_decodes DONE ->
  type_of (curr_exp (ctx w)) = VAL_TYPE_SYMBOL ->
  run_eval (S (S n)) fuel w
  = match env_lookup (heap w) (curr_exp (ctx w)) (curr_env (ctx w)) with
    | Some v => Some (v, w)
    | None =>
        match env_lookup (heap w) (curr_exp (ctx w)) (eval_cps_global_env w) with
        | Some v => Some (v, w)
        | None =>
            Some (enc_sym symrepr_eerror,
                  set_K w (enc_u DONE :: K (ctx w)))
        end
    end.
Proof.
  intros Hk Ht. unfold run_eval, run_eval_init.
  assert (Hd : forall r0 fl,
    eval_dispatch fuel (set_K w (push_u32 (K (ctx w)) (enc_u DONE))) r0 fl
    = match env_lookup (heap w) (curr_exp (ctx w)) (curr_env (ctx w)) with
      | Some v => Some (set_K w (enc_u DONE :: K (ctx w)), v,
                        mk_flags (done fl) (perform_gc fl) true)
      | None =>
          match env_lookup (heap w) (curr_exp (ctx w)) (eval_cps_global_env w) with
          | Some v => Some (set_K w (enc_u DONE :: K (ctx w)), v,
                            mk_flags (done fl) (perform_gc fl) true)
          | None => Some (set_K w (enc_u DONE :: K (ctx w)),
                          enc_sym symrepr_eerror,
                          mk_flags true (perform_gc fl) false)
          end
      end).
  { intros r0 fl. unfold eval_dispatch. cbn. rewrite Ht.
    repeat case_match; done. }
  destruct (env_lookup (heap w) (curr_exp (ctx w)) (curr_env (ctx w)))
    as [v|] eqn:Hl.
  - erewrite loop_more; [|done|].
    2: { rewrite iter_plain by done. unfold eval_step. cbn [lf app_cont lw r].
         rewrite Hd. cbn. reflexivity. }
    erewrite loop_return; [|cbn; reflexivity|exact Hk].
    by destruct w as [[] ? ?].
  - destruct (env_lookup (heap w) (curr_exp (ctx w)) (eval_cps_global_env w))
      as [v|] eqn:Hg.
    + erewrite loop_more; [|done|].
      2: { rewrite iter_plain by done. unfold eval_step. cbn [lf app_cont lw r].
           rewrite Hd. cbn. reflexivity. }
      erewrite loop_return; [|cbn; reflexivity|exact Hk].
      by destruct w as [[] ? ?].
    + erewrite loop_more; [|done|].
      2: { rewrite iter_plain by done. unfold eval_step. cbn [lf app_cont lw r].
           rewrite Hd. cbn. reflexivity. }
      rewrite loop_end by done. done.
Qed.


(** One round of the loop on a state without requests: an evaluation
    when [app_cont] is clear, a continuation when it is set. *)
Lemma round_eval n fuel (w w' : world) (r0 r' : VALUE) (fl' : flags) (c : Z) :
  eval_dispatch fuel w r0 (mk_flags false false false) = Some (w', r', fl') ->
  run_eval_loop (S n) fuel (mk_loop w r0 (mk_flags false false false) c)
  = run_eval_loop n fuel (mk_loop w' r' fl' (wrap (c + 1))).
Proof.
  intros Hd. apply loop_more; [done|].
  rewrite iter_plain by done. unfold eval_step. cbn [lf app_cont lw r non_gc].
  rewrite Hd. done.
Qed.

Lemma round_cont n fuel (w w' : world) (r0 r' : VALUE) (fl' : flags) (c : Z) :
  apply_continuation fuel w r0 (mk_flags false false true) = Some (r', w', fl') ->
  run_eval_loop (S n) fuel (mk_loop w r0 (mk_flags false false true) c)
  = run_eval_loop n fuel (mk_loop w' r' fl' (wrap (c + 1))).
Proof.
  intros Hd. apply loop_more; [done|].
  rewrite iter_plain by done. unfold eval_step. cbn [lf app_cont lw r non_gc].
  rewrite Hd. done.
Qed.

Lemma round_cont_eq n fuel (w : world) (r0 : VALUE) (c : Z) :
  run_eval_loop (S n) fuel (mk_loop w r0 (mk_flags false false true) c)
  = '(r', w', fl') ← apply_continuation fuel w r0 (mk_flags false false true);
    run_eval_loop n fuel (mk_loop w' r' fl' (wrap (c + 1))).
Proof.
  cbn [run_eval_loop lf done]. rewrite iter_plain by done.
  unfold eval_step. cbn [lf app_cont lw r non_gc].
  destruct (apply_continuation _ _ _ _) as [[[r' w'] fl']|]; done.
Qed.

Lemma round_self n fuel (w : world) (r0 : VALUE) (c : Z) :
  self_evaluating (curr_exp (ctx w)) = true ->
  run_eval_loop (S n) fuel (mk_loop w r0 (mk_flags false false false) c)
  = run_eval_loop n fuel
      (mk_loop w (curr_exp (ctx w)) (mk_flags false false true) (wrap (c + 1))).
Proof.
  intros Hs. apply round_eval. by rewrite dispatch_self_evaluating.
Qed.

Lemma self_evaluating_not_symbol (v : VALUE) :
  self_evaluating v = true -> is_type v VAL_TYPE_SYMBOL = false.
Proof.
  unfold self_evaluating. intros Hs. apply is_type_ne. intros Ht.
  by rewrite Ht in Hs.
Qed.

Lemma dispatch_if fuel (w : world) (r0 : VALUE) (fl : flags) :
  special_ids_distinct ->
  special_form (heap w) (curr_exp (ctx w)) symrepr_if ->
  let h := heap w in
  let e := curr_exp (ctx w) in
  eval_dispatch fuel w r0 fl
  = Some (set_exp (set_K w (enc_u IF :: car h (cdr h (cdr h e))
                             :: car h (cdr h (cdr h (cdr h e))) :: K (ctx w)))
                  (car h (cdr h e)),
          r0, mk_flags (done fl) (perform_gc fl) false).
Proof.
  intros Hids (Hc & Ht & Hd). ids Hids. unfold eval_dispatch. rewrite Hc.
  head_is symrepr_if. done.
Qed.

Lemma continue_if fuel (w : world) (arg k t e : VALUE) (K1 : list VALUE)
    (fl : flags) :
  K (ctx w) = k :: t :: e :: K1 -> dec_u k = IF ->
  apply_continuation fuel w arg fl
  = Some (0, set_exp (set_K w K1)
               (if is_type arg VAL_TYPE_SYMBOL && (dec_sym arg =? symrepr_true)
                then t else e),
          mk_flags (done fl) (perform_gc fl) false).
Proof.
  intros HK Hk. unfold apply_continuation. rewrite HK. cbn. rewrite Hk. cbn.
  by case_match.
Qed.

(** X17.  [(if c a b)] takes the branch [a] only when [c] evaluates to
    the symbol [true]: a condition that is a number, a character, a
    boxed value or an array selects [b].  With [b] a value of these
    kinds, the form evaluates to [b] in five rounds. *)
Theorem if_selects_else (n fuel : nat) (w : world) :
  tag_decodes DONE -> tag_decodes IF -> special_ids_distinct ->
  let h := heap w in
  let e := curr_exp (ctx w) in
  special_form h e symrepr_if ->
  self_evaluating (car h (cdr h e)) = true ->
  self_evaluating (car h (cdr h (cdr h (cdr h e)))) = true ->
  run_eval (5 + n) fuel w
  = Some (car h (cdr h (cdr h (cdr h e))),
          set_exp w (car h (cdr h (cdr h (cdr h e))))).
Proof.
  intros Hk Hi Hids h e Hf Hc He. unfold run_eval, run_eval_init.
  change (5 + n)%nat with (S (S (S (S (S n))))).
  erewrite round_eval; [|by apply dispatch_if].
  rewrite round_self by done.
  erewrite round_cont; [|by eapply continue_if].
  subst h e. cbn [curr_exp ctx set_exp set_K with_exp with_K heap].
  rewrite (self_evaluating_not_symbol _ Hc). cbn [andb].
  rewrite round_self by done.
  erewrite loop_return; [|cbn; reflexivity|exact Hk].
  by destruct w as [[] ? ?].
Qed.

Lemma dispatch_progn fuel (w : world) (r0 : VALUE) (fl : flags) :
  special_ids_distinct ->
  special_form (heap w) (curr_exp (ctx w)) symrepr_progn ->
  let h := heap w in
  let exps := cdr h (curr_exp (ctx w)) in
  eval_dispatch fuel w r0 fl
  = if is_nil exps then
      Some (w, enc_sym symrepr_nil, mk_flags (done fl) (perform_gc fl) true)
    else if symrepr_is_error exps then
      Some (w, exps, mk_flags true (perform_gc fl) false)
    else
      Some (set_exp (set_K w (enc_u PROGN_REST :: cdr h exps :: K (ctx w)))
                    (car h exps),
            r0, mk_flags (done fl) (perform_gc fl) false).
Proof.
  intros Hids (Hc & Ht & Hd). ids Hids. unfold eval_dispatch. rewrite Hc.
  head_is symrepr_progn. unfold is_nil. by repeat case_match.
Qed.

Lemma continue_progn_rest fuel (w : world) (arg k rest : VALUE)
    (K1 : list VALUE) (fl : flags) :
  K (ctx w) = k :: rest :: K1 -> dec_u k = PROGN_REST ->
  apply_continuation fuel w arg fl
  = if is_nil rest then
      Some (arg, set_K w K1, mk_flags (done fl) (perform_gc fl) true)
    else if symrepr_is_error rest then
      Some (rest, set_K w K1, mk_flags true (perform_gc fl) false)
    else
      Some (enc_u 0,
            set_exp (set_K w (enc_u PROGN_REST :: cdr (heap w) rest :: K1))
                    (car (heap w) rest),
            mk_flags (done fl) (perform_gc fl) false).
Proof.
  intros HK Hk. unfold apply_continuation. rewrite HK. cbn. rewrite Hk. cbn.
  unfold is_nil. by repeat case_match.
Qed.

Lemma last_cons_default {A} (xs : list A) (x d : A) :
  List.last (x :: xs) d = List.last xs x.
Proof.
  revert x d. induction xs as [|y xs IH]; intros x d; [done|].
  change (List.last (x :: y :: xs) d) with (List.last (y :: xs) d).
  rewrite IH. symmetry. apply IH.
Qed.

Lemma progn_rest_loop fuel (h : Heap) (xs : list VALUE) :
  tag_decodes DONE -> tag_decodes PROGN_REST ->
  forall (rest : VALUE) (w : world) (r0 : VALUE) (c : Z) (K0 : list VALUE) (n : nat),
  progn_forms h rest xs ->
  heap w = h ->
  self_evaluating (curr_exp (ctx w)) = true ->
  Forall (fun x => self_evaluating x = true) xs ->
  K (ctx w) = enc_u PROGN_REST :: rest :: enc_u DONE :: K0 ->
  exists c',
    run_eval_loop (2 * Datatypes.length xs + 3 + n) fuel
                  (mk_loop w r0 (mk_flags false false false) c)
    = Some (mk_loop (set_exp (set_K w K0) (List.last xs (curr_exp (ctx w))))
                    (List.last xs (curr_exp (ctx w)))
                    (mk_flags true false false) c').
Proof.
  intros Hd Hp. induction xs as [|x xs IH];
    intros rest w r0 c K0 n Hforms Hh Hs Hall HK.
  - inversion Hforms as [v Hnil|]; subst.
    change (2 * Datatypes.length [] + 3 + n)%nat with (S (S (S n))).
    rewrite round_self by done.
    erewrite round_cont; [|erewrite continue_progn_rest; [|exact HK|exact Hp]; by rewrite Hnil].
    eexists. erewrite loop_return; [|cbn; reflexivity|exact Hd].
    cbn. by destruct w as [[] ? ?].
  - inversion Hforms as [|v xs' Hnil Herr Hrest]; subst.
    apply Forall_cons in Hall as [Hx Hall].
    replace (2 * Datatypes.length (car (heap w) rest :: xs) + 3 + n)%nat
      with (S (S (2 * Datatypes.length xs + 3 + n))) by (cbn; lia).
    rewrite round_self by done.
    erewrite round_cont;
      [|erewrite continue_progn_rest; [|exact HK|exact Hp]; by rewrite Hnil, Herr].
    edestruct (IH (cdr (heap w) rest)
                  (set_exp (set_K w (enc_u PROGN_REST :: cdr (heap w) rest
                                       :: enc_u DONE :: K0))
                           (car (heap w) rest))
                  (enc_u 0) (wrap (wrap (c + 1) + 1)) K0 n) as [c' Hc'];
      [done|done|done|done|done|].
    exists c'. cbn [done perform_gc app_cont]. rewrite Hc'.
    rewrite last_cons_default. by destruct w as [[] ? ?].
Qed.

(** X18.  [(progn e1 ... ek)] over numbers, characters, boxed values
    and arrays evaluates to the last of them, in [2k + 2] rounds, and
    the empty [progn] to [nil]; the heap and the global environment stay
    as they were. *)
Theorem progn_value (n fuel : nat) (w : world) (xs : list VALUE) :
  tag_decodes DONE -> tag_decodes PROGN_REST -> special_ids_distinct ->
  let h := heap w in
  let e := curr_exp (ctx w) in
  special_form h e symrepr_progn ->
  progn_forms h (cdr h e) xs ->
  Forall (fun x => self_evaluating x = true) xs ->
  run_eval (2 * Datatypes.length xs + 2 + n) fuel w
  = Some (List.last xs NIL, set_exp w (List.last xs e)).
Proof.
  intros Hd Hp Hids h e Hf Hforms Hall. unfold run_eval, run_eval_init.
  subst h e.
  set (w0 := set_K w (push_u32 (K (ctx w)) (enc_u DONE))).
  assert (Hf0 : special_form (heap w0) (curr_exp (ctx w0)) symrepr_progn) by done.
  pose proof (dispatch_progn fuel w0 NIL (mk_flags false false false) Hids Hf0)
    as Hdisp.
  cbv zeta in Hdisp.
  change (heap w0) with (heap w) in Hdisp.
  change (curr_exp (ctx w0)) with (curr_exp (ctx w)) in Hdisp.
  inversion Hforms as [v Hnil|v xs' Hnil Herr Hrest]; subst.
  - change (2 * Datatypes.length [] + 2 + n)%nat with (S (S n)).
    rewrite Hnil in Hdisp.
    erewrite round_eval; [|exact Hdisp].
    erewrite loop_return; [|cbn; reflexivity|exact Hd].
    cbn. by destruct w as [[] ? ?].
  - apply Forall_cons in Hall as [Hx Hall].
    rewrite Hnil, Herr in Hdisp.
    match goal with
    | |- context [run_eval_loop ?k] =>
        replace k with (S (2 * Datatypes.length xs' + 3 + n)) by (cbn; lia)
    end.
    erewrite round_eval; [|exact Hdisp].
    edestruct (progn_rest_loop fuel (heap w) xs' Hd Hp
                 (cdr (heap w) (cdr (heap w) (curr_exp (ctx w))))
                 (set_exp (set_K w0 (enc_u PROGN_REST
                                       :: cdr (heap w) (cdr (heap w) (curr_exp (ctx w)))
                                       :: K (ctx w0)))
                          (car (heap w) (cdr (heap w) (curr_exp (ctx w)))))
                 NIL (wrap (0 + 1)) (K (ctx w)) n) as [c' Hc'];
      [done|done|done|done|done|].
    cbn [done perform_gc app_cont]. rewrite Hc'.
    rewrite !last_cons_default. cbn.
    by destruct w as [[] ? ?].
Qed.

Lemma dispatch_define fuel (w : world) (r0 : VALUE) (fl : flags) :
  special_ids_distinct ->
  special_form (heap w) (curr_exp (ctx w)) symrepr_define ->
  let h := heap w in
  let key := car h (cdr h (curr_exp (ctx w))) in
  eval_dispatch fuel w r0 fl
  = if negb (is_type key VAL_TYPE_SYMBOL) || (key =? NIL) then
      Some (w, enc_sym symrepr_eerror, mk_flags true (perform_gc fl) false)
    else
      Some (set_exp (set_K w (enc_u SET_GLOBAL_ENV :: key :: K (ctx w)))
                    (car h (cdr h (cdr h (curr_exp (ctx w))))),
            r0, mk_flags (done fl) (perform_gc fl) false).
Proof.
  intros Hids (Hc & Ht & Hd). ids Hids. unfold eval_dispatch. rewrite Hc.
  head_is symrepr_define. by case_match.
Qed.

Lemma continue_set_global_env fuel (w : world) (arg k key : VALUE)
    (K1 : list VALUE) (fl : flags) :
  K (ctx w) = k :: key :: K1 -> dec_u k = SET_GLOBAL_ENV ->
  apply_continuation fuel w arg fl
  = '(res, w', g) ← cont_set_global_env fuel (set_K w (key :: K1)) arg
                                        (perform_gc fl);
    Some (res, w', mk_flags (done fl) g true).
Proof.
  intros HK Hk. unfold apply_continuation. rewrite HK. cbn. rewrite Hk. done.
Qed.

(** The rounds of [(define key v)] up to the continuation that stores
    the value. *)
Lemma define_rounds (n fuel : nat) (w : world) :
  tag_decodes SET_GLOBAL_ENV -> special_ids_distinct ->
  let h := heap w in
  let e := curr_exp (ctx w) in
  let key := car h (cdr h e) in
  let v := car h (cdr h (cdr h e)) in
  special_form h e symrepr_define ->
  type_of key = VAL_TYPE_SYMBOL -> key <> NIL ->
  self_evaluating v = true ->
  run_eval_loop (S (S (S n))) fuel (run_eval_init w)
  = '(res, w', g) ← cont_set_global_env fuel
                      (set_exp (set_K w (key :: enc_u DONE :: K (ctx w))) v)
                      v false;
    run_eval_loop n fuel
      (mk_loop w' res (mk_flags false g true) (wrap (wrap (wrap (0 + 1) + 1) + 1))).
Proof.
  intros Hs Hids h e key v Hf Hkt Hkn Hv. unfold run_eval_init.
  subst h e key v.
  set (w0 := set_K w (push_u32 (K (ctx w)) (enc_u DONE))).
  assert (Hf0 : special_form (heap w0) (curr_exp (ctx w0)) symrepr_define) by done.
  pose proof (dispatch_define fuel w0 NIL (mk_flags false false false) Hids Hf0)
    as Hdisp.
  cbv zeta in Hdisp.
  change (heap w0) with (heap w) in Hdisp.
  change (curr_exp (ctx w0)) with (curr_exp (ctx w)) in Hdisp.
  rewrite (is_type_eq _ _ Hkt) in Hdisp.
  rewrite (proj2 (Z.eqb_neq _ _) Hkn) in Hdisp. cbn [negb orb] in Hdisp.
  erewrite round_eval; [|exact Hdisp].
  rewrite round_self by done.
  rewrite round_cont_eq.
  erewrite continue_set_global_env; [|cbn; reflexivity|exact Hs].
  subst w0.
  cbn [done perform_gc app_cont curr_exp ctx set_exp set_K with_exp with_K
       heap eval_cps_global_env push_u32 program curr_env K].
  destruct (cont_set_global_env _ _ _ _) as [[[res w'] g]|]; done.
Qed.

(** X19.  [(define key v)] for a key that the walk over the global
    environment finds bound overwrites the value of that binding in
    place: the result is the symbol [true], the heap is the one the
    walk left, and the global environment is the same list. *)
Theorem define_rebinds (n fuel : nat) (w : world) (h' : Heap) :
  tag_decodes DONE -> tag_decodes SET_GLOBAL_ENV -> special_ids_distinct ->
  let h := heap w in
  let e := curr_exp (ctx w) in
  let key := car h (cdr h e) in
  let v := car h (cdr h (cdr h e)) in
  special_form h e symrepr_define ->
  type_of key = VAL_TYPE_SYMBOL -> key <> NIL ->
  self_evaluating v = true ->
  set_global_walk fuel h (eval_cps_global_env w) key v = Some (Some h') ->
  run_eval (4 + n) fuel w
  = Some (enc_sym symrepr_true, set_exp (set_heap w h') v).
Proof.
  intros Hd Hs Hids h e key v Hf Hkt Hkn Hv Hwalk. unfold run_eval.
  change (4 + n)%nat with (S (S (S (S n)))).
  rewrite (define_rounds (S n) fuel w Hs Hids Hf Hkt Hkn Hv).
  unfold cont_set_global_env.
  cbn [pop_u32 done perform_gc app_cont curr_exp ctx set_exp set_K with_exp
       with_K heap eval_cps_global_env K mbind option_bind].
  fold h e. fold key. fold v. rewrite Hwalk.
  cbn [mbind option_bind].
  erewrite loop_return; [|cbn; reflexivity|exact Hd].
  cbn. subst h e key v. by destruct w as [[] ? ?].
Qed.

(** X20.  [(define key v)] for a key the global environment does not
    bind allocates the pair [(key . v)] and puts it in front of the
    global environment, when the heap has the two cells; the result is
    the symbol [true]. *)
Theorem define_binds_new (n fuel : nat) (w : world) :
  tag_decodes DONE -> tag_decodes SET_GLOBAL_ENV -> special_ids_distinct ->
  let h := heap w in
  let e := curr_exp (ctx w) in
  let key := car h (cdr h e) in
  let v := car h (cdr h (cdr h e)) in
  let binding := cons h key v in
  let env' := cons binding.1 binding.2 (eval_cps_global_env w) in
  special_form h e symrepr_define ->
  type_of key = VAL_TYPE_SYMBOL -> key <> NIL ->
  self_evaluating v = true ->
  set_global_walk fuel h (eval_cps_global_env w) key v = Some None ->
  type_of binding.2 <> VAL_TYPE_SYMBOL ->
  type_of env'.2 <> VAL_TYPE_SYMBOL ->
  run_eval (4 + n) fuel w
  = Some (enc_sym symrepr_true,
          mk_world (with_exp (ctx w) v) env'.1 env'.2).
Proof.
  intros Hd Hs Hids h e key v binding env' Hf Hkt Hkn Hv Hwalk Hb He.
  unfold run_eval. change (4 + n)%nat with (S (S (S (S n)))).
  rewrite (define_rounds (S n) fuel w Hs Hids Hf Hkt Hkn Hv).
  unfold cont_set_global_env.
  cbn [pop_u32 done perform_gc app_cont curr_exp ctx set_exp set_K with_exp
       with_K heap eval_cps_global_env K mbind option_bind].
  fold h e. fold key. fold v. rewrite Hwalk.
  cbn [mbind option_bind]. fold binding.
  destruct binding as [h1 kv] eqn:Eb. cbn [fst snd] in *.
  rewrite (is_type_ne _ _ Hb). fold env'.
  destruct env' as [h2 tmp] eqn:Ee. cbn [fst snd] in *.
  rewrite (is_type_ne _ _ He). cbn [mbind option_bind].
  erewrite loop_return; [|cbn; reflexivity|exact Hd].
  cbn. subst h e key v. by destruct w as [[] ? ?].
Qed.

Lemma let_prealloc_stuck fuel (h : Heap) (curr new_env : VALUE) (g : bool) :
  type_of curr = PTR_TYPE_CONS -> exhausted h ->
  let_prealloc fuel h curr new_env g = None.
Proof.
  intros Hc Hfull. revert new_env g.
  induction fuel as [|fuel IH]; intros new_env g; cbn [let_prealloc];
    rewrite (is_type_eq _ _ Hc); [done|].
  destruct (Hfull (car h (car h curr)) NIL) as [Hh Hb].
  destruct (cons h (car h (car h curr)) NIL) as [h1 binding].
  cbn [fst snd] in Hh, Hb. subst h1.
  destruct (Hfull binding new_env) as [Hh2 _].
  destruct (cons h binding new_env) as [h2 new_env'].
  cbn [fst snd] in Hh2. subst h2.
  rewrite (is_type_eq _ _ Hb). cbn [orb]. apply IH.
Qed.

Lemma dispatch_let_exhausted fuel (w : world) (r0 : VALUE) (fl : flags) :
  special_ids_distinct ->
  special_form (heap w) (curr_exp (ctx w)) symrepr_let ->
  type_of (car (heap w) (cdr (heap w) (curr_exp (ctx w)))) = PTR_TYPE_CONS ->
  exhausted (heap w) ->
  eval_dispatch fuel w r0 fl = None.
Proof.
  intros Hids (Hc & Ht & Hd) Hb Hex. ids Hids. unfold eval_dispatch. rewrite Hc.
  head_is symrepr_let. rewrite (is_type_eq _ _ Hb). cbn [negb].
  rewrite let_prealloc_stuck; done.
Qed.

(** X21.  A [let] with bindings has no result on a heap without a free
    cell: the loop that allocates its bindings asks for a collection
    and runs the failed round again at once, without leaving to the
    collector, so [run_eval] does not return, however many rounds and
    however much fuel it is given. *)
Theorem let_never_returns (n fuel : nat) (w : world) :
  special_ids_distinct ->
  let h := heap w in
  let e := curr_exp (ctx w) in
  special_form h e symrepr_let ->
  type_of (car h (cdr h e)) = PTR_TYPE_CONS ->
  exhausted h ->
  run_eval n fuel w = None.
Proof.
  intros Hids h e Hf Hb Hex. unfold run_eval, run_eval_init.
  destruct n as [|n]; [done|].
  cbn [run_eval_loop lf done]. rewrite iter_plain by done.
  unfold eval_step. cbn [lf app_cont lw r].
  rewrite dispatch_let_exhausted; done.
Qed.

Lemma run_self_evaluating (n fuel : nat) (w : world) :
  tag_decodes DONE ->
  self_evaluating (curr_exp (ctx w)) = true ->
  run_eval (S (S n)) fuel w = Some (curr_exp (ctx w), w).
Proof.
  intros Hk Hs. unfold run_eval, run_eval_init.
  rewrite round_self by done.
  erewrite loop_return; [|cbn; reflexivity|exact Hk].
  by destruct w as [[] ? ?].
Qed.

(** X14.  A number, a character, a boxed value or an array evaluates to
    itself in two rounds of [run_eval], and the evaluation leaves the
    context, the heap and the global environment as they were. *)
Theorem self_evaluating_value (n fuel : nat) (w : world) :
  tag_decodes DONE ->
  self_evaluating (curr_exp (ctx w)) = true ->
  run_eval (S (S n)) fuel w = Some (curr_exp (ctx w), w).
Proof.
  intros Hk Hs. unfold run_eval, run_eval_init.
  rewrite round_self by done.
  erewrite loop_return; [|cbn; reflexivity|exact Hk].
  by destruct w as [[] ? ?].
Qed.

Lemma eval_forms_values (n fuel : nat) (h : Heap) (lisp : VALUE) (xs : list VALUE) :
  tag_decodes DONE ->
  program_forms h lisp xs ->
  Forall (fun x => self_evaluating x = true) xs ->
  forall (w : world) (res : VALUE),
  heap w = h ->
  exists w',
    eval_forms (Datatypes.length xs) (S (S n)) fuel w lisp res
    = Some (List.last xs res, w')
    /\ heap w' = h
    /\ eval_cps_global_env w' = eval_cps_global_env w
    /\ program (ctx w') = program (ctx w).
Proof.
  intros Hd Hforms. induction Hforms as [v Hv|v xs Hv Hrest IH];
    intros Hall w res Hh.
  - exists w. cbn. rewrite (is_type_ne _ _ Hv). done.
  - apply Forall_cons in Hall as [Hx Hall].
    cbn [Datatypes.length eval_forms]. rewrite (is_type_eq _ _ Hv).
    cbn [heap set_K]. rewrite Hh.
    rewrite run_self_evaluating; [|done|done].
    cbn [mbind option_bind curr_exp ctx set_exp set_env set_K with_exp with_env
         with_K heap].
    rewrite Hh.
    edestruct (IH Hall) as (w' & E & A & B & C); [|rewrite E].
    { done. }
    exists w'. rewrite last_cons_default. done.
Qed.

(** X22.  [eval_cps_program] on a program whose forms are numbers,
    characters, boxed values and arrays returns the last form, and
    [nil] for the empty program; the heap and the global environment
    stay as they were, and [ctx->program] is the program. *)
Theorem program_value (n fuel : nat) (w : world) (lisp : VALUE)
    (xs : list VALUE) :
  tag_decodes DONE ->
  symrepr_is_error (dec_sym lisp) = false ->
  program_forms (heap w) lisp xs ->
  Forall (fun x => self_evaluating x = true) xs ->
  exists w',
    eval_cps_program (Datatypes.length xs) (S (S n)) fuel w lisp
    = Some (List.last xs NIL, w')
    /\ heap w' = heap w
    /\ eval_cps_global_env w' = eval_cps_global_env w
    /\ program (ctx w') = lisp.
Proof.
  intros Hd Herr Hforms Hall. unfold eval_cps_program. rewrite Herr.
  edestruct (eval_forms_values n fuel (heap w) lisp xs Hd Hforms Hall)
    as (w' & E & A & B & C); [|exists w'; rewrite E]; done.
Qed.

Ltac split_all :=
  repeat (case_match; simplify_option_eq; cbn in *; try congruence).

Lemma apply_continuation_program fuel (w w' : world) (arg res : VALUE)
    (fl fl' : flags) :
  apply_continuation fuel w arg fl = Some (res, w', fl') ->
  program (ctx w') = program (ctx w).
Proof.
  unfold apply_continuation, cont_set_global_env. intros Ha.
  destruct w as [[pr e env K0] h g]. cbn in *. split_all.
Qed.

Lemma eval_dispatch_program fuel (w w' : world) (r0 r' : VALUE)
    (fl fl' : flags) :
  eval_dispatch fuel w r0 fl = Some (w', r', fl') ->
  program (ctx w') = program (ctx w)
  /\ eval_cps_global_env w' = eval_cps_global_env w.
Proof.
  unfold eval_dispatch. intros Ha.
  destruct w as [[pr e env K0] h g]. cbn in *. split_all; done.
Qed.

Lemma eval_step_program fuel (s s' : loop_state) :
  eval_step fuel s = Some s' ->
  program (ctx (lw s')) = program (ctx (lw s)).
Proof.
  unfold eval_step. intros Hi. destruct (app_cont (lf s)).
  - destruct (apply_continuation _ _ _ _) as [[[r' w'] fl']|] eqn:E;
      cbn in Hi; simplify_eq. cbn.
    by apply apply_continuation_program in E.
  - destruct (eval_dispatch _ _ _ _) as [[[w' r'] fl']|] eqn:E;
      cbn in Hi; simplify_eq. cbn.
    by apply eval_dispatch_program in E as [? _].
Qed.

Lemma run_eval_iter_program fuel (s s' : loop_state) :
  run_eval_iter fuel s = Some s' ->
  program (ctx (lw s')) = program (ctx (lw s)).
Proof.
  unfold run_eval_iter, collect. intros Hi.
  destruct (perform_gc (lf s)); [destruct (non_gc s =? 0)|].
  - by simplify_eq.
  - by apply eval_step_program in Hi.
  - by apply eval_step_program in Hi.
Qed.

Lemma run_eval_loop_program n fuel (s s' : loop_state) :
  run_eval_loop n fuel s = Some s' ->
  program (ctx (lw s')) = program (ctx (lw s)).
Proof.
  revert s. induction n as [|n IH]; intros s; cbn [run_eval_loop].
  - destruct (done (lf s)); [|done]. by intros [= <-].
  - destruct (done (lf s)); [by intros [= <-]|].
    destruct (run_eval_iter fuel s) as [t|] eqn:E; cbn; [|done].
    intros Hl. rewrite (IH _ Hl). by apply run_eval_iter_program in E.
Qed.

(** X23.  [run_eval] never writes [ctx->program], the root through
    which the collector keeps the forms still to be evaluated. *)
Theorem run_eval_keeps_program (n fuel : nat) (w w' : world) (v : VALUE) :
  run_eval n fuel w = Some (v, w') ->
  program (ctx w') = program (ctx w).
Proof.
  unfold run_eval. intros Hr.
  destruct (run_eval_loop n fuel (run_eval_init w)) as [s|] eqn:E;
    cbn in Hr; simplify_eq.
  by apply run_eval_loop_program in E.
Qed.

Lemma apply_continuation_global_env fuel (w w' : world) (arg res : VALUE)
    (fl fl' : flags) :
  apply_continuation fuel w arg fl = Some (res, w', fl') ->
  eval_cps_global_env w' <> eval_cps_global_env w ->
  exists k K1, K (ctx w) = k :: K1 /\ dec_u k = SET_GLOBAL_ENV.
Proof.
  intros Ha Hne. unfold apply_continuation in Ha.
  destruct w as [[pr e env K0] h g]. cbn in *.
  destruct K0 as [|k K1]; [done|]. cbn in Ha.
  destruct (dec_u k =? DONE) eqn:E1; [by simplify_eq|].
  destruct (dec_u k =? EVAL) eqn:E2; [by simplify_eq|].
  destruct (dec_u k =? SET_GLOBAL_ENV) eqn:E3.
  { exists k, K1. split; [done|]. by apply Z.eqb_eq. }
  exfalso. apply Hne. clear Hne E1 E2 E3. split_all.
Qed.

Lemma eval_step_global_env fuel (s s' : loop_state) :
  eval_step fuel s = Some s' ->
  eval_cps_global_env (lw s') <> eval_cps_global_env (lw s) ->
  app_cont (lf s) = true
  /\ exists k K1, K (ctx (lw s)) = k :: K1 /\ dec_u k = SET_GLOBAL_ENV.
Proof.
  unfold eval_step. intros Hi Hne. destruct (app_cont (lf s)).
  - destruct (apply_continuation _ _ _ _) as [[[r' w'] fl']|] eqn:E;
      cbn in Hi; simplify_eq. split; [done|].
    by apply (apply_continuation_global_env _ _ _ _ _ _ _ E).
  - destruct (eval_dispatch _ _ _ _) as [[[w' r'] fl']|] eqn:E;
      cbn in Hi; simplify_eq. cbn in Hne.
    by apply eval_dispatch_program in E as [_ ?].
Qed.

(** X24.  The global environment changes in one place only: a round of
    the loop of [run_eval] that leaves it different applied the
    [SET_GLOBAL_ENV] continuation, the second half of a [define]. *)
Theorem global_env_set_by_define_only (fuel : nat) (s s' : loop_state) :
  run_eval_iter fuel s = Some s' ->
  eval_cps_global_env (lw s') <> eval_cps_global_env (lw s) ->
  app_cont (lf s) = true
  /\ exists k K1, K (ctx (lw s)) = k :: K1 /\ dec_u k = SET_GLOBAL_ENV.
Proof.
  unfold run_eval_iter, collect. intros Hi Hne.
  destruct (perform_gc (lf s)); [destruct (non_gc s =? 0)|].
  - by simplify_eq.
  - by apply eval_step_global_env in Hi.
  - by apply eval_step_global_env in Hi.
Qed.

End Facts.

Import SpecSamples.

#[local] Existing Instance SpecRuntime.runtime.

Ltac computed := vm_compute; reflexivity.
Ltac decided := apply (bool_decide_unpack _); vm_compute; reflexivity.

Lemma spec_tag_DONE : tag_decodes DONE.
Proof. computed. Qed.

Lemma spec_tag_SET_GLOBAL_ENV : tag_decodes SET_GLOBAL_ENV.
Proof. computed. Qed.

Lemma spec_tag_IF : tag_decodes IF.
Proof. computed. Qed.

Lemma spec_tag_PROGN_REST : tag_decodes PROGN_REST.
Proof. computed. Qed.

Lemma ids_distinct : special_ids_distinct.
Proof. decided. Qed.

Lemma special_form_check (h : SpecRuntime.heap_state) (e : VALUE) (s : Z) :
  bool_decide (type_of e = PTR_TYPE_CONS)
  && bool_decide (type_of (car h e) = VAL_TYPE_SYMBOL)
  && (dec_sym (car h e) =? s) = true ->
  special_form h e s.
Proof.
  intros H. apply andb_true_iff in H as [H H3].
  apply andb_true_iff in H as [H1 H2].
  apply bool_decide_eq_true in H1, H2. apply Z.eqb_eq in H3. done.
Qed.

Lemma self_evaluating_value_witness :
  run_eval 2 1000 (form_world 8 number)
  = Some (curr_exp (ctx (form_world 8 number)), form_world 8 number).
Proof.
  assert (Hs : self_evaluating (curr_exp (ctx (form_world 8 number))) = true)
    by computed.
  exact (self_evaluating_value 0 1000 (form_world 8 number)
           spec_tag_DONE Hs).
Defined.

Lemma quote_value_witness :
  run_eval 2 1000 (form_world 8 quoted)
  = Some (car (heap (form_world 8 quoted))
              (cdr (heap (form_world 8 quoted))
                   (curr_exp (ctx (form_world 8 quoted)))),
          form_world 8 quoted).
Proof.
  assert (Hf : special_form (heap (form_world 8 quoted))
                 (curr_exp (ctx (form_world 8 quoted))) symrepr_quote)
    by (apply special_form_check; computed).
  exact (quote_value 0 1000 (form_world 8 quoted)
           spec_tag_DONE Hf).
Defined.

Lemma symbol_lookup_order_witness :
  fst <$> run_eval 2 1000 (form_world 8 unbound)
  = Some (enc_sym symrepr_eerror).
Proof.
  assert (Ht : type_of (curr_exp (ctx (form_world 8 unbound))) = VAL_TYPE_SYMBOL)
    by computed.
  rewrite (symbol_lookup_order 0 1000 (form_world 8 unbound)
             spec_tag_DONE Ht).
  computed.
Defined.

Lemma if_selects_else_witness :
  fst <$> run_eval (5 + 0) 1000 (form_world 16 if_number)
  = Some (SpecRuntime.enc_i 2).
Proof.
  assert (Hf : special_form (heap (form_world 16 if_number))
                 (curr_exp (ctx (form_world 16 if_number))) symrepr_if)
    by (apply special_form_check; computed).
  assert (Hc : self_evaluating
                 (car (heap (form_world 16 if_number))
                      (cdr (heap (form_world 16 if_number))
                           (curr_exp (ctx (form_world 16 if_number))))) = true)
    by computed.
  assert (He : self_evaluating
                 (car (heap (form_world 16 if_number))
                    (cdr (heap (form_world 16 if_number))
                       (cdr (heap (form_world 16 if_number))
                          (cdr (heap (form_world 16 if_number))
                             (curr_exp (ctx (form_world 16 if_number)))))))
               = true)
    by computed.
  rewrite (if_selects_else 0 1000 (form_world 16 if_number)
             spec_tag_DONE spec_tag_IF
             ids_distinct Hf Hc He).
  computed.
Defined.


Lemma progn_forms_step (h : SpecRuntime.heap_state) (v x : VALUE)
    (xs : list VALUE) :
  is_nil v = false -> symrepr_is_error v = false -> car h v = x ->
  progn_forms h (cdr h v) xs -> progn_forms h v (x :: xs).
Proof. intros Hn He <- Hr. by constructor. Qed.

Lemma program_forms_step (h : SpecRuntime.heap_state) (v x : VALUE)
    (xs : list VALUE) :
  type_of v = PTR_TYPE_CONS -> car h v = x ->
  program_forms h (cdr h v) xs -> program_forms h v (x :: xs).
Proof. intros Ht <- Hr. by constructor. Qed.

Lemma progn_value_witness :
  run_eval (2 * Datatypes.length [SpecRuntime.enc_i 1; SpecRuntime.enc_i 2]
            + 2 + 0) 1000 (form_world 16 progn_two)
  = Some (List.last [SpecRuntime.enc_i 1; SpecRuntime.enc_i 2] NIL,
          set_exp (form_world 16 progn_two)
            (List.last [SpecRuntime.enc_i 1; SpecRuntime.enc_i 2]
                       (curr_exp (ctx (form_world 16 progn_two))))).
Proof.
  assert (Hf : special_form (heap (form_world 16 progn_two))
                 (curr_exp (ctx (form_world 16 progn_two))) symrepr_progn)
    by (apply special_form_check; computed).
  assert (Hl : progn_forms (heap (form_world 16 progn_two))
                 (cdr (heap (form_world 16 progn_two))
                      (curr_exp (ctx (form_world 16 progn_two))))
                 [SpecRuntime.enc_i 1; SpecRuntime.enc_i 2]).
  { apply progn_forms_step; [computed|computed|computed|].
    apply progn_forms_step; [computed|computed|computed|].
    apply progn_forms_nil. computed. }
  assert (Ha : Forall (fun x => self_evaluating x = true)
                 [SpecRuntime.enc_i 1; SpecRuntime.enc_i 2]).
  { repeat constructor; computed. }
  exact (progn_value 0 1000 (form_world 16 progn_two)
           [SpecRuntime.enc_i 1; SpecRuntime.enc_i 2]
           spec_tag_DONE spec_tag_PROGN_REST
           ids_distinct Hf Hl Ha).
Defined.

Lemma define_binds_new_witness :
  fst <$> run_eval (4 + 0) 1000 (define_world)
  = Some (enc_sym symrepr_true).
Proof.
  assert (Hf : special_form (heap define_world) (curr_exp (ctx define_world)) symrepr_define)
    by (apply special_form_check; computed).
  assert (Hk : type_of (car (heap define_world) (cdr (heap define_world) (curr_exp (ctx define_world))))
               = VAL_TYPE_SYMBOL) by computed.
  assert (Hn : car (heap define_world) (cdr (heap define_world) (curr_exp (ctx define_world))) <> NIL)
    by (vm_compute; discriminate).
  assert (Hv : self_evaluating
                 (car (heap define_world) (cdr (heap define_world) (cdr (heap define_world) (curr_exp (ctx define_world)))))
               = true) by computed.
  assert (Hw : set_global_walk 1000 (heap define_world) (eval_cps_global_env define_world)
                 (car (heap define_world) (cdr (heap define_world) (curr_exp (ctx define_world))))
                 (car (heap define_world) (cdr (heap define_world) (cdr (heap define_world) (curr_exp (ctx define_world)))))
               = Some None) by computed.
  assert (Hb : type_of
                 (cons (heap define_world)
                    (car (heap define_world) (cdr (heap define_world) (curr_exp (ctx define_world))))
                    (car (heap define_world)
                       (cdr (heap define_world) (cdr (heap define_world) (curr_exp (ctx define_world)))))).2
               <> VAL_TYPE_SYMBOL) by (vm_compute; discriminate).
  assert (He : type_of
                 (cons
                    (cons (heap define_world)
                       (car (heap define_world) (cdr (heap define_world) (curr_exp (ctx define_world))))
                       (car (heap define_world)
                          (cdr (heap define_world) (cdr (heap define_world) (curr_exp (ctx define_world)))))).1
                    (cons (heap define_world)
                       (car (heap define_world) (cdr (heap define_world) (curr_exp (ctx define_world))))
                       (car (heap define_world)
                          (cdr (heap define_world) (cdr (heap define_world) (curr_exp (ctx define_world)))))).2
                    (eval_cps_global_env define_world)).2
               <> VAL_TYPE_SYMBOL) by (vm_compute; discriminate).
  rewrite (define_binds_new 0 1000 define_world
             spec_tag_DONE
             spec_tag_SET_GLOBAL_ENV
             ids_distinct Hf Hk Hn Hv Hw Hb He).
  reflexivity.
Defined.

Lemma define_rebinds_witness :
  run_eval (4 + 0) 1000 (redefine_world)
  = Some (enc_sym symrepr_true,
          set_exp (set_heap (redefine_world) rebound_heap)
            (car (heap (redefine_world))
               (cdr (heap (redefine_world))
                  (cdr (heap (redefine_world))
                     (curr_exp (ctx (redefine_world))))))).
Proof.
  assert (Hf : special_form (heap redefine_world) (curr_exp (ctx redefine_world)) symrepr_define)
    by (apply special_form_check; computed).
  assert (Hk : type_of (car (heap redefine_world) (cdr (heap redefine_world) (curr_exp (ctx redefine_world))))
               = VAL_TYPE_SYMBOL) by computed.
  assert (Hn : car (heap redefine_world) (cdr (heap redefine_world) (curr_exp (ctx redefine_world))) <> NIL)
    by (vm_compute; discriminate).
  assert (Hv : self_evaluating
                 (car (heap redefine_world) (cdr (heap redefine_world) (cdr (heap redefine_world) (curr_exp (ctx redefine_world)))))
               = true) by computed.
  assert (Hw : set_global_walk 1000 (heap redefine_world) (eval_cps_global_env redefine_world)
                 (car (heap redefine_world) (cdr (heap redefine_world) (curr_exp (ctx redefine_world))))
                 (car (heap redefine_world) (cdr (heap redefine_world) (cdr (heap redefine_world) (curr_exp (ctx redefine_world)))))
               = Some (Some rebound_heap)) by computed.
  exact (define_rebinds 0 1000 redefine_world rebound_heap
           spec_tag_DONE
           spec_tag_SET_GLOBAL_ENV
           ids_distinct Hf Hk Hn Hv Hw).
Defined.

Lemma let_never_returns_witness :
  run_eval 1000 1000 (let_world) = None.
Proof.
  assert (Hf : special_form (heap let_world) (curr_exp (ctx let_world)) symrepr_let)
    by (apply special_form_check; computed).
  assert (Hb : type_of (car (heap let_world) (cdr (heap let_world) (curr_exp (ctx let_world))))
               = PTR_TYPE_CONS) by computed.
  assert (Hx : exhausted (heap let_world)).
  { intros a d. split; computed. }
  exact (let_never_returns 1000 1000 let_world ids_distinct Hf Hb Hx).
Defined.

Lemma program_value_witness :
  exists w',
    eval_cps_program (Datatypes.length [SpecRuntime.enc_i 1; SpecRuntime.enc_i 2])
                     2 1000 (form_world 8 two_numbers)
                     (program (ctx (form_world 8 two_numbers)))
    = Some (List.last [SpecRuntime.enc_i 1; SpecRuntime.enc_i 2] NIL, w').
Proof.
  assert (He : symrepr_is_error (dec_sym (program (ctx (form_world 8 two_numbers)))) = false) by computed.
  assert (Hl : program_forms (heap (form_world 8 two_numbers)) (program (ctx (form_world 8 two_numbers)))
                 [SpecRuntime.enc_i 1; SpecRuntime.enc_i 2]).
  { apply program_forms_step; [computed|computed|].
    apply program_forms_step; [computed|computed|].
    apply program_forms_nil. vm_compute. discriminate. }
  assert (Ha : Forall (fun x => self_evaluating x = true)
                 [SpecRuntime.enc_i 1; SpecRuntime.enc_i 2]).
  { repeat constructor; computed. }
  destruct (program_value 0 1000 (form_world 8 two_numbers) (program (ctx (form_world 8 two_numbers)))
              [SpecRuntime.enc_i 1; SpecRuntime.enc_i 2]
              spec_tag_DONE He Hl Ha) as (w' & E & _).
  exists w'. exact E.
Defined.

Lemma run_eval_keeps_program_witness :
  program (ctx (set_exp (form_world 16 if_number) (SpecRuntime.enc_i 2)))
  = program (ctx (form_world 16 if_number)).
Proof.
  assert (Hr : run_eval 5 1000 (form_world 16 if_number)
               = Some (SpecRuntime.enc_i 2,
                       set_exp (form_world 16 if_number) (SpecRuntime.enc_i 2)))
    by computed.
  exact (run_eval_keeps_program 5 1000 _ _ _ Hr).
Defined.

Lemma global_env_set_by_define_only_witness :
  app_cont (lf before_binding) = true
  /\ exists k K1, K (ctx (lw before_binding)) = k :: K1
                  /\ dec_u k = SET_GLOBAL_ENV.
Proof.
  assert (Hi : run_eval_iter 1000 before_binding = Some after_binding)
    by computed.
  assert (Hne : eval_cps_global_env (lw after_binding)
                <> eval_cps_global_env (lw before_binding))
    by (vm_compute; discriminate).
  exact (global_env_set_by_define_only 1000 before_binding after_binding Hi Hne).
Defined.

End EvalCpsMoreFacts.
